(** * usch.h: a shallow embedding of the stash, the tokenizer, the
      expansion engine, the executable lookup and the pipeline executor. *)

From Stdlib Require Import ZArith List Ascii String Lia Bool.
From stdpp Require Import base option list gmap strings.

(* ===================================================================== *)
(** * Part I: definitions                                                *)
(* ===================================================================== *)

(** ** Bytes and C strings *)

(** A C string is modelled by its contents, the bytes before the
    terminating NUL; raw buffers are lists of bytes that may hold NULs. *)
Abbreviation cstr := (list ascii).

Definition NUL : ascii := Ascii.zero.

(** A source string literal. *)
Definition lit (s : string) : cstr := list_ascii_of_string s.

(** [strlen] on a raw buffer: the number of bytes before the first NUL. *)
Fixpoint strlen (m : list ascii) : nat :=
  match m with
  | [] => 0
  | c :: m' => if Ascii.eqb c NUL then 0 else S (strlen m')
  end.

(** The C string that starts at offset [off] of the buffer [m]. *)
Definition cstr_at (m : list ascii) (off : nat) : cstr :=
  take (strlen (drop off m)) (drop off m).

(** [strcmp(a, b) == 0] on string contents. *)
Fixpoint strcmp_eq (a b : cstr) : bool :=
  match a, b with
  | [], [] => true
  | x :: a', y :: b' => Ascii.eqb x y && strcmp_eq a' b'
  | _, _ => false
  end.

(** ** Outcomes of a call *)

(** [Done v]: the call returns [v].  [Fault]: the call reads or writes
    memory it does not own (undefined behaviour of the C program).
    [OutOfFuel]: the bound given to a loop of the model was too small. *)
Inductive run (A : Type) : Type :=
| Done (v : A)
| Fault
| OutOfFuel.
Arguments Done {A} v.
Arguments Fault {A}.
Arguments OutOfFuel {A}.

Definition run_bind {A B : Type} (r : run A) (k : A -> run B) : run B :=
  match r with
  | Done v => k v
  | Fault => Fault
  | OutOfFuel => OutOfFuel
  end.

(** ** The stash (arena) *)

Definition addr := positive.

(** [struct priv_usch_stash_item]: the flexible array member [str] holds
    an optional pointer table followed by character data.  A pointer
    table entry is an offset into the character data of the same block,
    [None] is the NULL pointer. *)
Record priv_usch_stash_item : Type := StashItem {
  p_next : option addr;
  error : Z;
  str_vec : list (option nat);
  str_bytes : list ascii
}.

(** The allocator's live blocks. *)
Abbreviation heap := (gmap addr priv_usch_stash_item).

(** [struct ustash]. *)
Record ustash : Type := Ustash { p_list : option addr }.

(** [calloc]: a block the allocator has not handed out yet. *)
Definition calloc_addr (h : heap) : addr := fresh (dom h).

Definition set_next (n : option addr) (it : priv_usch_stash_item) :
  priv_usch_stash_item :=
  {| p_next := n; error := error it;
     str_vec := str_vec it; str_bytes := str_bytes it |}.

(** [priv_usch_stash]; a NULL pointer is [None], the pointed-to
    [ustash] is passed in and handed back. *)
Definition priv_usch_stash (p_ustash : option ustash)
    (p_stashitem : option addr) (h : heap) : Z * option ustash * heap :=
  match p_ustash, p_stashitem with
  | Some s, Some a =>
      (0%Z, Some {| p_list := Some a |}, alter (set_next (p_list s)) a h)
  | _, _ => ((-1)%Z, p_ustash, h)
  end.

(** The [while (p_current != NULL)] loop of [uclear]: read
    [p_current->p_next], then [free] the block. *)
Fixpoint uclear_walk (fuel : nat) (p_current : option addr) (h : heap)
  : run heap :=
  match p_current with
  | None => Done h
  | Some a =>
      match fuel with
      | O => OutOfFuel
      | S fuel' =>
          match h !! a with
          | None => Fault
          | Some it => uclear_walk fuel' (p_next it) (delete a h)
          end
      end
  end.

(** [uclear].  Every iteration of the walk releases a live block, so
    [S (size h)] iterations are enough. *)
Definition uclear (p_ustash : option ustash) (h : heap)
  : run (option ustash * heap) :=
  match p_ustash with
  | None => Done (None, h)
  | Some s =>
      match p_list s with
      | None => Done (Some s, h)
      | Some a =>
          run_bind (uclear_walk (S (size h)) (Some a) h)
            (fun h' => Done (Some {| p_list := None |}, h'))
      end
  end.

(** [n] consecutive calls of [uclear] on the same handle. *)
Fixpoint uclear_times (n : nat) (p_ustash : option ustash) (h : heap)
  : run (option ustash * heap) :=
  match n with
  | O => Done (p_ustash, h)
  | S n' => run_bind (uclear p_ustash h)
              (fun '(p, h') => uclear_times n' p h')
  end.

(** The blocks reachable from a list head through [p_next]. *)
Inductive stash_chain (h : heap) : option addr -> list addr -> Prop :=
| chain_nil : stash_chain h None []
| chain_cons a it l :
    h !! a = Some it ->
    stash_chain h (p_next it) l ->
    stash_chain h (Some a) (a :: l).

(** The heap after the blocks [l] are released. *)
Definition release (l : list addr) (h : heap) : heap :=
  foldl (fun h' a => delete a h') h l.

(** ** Pointers handed back by the entry points *)

(** The function-local [static] objects of [ustrexpv] and [ustrjoinv]. *)
Inductive static_obj : Type := emptyarr | emptystr.

(** A returned pointer: NULL, the address of a static object, or the
    [str] member of the stash item at address [a]. *)
Inductive pointer : Type :=
| Null
| Static (obj : static_obj)
| InBlock (a : addr).

(** The entries of a NULL-terminated pointer table before the first NULL. *)
Fixpoint vec_prefix {A : Type} (v : list (option A)) : list A :=
  match v with
  | Some x :: v' => x :: vec_prefix v'
  | _ => []
  end.

(** The strings a returned [char **] denotes in heap [h]. *)
Definition read_vec (h : heap) (p : pointer) : option (list cstr) :=
  match p with
  | Null => None
  | Static emptyarr => Some []
  | Static emptystr => None
  | InBlock a =>
      match h !! a with
      | Some it => Some (map (cstr_at (str_bytes it)) (vec_prefix (str_vec it)))
      | None => None
      end
  end.

(** The string a returned [char *] denotes in heap [h]. *)
Definition read_str (h : heap) (p : pointer) : option cstr :=
  match p with
  | Null => None
  | Static emptystr => Some []
  | Static emptyarr => None
  | InBlock a =>
      match h !! a with
      | Some it => Some (cstr_at (str_bytes it) 0)
      | None => None
      end
  end.

(** ** The tokenizer: [ustrsplit] *)

(** The inner [for (j ...)] of the counting pass at input byte [c]. *)
Definition count_matches (p_delims : cstr) (num_str : nat) (c : ascii) : nat :=
  foldl (fun n d => if Ascii.eqb c d then S n else n) num_str p_delims.

(** The counting pass: [num_str = 1] plus one per matching pair (i, j). *)
Definition count_slots (p_in p_delims : cstr) : nat :=
  foldl (count_matches p_delims) 1 p_in.

(** The variables the second pass updates. *)
Record split_state : Type := SplitState {
  p_out : list ascii;
  pp_out : list (option nat);
  out_pos : nat
}.

(** The body of the second pass at indices [i], [j] with [d = p_delims[j]]:
    [if (p_out[i] == d) { p_out[i] = 0; pp_out[out_pos++] = &p_out[i+1]; }] *)
Definition split_inner (i : nat) (st : split_state) (d : ascii) : split_state :=
  match p_out st !! i with
  | Some c =>
      if Ascii.eqb c d
      then {| p_out := <[i := NUL]> (p_out st);
              pp_out := <[out_pos st := Some (S i)]> (pp_out st);
              out_pos := S (out_pos st) |}
      else st
  | None => st
  end.

Definition split_step (p_delims : cstr) (st : split_state) (i : nat)
  : split_state :=
  foldl (split_inner i) st p_delims.

Definition split_scan (len_in : nat) (p_delims : cstr) (st : split_state)
  : split_state :=
  foldl (split_step p_delims) st (seq 0 len_in).

(** [ustrsplit].  [calloc_ok] tells whether the one [calloc] succeeds.
    The result is the returned pointer, the caller's [ustash] and the
    heap after the call. *)
Definition ustrsplit (p_ustash : option ustash) (h : heap)
    (p_in p_delims : option cstr) (calloc_ok : bool)
  : pointer * option ustash * heap :=
  match p_ustash, p_in, p_delims with
  | Some _, Some s_in, Some delims =>
      if negb calloc_ok then (Null, p_ustash, h)
      else
        let len_in := length s_in in
        let num_str := count_slots s_in delims in
        let a := calloc_addr h in
        let st0 := {| p_out := s_in ++ [NUL];
                      pp_out := <[0 := Some 0]> (replicate (num_str + 1) None);
                      out_pos := 1 |} in
        let st := split_scan len_in delims st0 in
        let h1 := <[a := {| p_next := None; error := 0;
                            str_vec := pp_out st;
                            str_bytes := p_out st |}]> h in
        match priv_usch_stash p_ustash (Some a) h1 with
        | (status, p', h2) =>
            if (status =? 0)%Z then (InBlock a, p', h2)
            else (InBlock a, p', delete a h2)
        end
  | _, _, _ => (Null, p_ustash, h)
  end.

(** ** Joining: [ustrjoinv] *)

(** The copy loop: [memcpy(p_dststr, pp_strings[i], len); p_dststr += len]. *)
Definition join_copy (st : list ascii * nat) (s : cstr) : list ascii * nat :=
  (list_inserts (snd st) s (fst st), snd st + length s).

(** [ustrjoinv]; [pp_strings] is the NULL-terminated vector read as the
    list of its strings, [None] when the pointer itself is NULL. *)
Definition ustrjoinv (p_ustash : option ustash) (h : heap)
    (pp_strings : option (list cstr)) (calloc_ok : bool)
  : pointer * option ustash * heap :=
  match pp_strings with
  | None => (Static emptystr, p_ustash, h)
  | Some strs =>
      let total_len := foldl (fun n s => n + length s) 0 strs in
      if negb calloc_ok then (Static emptystr, p_ustash, h)
      else
        let a := calloc_addr h in
        let st := foldl join_copy (replicate (total_len + 1) NUL, 0) strs in
        let bytes := <[snd st := NUL]> (fst st) in
        let h1 := <[a := {| p_next := None; error := 0;
                            str_vec := []; str_bytes := bytes |}]> h in
        match priv_usch_stash p_ustash (Some a) h1 with
        | (status, p', h2) =>
            if (status =? 0)%Z then (InBlock a, p', h2)
            else (Static emptystr, p', h2)
        end
  end.

(** The vector a caller builds to rejoin slots around a delimiter byte:
    slot, delimiter, slot, ..., slot. *)
Fixpoint interpose (d : cstr) (slots : list cstr) : list cstr :=
  match slots with
  | [] => []
  | [s] => [s]
  | s :: rest => s :: d :: interpose d rest
  end.

(** ** Pattern expansion: glob(3) and [priv_usch_globexpand] *)

(** The flags of glob(3) the source passes. *)
Record glob_flags : Type := GlobFlags {
  GLOB_MARK : bool;
  GLOB_NOCHECK : bool;
  GLOB_TILDE : bool;
  GLOB_NOMAGIC : bool;
  GLOB_BRACE : bool
}.

(** [GLOB_MARK | GLOB_NOCHECK | GLOB_TILDE | GLOB_NOMAGIC | GLOB_BRACE] *)
Definition usch_glob_flags : glob_flags :=
  {| GLOB_MARK := true; GLOB_NOCHECK := true; GLOB_TILDE := true;
     GLOB_NOMAGIC := true; GLOB_BRACE := true |}.

(** The file system as the matcher inside glob(3) sees it: the entries a
    pattern matches under the given flags (possibly none), or a genuine
    failure of the matching subsystem. *)
Inductive match_result : Type :=
| Matches (paths : list cstr)
| MatchError.

Abbreviation matcher := (glob_flags -> cstr -> match_result).

Definition GLOB_ABORTED : Z := 2.
Definition GLOB_NOMATCH : Z := 3.

(** Does the pattern hold one of the wildcard characters [*], [?], [[]? *)
Definition has_magic (pattern : cstr) : bool :=
  existsb (fun c => Ascii.eqb c "*" || Ascii.eqb c "?" || Ascii.eqb c "[")
    pattern.

(** glob(3) as POSIX and glibc document it: the return value and
    [gl_pathv].  With [GLOB_NOCHECK], or with [GLOB_NOMAGIC] on a pattern
    without wildcards, a pattern that matches nothing is returned itself. *)
Definition glob (fs : matcher) (pattern : cstr) (flags : glob_flags)
  : Z * list cstr :=
  match fs flags pattern with
  | MatchError => (GLOB_ABORTED, [])
  | Matches [] =>
      if GLOB_NOCHECK flags || (GLOB_NOMAGIC flags && negb (has_magic pattern))
      then (0%Z, [pattern])
      else (GLOB_NOMATCH, [])
  | Matches paths => (0%Z, paths)
  end.

(** The [k]-th allocation request of a call succeeds iff [mem k]. *)
Abbreviation alloc_oracle := (nat -> bool).

(** The first loop of [priv_usch_globexpand] from argument [k] on: the
    glob list built (one [gl_pathv] per node) and the number of
    arguments consumed ([orig_arg_idx]); [None] on [goto end]. *)
Fixpoint glob_loop (fs : matcher) (mem : alloc_oracle) (k : nat)
    (argv : list cstr) : option (list (list cstr) * nat) :=
  match argv with
  | [] => Some ([], 0)
  | arg :: rest =>
      if strcmp_eq arg (lit "--") then Some ([], 1)
      else if negb (mem k) then None
      else
        let r := glob fs arg usch_glob_flags in
        if negb (fst r =? 0)%Z then None
        else match glob_loop fs mem (S k) rest with
             | Some (items, idx) => Some (snd r :: items, S idx)
             | None => None
             end
  end.

(** A store [buf[i] = x]; outside the allocated buffer it is a fault. *)
Definition store {A : Type} (i : nat) (x : A) (buf : list A) : run (list A) :=
  if i <? length buf then Done (<[i := x]> buf) else Fault.

(** [for (j = 0; j < gl_pathc; j++, i++) pp_expanded_argv[i] = gl_pathv[j];] *)
Fixpoint copy_pathv (pathv : list cstr) (i : nat) (buf : list (option cstr))
  : run (list (option cstr) * nat) :=
  match pathv with
  | [] => Done (buf, i)
  | p :: rest =>
      run_bind (store i (Some p) buf) (fun buf' => copy_pathv rest (S i) buf')
  end.

(** The [while (p_current_glob_item != NULL)] loop; the result carries
    the value [j] is left with. *)
Fixpoint copy_items (items : list (list cstr)) (i j : nat)
    (buf : list (option cstr)) : run (list (option cstr) * nat) :=
  match items with
  | [] => Done (buf, j)
  | pathv :: rest =>
      run_bind (copy_pathv pathv i buf)
        (fun r => copy_items rest (snd r) (length pathv) (fst r))
  end.

(** [for (i = orig_arg_idx; i < num_args; i++)
      pp_expanded_argv[j + i] = pp_orig_argv[i];]
    over the arguments from index [i] on. *)
Fixpoint copy_tail (tail : list cstr) (j i : nat) (buf : list (option cstr))
  : run (list (option cstr)) :=
  match tail with
  | [] => Done buf
  | t :: rest =>
      run_bind (store (j + i) (Some t) buf)
        (fun buf' => copy_tail rest j (S i) buf')
  end.

(** [priv_usch_globexpand]: [Done None] is the NULL return; otherwise the
    allocated array (every slot, [None] = NULL) and the glob list stored
    through [pp_glob_list].  [num_args] is the length of the argument
    list.  The final [calloc] is not checked by the source: when it
    fails, the first store goes through NULL. *)
Definition priv_usch_globexpand (fs : matcher) (mem : alloc_oracle)
    (pp_orig_argv : list cstr)
  : run (option (list (option cstr) * list (list cstr))) :=
  let num_args := length pp_orig_argv in
  match glob_loop fs mem 0 pp_orig_argv with
  | None => Done None
  | Some (items, orig_arg_idx) =>
      let num_glob_items := foldl (fun n pathv => n + length pathv) 0 items in
      let calloc_ok := mem (length items) in
      let buf0 :=
        if calloc_ok
        then replicate (num_glob_items + num_args - orig_arg_idx + 1) None
        else [] in
      run_bind (copy_items items 0 0 buf0) (fun r =>
      run_bind (copy_tail (drop orig_arg_idx pp_orig_argv)
                  (snd r) orig_arg_idx (fst r)) (fun buf =>
      Done (if calloc_ok then Some (buf, items) else None)))
  end.

(** Reading a NULL-terminated vector the way the callers do: slot by
    slot up to the first NULL; running off the array is a fault. *)
Fixpoint scan_vec {A : Type} (v : list (option A)) : run (list A) :=
  match v with
  | [] => Fault
  | None :: _ => Done []
  | Some x :: v' => run_bind (scan_vec v') (fun l => Done (x :: l))
  end.

(** The NULL-terminated sequence a caller reads off the array that
    [priv_usch_globexpand] returns; [None] for the NULL return. *)
Definition expanded_sequence (fs : matcher) (mem : alloc_oracle)
    (pp_orig_argv : list cstr) : run (option (list cstr)) :=
  run_bind (priv_usch_globexpand fs mem pp_orig_argv) (fun r =>
  match r with
  | None => Done None
  | Some (buf, _) => run_bind (scan_vec buf) (fun args => Done (Some args))
  end).

(** The glob-list nodes that [priv_usch_globexpand] leaves allocated
    for good.  On [goto end] from the first loop the list built so far
    stays in the local [p_glob_list]: it is not stored through
    [pp_glob_list], so the caller's pointer stays NULL and
    [priv_usch_free_globlist] gets nothing to free.  [k] is the number
    of nodes allocated so far, which is also the index of the next
    allocation request.  A failed [calloc] strands the [k] nodes before
    it, a failed [glob] those and the node it was to fill.  When the
    loop ends normally the list is handed to the caller and nothing is
    stranded. *)
Fixpoint glob_loop_lost (fs : matcher) (mem : alloc_oracle) (k : nat)
    (argv : list cstr) : nat :=
  match argv with
  | [] => 0
  | arg :: rest =>
      if strcmp_eq arg (lit "--") then 0
      else if negb (mem k) then k
      else if negb (fst (glob fs arg usch_glob_flags) =? 0)%Z then S k
      else glob_loop_lost fs mem (S k) rest
  end.

Definition globexpand_lost_nodes (fs : matcher) (mem : alloc_oracle)
    (pp_orig_argv : list cstr) : nat :=
  glob_loop_lost fs mem 0 pp_orig_argv.

(** ** [ustrexpv] *)

(** The copy loop of [ustrexpv]: table so far, data area, [pos]. *)
Definition expv_copy (st : list (option nat) * list ascii * nat) (s : cstr)
  : list (option nat) * list ascii * nat :=
  (fst (fst st) ++ [Some (snd st)],
   list_inserts (snd st) s (snd (fst st)),
   snd st + (length s + 1)).

(** [ustrexpv]; [mem] serves the allocations of the expansion and
    [calloc_ok] the one of the blob.  The heap is the one of the stash
    items; the glob-list nodes are freed at [end] when the expansion
    has handed them over, and are counted by [globexpand_lost_nodes]
    when it has not. *)
Definition ustrexpv (fs : matcher) (mem : alloc_oracle) (calloc_ok : bool)
    (p_ustash : option ustash) (h : heap) (pp_strings : option (list cstr))
  : run (pointer * option ustash * heap) :=
  match pp_strings with
  | None => Fault
  | Some strs =>
      run_bind (priv_usch_globexpand fs mem strs) (fun r =>
      match r with
      | None => Done (Static emptyarr, p_ustash, h)
      | Some (extmem, _) =>
          run_bind (scan_vec extmem) (fun ext =>
          let total_len := foldl (fun n s => n + (length s + 1)) 0 ext in
          if negb calloc_ok then Done (Static emptyarr, p_ustash, h)
          else
            let a := calloc_addr h in
            let st := foldl expv_copy ([], replicate total_len NUL, 0) ext in
            let h1 := <[a := {| p_next := None; error := 0;
                                str_vec := fst (fst st) ++ [None];
                                str_bytes := snd (fst st) |}]> h in
            match priv_usch_stash p_ustash (Some a) h1 with
            | (status, p', h2) =>
                if (status =? 0)%Z then Done (InBlock a, p', h2)
                else Done (Static emptyarr, p', h2)
            end)
      end)
  end.

(** ** Executable lookup: [priv_usch_cached_whereis] *)

(** The index of the last ['/'] among the first bytes of a buffer, [-1]
    when there is none: the [basename_index] loop. *)
Definition last_slash (buf : list ascii) : Z :=
  fst (foldl (fun st c =>
                ((if Ascii.eqb c "/" then snd st else fst st), (snd st + 1)%Z))
         ((-1)%Z, 0%Z) buf).

(** The probing loop over the directories.  The result is the status
    and the bytes of the block stored through [pp_dest], if any; the
    block comes from [malloc] and its last byte is never written
    ([None] is an indeterminate byte). *)
Fixpoint whereis_probe (fs_stat : cstr -> bool) (malloc_ok : bool)
    (pp_path : list cstr) (p_item : cstr)
  : Z * option (list (option ascii)) :=
  match pp_path with
  | [] => (0%Z, None)
  | dir :: rest =>
      let new_path := dir ++ lit "/" ++ p_item in
      if negb (fs_stat new_path) then whereis_probe fs_stat malloc_ok rest p_item
      else if negb malloc_ok then ((-1)%Z, None)
      else (1%Z, Some (map Some new_path ++ [None]))
  end.

(** [priv_usch_cached_whereis]; [fs_stat path] tells whether
    [stat(path)] succeeds, [path_items] is the length of
    [pp_cached_path].  In the first branch [p_item_copy] is the zeroed
    block [calloc] returns: the source never copies the name into it.
    Were a ['/'] found there, the probing loop would [memcpy]
    [item_length] bytes from [p_item_copy + basename_index + 1], past
    the end of that block of [item_length] bytes: a fault. *)
Definition priv_usch_cached_whereis (fs_stat : cstr -> bool)
    (mem : alloc_oracle) (pp_cached_path : list cstr) (p_search_item : cstr)
  : run (Z * option (list (option ascii))) :=
  let item_length := length p_search_item in
  match p_search_item with
  | c :: _ =>
      if Ascii.eqb c "/" || Ascii.eqb c "."
      then
        if negb (mem 0) then Done ((-1)%Z, None)
        else if negb (mem 1) then Done ((-1)%Z, None)
        else
          let p_item_copy := replicate item_length NUL in
          let basename_index := last_slash p_item_copy in
          if (basename_index <? 0)%Z then Done ((-1)%Z, None)
          else Fault
      else Done (whereis_probe fs_stat (mem 0) pp_cached_path p_search_item)
  | [] => Done (whereis_probe fs_stat (mem 0) pp_cached_path p_search_item)
  end.

(** ** The process reaper: [priv_usch_waitforall] *)

(** The status macros of <sys/wait.h>, with the encoding Linux and
    glibc use for the [int] that [waitpid] fills in. *)
Definition WTERMSIG (status : Z) : Z := Z.land status 0x7f.
Definition WEXITSTATUS (status : Z) : Z := Z.shiftr (Z.land status 0xff00) 8.
Definition WIFEXITED (status : Z) : bool := (WTERMSIG status =? 0)%Z.

(** [((signed char) ((status & 0x7f) + 1) >> 1) > 0] *)
Definition WIFSIGNALED (status : Z) : bool :=
  let v := (Z.land status 0x7f + 1)%Z in
  let sc := if (128 <=? v)%Z then (v - 256)%Z else v in
  (0 <? Z.shiftr sc 1)%Z.

Definition WIFSTOPPED (status : Z) : bool := (Z.land status 0xff =? 0x7f)%Z.
Definition WIFCONTINUED (status : Z) : bool := (status =? 0xffff)%Z.

Definition EXIT_FAILURE : Z := 1.

(** What one call of [waitpid] delivers: [-1], or the pid together with
    a status word. *)
Inductive wait_ret : Type :=
| WaitFailed
| WaitReported (status : Z).

(** How a function that may end the host process comes back: it
    returns, it calls [exit], or it stays blocked in a system call. *)
Inductive exit_or (A : Type) : Type :=
| Returned (v : A)
| HostExit (code : Z)
| Blocked.
Arguments Returned {A} v.
Arguments HostExit {A} code.
Arguments Blocked {A}.

(** The [do ... while] loop over the successive results of [waitpid];
    when the list is used up the call never comes back. *)
Fixpoint waitforall_loop (reports : list wait_ret) : exit_or Z :=
  match reports with
  | [] => Blocked
  | WaitFailed :: _ => HostExit EXIT_FAILURE
  | WaitReported status :: rest =>
      let child_status :=
        if WIFEXITED status then WEXITSTATUS status
        else if WIFSIGNALED status then (-1)%Z
        else if WIFSTOPPED status then (-1)%Z
        else if WIFCONTINUED status then (-1)%Z
        else (-1)%Z in
      if negb (WIFEXITED status) && negb (WIFSIGNALED status)
      then waitforall_loop rest
      else Returned child_status
  end.

(** [priv_usch_waitforall]; [kernel pid] lists what the successive
    calls [waitpid(pid, &status, WUNTRACED | WCONTINUED)] deliver. *)
Definition priv_usch_waitforall (kernel : Z -> list wait_ret) (child_pid : Z)
  : exit_or Z :=
  waitforall_loop (kernel child_pid).

(** ** The pipeline executor: [priv_usch_cmd_arr] *)

(** The operating system as the calling process meets it. *)
Record os_model : Type := OsModel {
  os_home : option cstr;             (* getenv("HOME") *)
  os_pipe_read : nat -> Z;           (* read end of the n-th pipe() *)
  os_fork : nat -> Z;                (* what the n-th fork() returns *)
  os_child_out : nat -> list ascii;  (* bytes read from the n-th pipe *)
  os_calloc : nat -> bool;           (* the n-th capture buffer is granted *)
  os_wait : Z -> list wait_ret       (* results of waitpid per pid *)
}.

(** The system calls of the calling process that matter here.
    [EvSpawn] stands for [pipe(); fork()] and, in the child, the
    descriptor wiring chosen by [input], [first], [last] and the capture
    request, followed by [execvp(argv[0], argv)]. *)
Inductive event : Type :=
| EvChdir (dir : option cstr)
| EvSpawn (argv : list cstr) (input : Z) (first last capture : bool)
| EvWait (pid : Z).

(** The locals of [priv_usch_cmd_arr] its helpers update through
    pointers, and the system calls made so far. *)
Record exec_state : Type := ExecState {
  ex_input : Z;
  ex_child_pid : Z;
  ex_num_calls : nat;
  ex_out : option (list ascii);
  ex_events : list event
}.

(** [ustreq] *)
Definition ustreq (p_a p_b : option cstr) : bool :=
  match p_a, p_b with
  | Some a, Some b => strcmp_eq a b
  | _, _ => false
  end.

(** [*p == '|'] for a non-NULL string [p]. *)
Definition is_pipe_token (p : cstr) : bool :=
  match p with
  | c :: _ => Ascii.eqb c "|"
  | [] => false
  end.

(** The first [while] of [priv_usch_cmd_arr]: among the [argc] slots
    before the first NULL, those that start with ['|'] become NULL. *)
Definition pipe_rewrite (buf : list (option cstr)) (args : list cstr)
  : list (option cstr) :=
  map (fun a => if is_pipe_token a then None else Some a) args
  ++ drop (length args) buf.

(** A load [buf[i]]; outside the allocated buffer it is a fault. *)
Definition load {A : Type} (i : nat) (buf : list A) : run A :=
  match buf !! i with
  | Some x => Done x
  | None => Fault
  end.

Definition non_null {A : Type} (p : option A) : bool :=
  match p with
  | Some _ => true
  | None => false
  end.

(** [pp_argv[i]] for an index up to [argc], which is inside the array. *)
Definition slot (pp_argv : list (option cstr)) (i : nat) : option cstr :=
  match pp_argv !! i with
  | Some p => p
  | None => None
  end.

(** [&pp_argv[i]] read as a NULL-terminated argument vector. *)
Definition stage_at (pp_argv : list (option cstr)) (i : nat) : list cstr :=
  vec_prefix (drop i pp_argv).

(** The captured text once its final newline, if any, is cut off. *)
Definition strip_newline (out : list ascii) : list ascii :=
  match reverse out with
  | c :: rest => if Ascii.eqb c "010" then reverse rest else out
  | [] => out
  end.

(** [priv_usch_command] in the parent.  [os_calloc os n] stands for the
    capture buffer of the [n]-th call being granted, by [calloc] and by
    every [realloc] the length of the output asks for: when one of them
    fails the source leaves through [end] in the same way, storing
    neither the pid nor the block.  The result is the read end of the
    new pipe. *)
Definition priv_usch_command (os : os_model) (pp_argv : list cstr)
    (input : Z) (first last capture : bool) (st : exec_state)
  : Z * exec_state :=
  let n := ex_num_calls st - 1 in
  let ev := ex_events st ++ [EvSpawn pp_argv input first last capture] in
  if capture && last && negb (os_calloc os n)
  then (os_pipe_read os n,
        {| ex_input := ex_input st; ex_child_pid := ex_child_pid st;
           ex_num_calls := ex_num_calls st; ex_out := ex_out st;
           ex_events := ev |})
  else (os_pipe_read os n,
        {| ex_input := ex_input st; ex_child_pid := os_fork os n;
           ex_num_calls := ex_num_calls st;
           ex_out := if capture
                     then (if last then Some (strip_newline (os_child_out os n))
                           else None)
                     else ex_out st;
           ex_events := ev |}).

(** [priv_usch_run] *)
Definition priv_usch_run (os : os_model) (pp_argv : list cstr)
    (input : Z) (first last capture : bool) (st : exec_state)
  : Z * exec_state :=
  match pp_argv with
  | [] => (0%Z, st)
  | _ =>
      priv_usch_command os pp_argv input first last capture
        {| ex_input := ex_input st; ex_child_pid := ex_child_pid st;
           ex_num_calls := S (ex_num_calls st); ex_out := ex_out st;
           ex_events := ex_events st |}
  end.

(** The [while (i < argc)] loop over the stages; the result carries [i]
    and [first]. *)
Fixpoint pipeline_loop (fuel : nat) (os : os_model) (capture : bool)
    (pp_argv : list (option cstr)) (argc i : nat) (first : bool)
    (st : exec_state) : run (nat * bool * exec_state) :=
  if argc <=? i then Done (i, first, st)
  else
    match fuel with
    | O => OutOfFuel
    | S fuel' =>
        let last := forallb non_null (take (argc - i) (drop i pp_argv)) in
        let r := priv_usch_run os (stage_at pp_argv i) (ex_input st)
                   first last capture st in
        let st1 := {| ex_input := fst r; ex_child_pid := ex_child_pid (snd r);
                      ex_num_calls := ex_num_calls (snd r);
                      ex_out := ex_out (snd r);
                      ex_events := ex_events (snd r) |} in
        let i1 := Nat.min argc (i + length (stage_at pp_argv i)) in
        let i2 := if negb (non_null (slot pp_argv i1)) && negb (i1 =? argc)
                  then S i1 else i1 in
        pipeline_loop fuel' os capture pp_argv argc i2 false st1
    end.

(** What [priv_usch_cmd_arr] leaves behind: the returned status (or the
    end of the host process), the system calls made, and the text
    stored through [pp_out]. *)
Record cmd_result : Type := CmdResult {
  cmd_status : exit_or Z;
  cmd_events : list event;
  cmd_out : option (list ascii)
}.

(** [priv_usch_cmd_arr]; [capture] tells whether [pp_out] is non-NULL.
    Every iteration of the stage loop advances [i], so [argc]
    iterations are enough. *)
Definition priv_usch_cmd_arr (fs : matcher) (mem : alloc_oracle)
    (os : os_model) (capture : bool) (pp_orig_argv : list cstr)
  : run cmd_result :=
  run_bind (priv_usch_globexpand fs mem pp_orig_argv) (fun r =>
  match r with
  | None => Done {| cmd_status := Returned 0%Z; cmd_events := [];
                    cmd_out := None |}
  | Some (buf, _) =>
      run_bind (scan_vec buf) (fun args =>
      let argc := length args in
      let pp_argv := pipe_rewrite buf args in
      run_bind (load 0 pp_argv) (fun argv0 =>
      if ustreq argv0 (Some (lit "cd"))
      then
        run_bind (load 1 pp_argv) (fun argv1 =>
        Done {| cmd_status := Returned 0%Z;
                cmd_events := [EvChdir (match argv1 with
                                        | None => os_home os
                                        | Some dir => Some dir
                                        end)];
                cmd_out := None |})
      else
        let st0 := {| ex_input := 0; ex_child_pid := 0; ex_num_calls := 0;
                      ex_out := None; ex_events := [] |} in
        run_bind (pipeline_loop argc os capture pp_argv argc 0 true st0)
          (fun '(i, first, st) =>
          let st' := if negb (non_null (slot pp_argv i)) && negb capture
                     then snd (priv_usch_run os (stage_at pp_argv i)
                                 (ex_input st) first true capture st)
                     else st in
          Done {| cmd_status := priv_usch_waitforall (os_wait os)
                                  (ex_child_pid st');
                  cmd_events := ex_events st' ++ [EvWait (ex_child_pid st')];
                  cmd_out := ex_out st' |})))
  end).

(** ** Reference functions for the tokenizer proofs *)

(** The private copy once every delimiter [d] is overwritten. *)
Definition blank (d : ascii) (s : cstr) : list ascii :=
  map (fun c => if Ascii.eqb c d then NUL else c) s.

(** The offsets just behind each occurrence of [d] in [s], where [s]
    starts at offset [base]. *)
Fixpoint delim_offs (d : ascii) (s : cstr) (base : nat) : list nat :=
  match s with
  | [] => []
  | c :: s' =>
      if Ascii.eqb c d then S base :: delim_offs d s' (S base)
      else delim_offs d s' (S base)
  end.

(** Splitting at every [d], the textbook way. *)
Fixpoint split_fun (d : ascii) (s : cstr) : list cstr :=
  match s with
  | [] => [[]]
  | c :: s' =>
      if Ascii.eqb c d then [] :: split_fun d s'
      else match split_fun d s' with
           | p :: ps => (c :: p) :: ps
           | [] => [[c]]
           end
  end.

(** The variables of the second pass once the prefix [pre] of the input
    has been scanned and [suf] is still ahead, for a single delimiter
    [d] and a table of [N + 1] entries. *)
Definition scan_state (d : ascii) (N : nat) (pre suf : cstr) : split_state :=
  {| p_out := blank d pre ++ suf ++ [NUL];
     pp_out := map Some (0 :: delim_offs d pre 0)
               ++ replicate (N - length (delim_offs d pre 0)) None;
     out_pos := S (length (delim_offs d pre 0)) |}.

(** Split [text] at the delimiter byte [d], then hand the slots, with
    the one-byte string [d] between neighbours, to [ustrjoinv]; the
    string the final pointer denotes.  Both allocations succeed. *)
Definition split_then_join (p_ustash : option ustash) (h : heap)
    (text : cstr) (d : ascii) : option cstr :=
  match ustrsplit p_ustash h (Some text) (Some [d]) true with
  | (pp, p1, h1) =>
      match read_vec h1 pp with
      | Some slots =>
          match ustrjoinv p1 h1 (Some (interpose [d] slots)) true with
          | (q, _, h2) => read_str h2 q
          end
      | None => None
      end
  end.

(** ** Notions used to state the results *)

(** The directory the [cd] builtin hands to [chdir] for the expanded
    argument sequence [args]: the second token, unless there is none or
    it starts with ['|'], in which case it is the value of [HOME]. *)
Definition cd_target (os : os_model) (args : list cstr) : option cstr :=
  match args !! 1 with
  | Some dir => if is_pipe_token dir then os_home os else Some dir
  | None => os_home os
  end.

(** Does the name start with ['/'] or ['.']: the test that selects the
    first branch of [priv_usch_cached_whereis]. *)
Definition starts_rooted (name : cstr) : bool :=
  match name with
  | c :: _ => Ascii.eqb c "/" || Ascii.eqb c "."
  | [] => false
  end.

(** The block is on the list of the caller's arena. *)
Definition arena_owned (p_ustash : option ustash) (h : heap) (a : addr)
  : Prop :=
  exists s l, p_ustash = Some s /\ stash_chain h (p_list s) l /\ a ∈ l.

(** The pointer is the given sentinel or points into a block on the list
    of the caller's arena. *)
Definition sentinel_or_owned (sentinel p : pointer)
    (p_ustash : option ustash) (h : heap) : Prop :=
  p = sentinel \/ exists a, p = InBlock a /\ arena_owned p_ustash h a.

(** The caller's handle is absent or heads a chain of live blocks. *)
Definition arena_valid (p_ustash : option ustash) (h : heap) : Prop :=
  match p_ustash with
  | Some s => exists l, stash_chain h (p_list s) l
  | None => True
  end.

(** The [gl_pathv] of every argument, in argument order. *)
Definition expansions (fs : matcher) (argv : list cstr) : list (list cstr) :=
  map (fun arg => snd (glob fs arg usch_glob_flags)) argv.

(** The argument is not the separator and matching it does not fail. *)
Definition expandable (fs : matcher) (arg : cstr) : Prop :=
  strcmp_eq arg (lit "--") = false /\ fs usch_glob_flags arg <> MatchError.

(** ** Concrete inputs of the examples *)

(** A file system in which no pattern matches anything. *)
Definition fs_empty : matcher := fun _ _ => Matches [].

(** A file system in which [a*] matches four entries and nothing else
    matches. *)
Definition fs_four : matcher := fun _ pattern =>
  if strcmp_eq pattern (lit "a*")
  then Matches [lit "a1"; lit "a2"; lit "a3"; lit "a4"]
  else Matches [].

(** Every allocation succeeds. *)
Definition mem_ok : alloc_oracle := fun _ => true.

(** A process 101 that is stopped, continued, and then exits with 3. *)
Definition os_example : os_model :=
  {| os_home := Some (lit "/home/u");
     os_pipe_read := fun n => (3 + 2 * Z.of_nat n)%Z;
     os_fork := fun n => (100 + Z.of_nat n)%Z;
     os_child_out := fun _ => [];
     os_calloc := fun _ => true;
     os_wait := fun pid =>
       if (pid =? 101)%Z
       then [WaitReported 0x137f; WaitReported 0xffff; WaitReported 0x0300]
       else [WaitFailed] |}.

(** Every child prints [hi] and a newline, and process 100 exits
    with 0. *)
Definition os_capture : os_model :=
  {| os_home := None;
     os_pipe_read := fun n => (3 + 2 * Z.of_nat n)%Z;
     os_fork := fun n => (100 + Z.of_nat n)%Z;
     os_child_out := fun _ => lit "hi" ++ ["010"%char];
     os_calloc := fun _ => true;
     os_wait := fun pid =>
       if (pid =? 100)%Z then [WaitReported 0] else [WaitFailed] |}.

(** Every child prints [1] and a newline and exits with 0. *)
Definition os_pipeline : os_model :=
  {| os_home := None;
     os_pipe_read := fun n => (3 + 2 * Z.of_nat n)%Z;
     os_fork := fun n => (100 + Z.of_nat n)%Z;
     os_child_out := fun _ => lit "1" ++ ["010"%char];
     os_calloc := fun _ => true;
     os_wait := fun _ => [WaitReported 0] |}.

(** A file system whose only entry is [/usr/bin/ls]. *)
Definition stat_usr_bin_ls : cstr -> bool :=
  fun path => strcmp_eq path (lit "/usr/bin/ls").

(** ** String tests: [ustrneq] *)

(** [ustrneq]: both strings must hold at least [len] bytes, and the
    loop clears the flag at every index where they differ. *)
Definition ustrneq (p_a p_b : option cstr) (len : nat) : bool :=
  match p_a, p_b with
  | Some a, Some b =>
      if len =? 0 then false
      else if (length a <? len) || (length b <? len) then false
      else foldl (fun equal i =>
                    if negb (Ascii.eqb (nth i a NUL) (nth i b NUL))
                    then false else equal)
             true (seq 0 len)
  | _, _ => false
  end.

(** ** The variadic front ends *)

(** The loop the four [priv_..._impl] functions share: every slot takes
    the value of its right neighbour and the last slot becomes NULL.
    [num] is the length of the array; the macros never pass 0. *)
Definition shift_args (pp_args : list (option cstr))
  : run (list (option cstr)) :=
  match length pp_args with
  | O => Fault
  | S m =>
      Done (<[m := None]>
              (foldl (fun args i => <[i := slot args (S i)]> args)
                 pp_args (seq 0 m)))
  end.

(** [priv_ustrjoin_impl] *)
Definition priv_ustrjoin_impl (p_stash : option ustash) (h : heap)
    (pp_args : list (option cstr)) (calloc_ok : bool)
  : run (pointer * option ustash * heap) :=
  run_bind (shift_args pp_args) (fun args =>
  Done (ustrjoinv p_stash h (Some (vec_prefix args)) calloc_ok)).

(** [priv_ustrexp_impl] *)
Definition priv_ustrexp_impl (fs : matcher) (mem : alloc_oracle)
    (calloc_ok : bool) (p_stash : option ustash) (h : heap)
    (pp_args : list (option cstr))
  : run (pointer * option ustash * heap) :=
  run_bind (shift_args pp_args) (fun args =>
  ustrexpv fs mem calloc_ok p_stash h (Some (vec_prefix args))).

(** The first [n] slots of an array as strings; a NULL among them is
    handed to [strcmp] by [priv_usch_globexpand]: a fault. *)
Fixpoint strings_of (args : list (option cstr)) : run (list cstr) :=
  match args with
  | [] => Done []
  | None :: _ => Fault
  | Some x :: rest => run_bind (strings_of rest) (fun l => Done (x :: l))
  end.

(** [priv_ucmd_impl] *)
Definition priv_ucmd_impl (fs : matcher) (mem : alloc_oracle) (os : os_model)
    (pp_args : list (option cstr)) : run cmd_result :=
  run_bind (shift_args pp_args) (fun args =>
  run_bind (strings_of (take (length pp_args - 1) args)) (fun argv =>
  priv_usch_cmd_arr fs mem os false argv)).

(** [priv_ustrout_impl].  The capture block [p_out] that
    [priv_usch_command] allocated is a block of the heap, its [str]
    holding the captured text and the terminator.  What
    [priv_usch_stash] returns only decides about a message on stderr.
    [p_out->str] with [p_out] still NULL is a member access through a
    NULL pointer: a fault.  When [priv_usch_waitforall] ends the host
    process or stays blocked, so does this function. *)
Definition priv_ustrout_impl (fs : matcher) (mem : alloc_oracle)
    (os : os_model) (p_ustash : option ustash) (h : heap)
    (pp_args : list (option cstr))
  : run (exit_or (pointer * option ustash * heap) * list event) :=
  run_bind (shift_args pp_args) (fun args =>
  run_bind (strings_of (take (length pp_args - 1) args)) (fun argv =>
  run_bind (priv_usch_cmd_arr fs mem os true argv) (fun r =>
  match cmd_status r with
  | HostExit code => Done (HostExit code, cmd_events r)
  | Blocked => Done (Blocked, cmd_events r)
  | Returned _ =>
      match cmd_out r with
      | None => Fault
      | Some text =>
          let a := calloc_addr h in
          let h1 := <[a := {| p_next := None; error := 0; str_vec := [];
                              str_bytes := text ++ [NUL] |}]> h in
          match priv_usch_stash p_ustash (Some a) h1 with
          | (_, p', h2) => Done (Returned (InBlock a, p', h2), cmd_events r)
          end
      end
  end))).

(** ** Whole-string helpers: [udirname] and [ustrtrim] *)

(** The static strings of the two helpers. *)
Inductive helper_static : Type := dir_emptystr | dir_dotstr | trim_emptystr.

(** What the helpers return: one of their static strings or the [str]
    member of the stash item at address [a]. *)
Inductive helper_pointer : Type :=
| HStatic (obj : helper_static)
| HBlock (a : addr).

(** The string a helper's result denotes in heap [h]. *)
Definition read_helper (h : heap) (p : helper_pointer) : option cstr :=
  match p with
  | HStatic dir_dotstr => Some (lit ".")
  | HStatic _ => Some []
  | HBlock a =>
      match h !! a with
      | Some it => Some (cstr_at (str_bytes it) 0)
      | None => None
      end
  end.

(** The tail the helpers share: push the filled block; [free_on_failure]
    tells whether the block is freed when the push fails. *)
Definition helper_push (fallback : helper_static) (free_on_failure : bool)
    (p_ustash : option ustash) (h : heap) (bytes : list ascii)
  : helper_pointer * option ustash * heap :=
  let a := calloc_addr h in
  let h1 := <[a := {| p_next := None; error := 0;
                      str_vec := []; str_bytes := bytes |}]> h in
  match priv_usch_stash p_ustash (Some a) h1 with
  | (status, p', h2) =>
      if (status =? 0)%Z then (HBlock a, p', h2)
      else (HStatic fallback, p', if free_on_failure then delete a h2 else h2)
  end.

(** [udirname].  The helpers ask [calloc] for the string bytes plus
    [sizeof(struct priv_usch_stash_item)]; since [str] starts inside the
    struct, the block has [slack = sizeof(struct priv_usch_stash_item) -
    offsetof(struct priv_usch_stash_item, str)] bytes behind the bytes
    asked for (7 with 8-byte pointers, 3 with 4-byte pointers).  The
    allocation is not checked: when it fails the first store goes
    through NULL. *)
Definition udirname (slack : nat) (calloc_ok : bool)
    (p_ustash : option ustash) (h : heap) (p_str : option cstr)
  : run (helper_pointer * option ustash * heap) :=
  match p_str with
  | None => Done (HStatic dir_emptystr, p_ustash, h)
  | Some [] => Done (HStatic dir_emptystr, p_ustash, h)
  | Some s =>
      let ls := last_slash s in
      if (ls =? 0)%Z then
        if negb calloc_ok then Fault
        else
          run_bind (store 0 "/"%char (replicate (2 + slack) NUL)) (fun b0 =>
          run_bind (store 1 NUL b0) (fun bytes =>
          Done (helper_push dir_emptystr true p_ustash h bytes)))
      else if (0 <? ls)%Z then
        if negb calloc_ok then Fault
        else
          let n := Z.to_nat ls in
          let b0 := list_inserts 0 (take n s) (replicate (n + slack) NUL) in
          run_bind (store n NUL b0) (fun bytes =>
          Done (helper_push dir_emptystr true p_ustash h bytes))
      else Done (HStatic dir_dotstr, p_ustash, h)
  end.

(** The first loop of [ustrtrim]: the number of leading spaces. *)
Fixpoint leading_spaces (s : cstr) : nat :=
  match s with
  | c :: s' => if Ascii.eqb c " " then S (leading_spaces s') else 0
  | [] => 0
  end.

(** [while (p_str[i] == ' ' && i > start) i--;] *)
Fixpoint trim_back (s : cstr) (start i : nat) : nat :=
  match i with
  | O => O
  | S i' =>
      if Ascii.eqb (nth (S i') s NUL) " " && (start <? S i')
      then trim_back s start i'
      else S i'
  end.

(** [ustrtrim].  On the empty string [i] starts at [-1] and [p_str[-1]]
    is read.  Otherwise [end] is at least [start], so [end - start] is
    the number of bytes copied; the terminator is stored at index
    [end], not at [end - start]. *)
Definition ustrtrim (slack : nat) (calloc_ok : bool)
    (p_ustash : option ustash) (h : heap) (p_str : option cstr)
  : run (helper_pointer * option ustash * heap) :=
  match p_str with
  | None => Done (HStatic trim_emptystr, p_ustash, h)
  | Some s =>
      let start := leading_spaces s in
      match length s with
      | O => Fault
      | S m =>
          let i := trim_back s start m in
          let end_ := S i in
          let n := end_ - start in
          if negb calloc_ok then Fault
          else
            let b0 := list_inserts 0 (take n (drop start s))
                        (replicate (n + 1 + slack) NUL) in
            run_bind (store end_ NUL b0) (fun bytes =>
            Done (helper_push trim_emptystr false p_ustash h bytes))
      end
  end.

(** ** Files: [ufiletostrv] and [ustrvtofile] *)

(** What [ufiletostrv] returns: its static one-slot vector [p_strv], or
    the table [pp_strv] over the copy [p_str] of the file, both from
    [malloc] and neither put on the arena.  A table entry is an offset
    into [p_str].  [bytes] are the [len] bytes read from the file; the
    byte behind them is allocated and never written. *)
Inductive file_vec : Type :=
| FvStatic
| FvBlocks (table : list (option nat)) (bytes : list ascii).

(** The strings a caller reads off such a result. *)
Definition read_file_vec (r : file_vec) : list cstr :=
  match r with
  | FvStatic => []
  | FvBlocks table bytes => map (cstr_at bytes) (vec_prefix table)
  end.

(** The body of the first pass at indices [i], [j] with [d = p_delims[j]]:
    [if (p_str[i] == d) { p_str[i] = 0; num_delims++; }] *)
Definition blank_inner (i : nat) (st : list ascii * nat) (d : ascii)
  : list ascii * nat :=
  match fst st !! i with
  | Some c =>
      if Ascii.eqb c d then (<[i := NUL]> (fst st), S (snd st)) else st
  | None => st
  end.

Definition blank_pass (len : nat) (p_delims : cstr) (st : list ascii * nat)
  : list ascii * nat :=
  foldl (fun st i => foldl (blank_inner i) st p_delims) st (seq 0 len).

(** The body of the second pass:
    [if (p_str[i] == 0 && i + 1 != len) pp_strv[vpos++] = &p_str[i+1];]
    on the table and [vpos]. *)
Definition fill_step (p_str : list ascii) (len : nat)
    (acc : run (list (option nat) * nat)) (i : nat)
  : run (list (option nat) * nat) :=
  run_bind acc (fun st =>
  run_bind (load i p_str) (fun c =>
  if Ascii.eqb c NUL && negb (i + 1 =? len)
  then run_bind (store (snd st) (Some (i + 1)) (fst st))
         (fun vec => Done (vec, S (snd st)))
  else Done st)).

(** [ufiletostrv].  [fs_read name] is the content of the file when
    [stat], [fopen] and [fread] all succeed, [malloc_str] and
    [malloc_vec] tell whether the two [malloc] calls do.  The slots of
    the fresh table are indeterminate; they stand as [None] here, and
    every slot up to the terminator is stored before the function
    returns. *)
Definition ufiletostrv (fs_read : cstr -> option (list ascii))
    (malloc_str malloc_vec : bool) (p_ustash : option ustash)
    (p_filename p_delims : option cstr) : run file_vec :=
  match p_filename, p_ustash, p_delims with
  | Some name, Some _, Some delims =>
      match fs_read name with
      | None => Done FvStatic
      | Some content =>
          if negb malloc_str then Done FvStatic
          else
            let len := length content in
            let blanked := blank_pass len delims (content, 0) in
            let p_str := fst blanked in
            let num_delims := snd blanked in
            if negb malloc_vec then Done FvStatic
            else
              run_bind (store 0 (Some 0) (replicate (num_delims + 1) None))
                (fun vec0 =>
              run_bind (foldl (fill_step p_str len) (Done (vec0, 1))
                          (seq 0 len)) (fun st =>
              run_bind (store (snd st) None (fst st)) (fun vec =>
              Done (FvBlocks vec p_str))))
      end
  | _, _, _ => Done FvStatic
  end.

(** The [while (pp_strv[i] != NULL)] loop of [ustrvtofile].
    [fwrite k n] is the number of bytes the [k]-th call of [fwrite]
    accepts out of [n]; [file] is what the stream has accepted so far,
    which the stream buffers and need not have written yet. *)
Fixpoint write_loop (fwrite : nat -> nat -> nat) (k : nat) (p_delim : cstr)
    (strv : list cstr) (file : list ascii) : Z * list ascii :=
  match strv with
  | [] => (0%Z, file)
  | str :: rest =>
      let bytes_written := fwrite k (length str) in
      let file1 := file ++ take bytes_written str in
      if negb (length str =? bytes_written) then ((-1)%Z, file1)
      else
        let delim_written := fwrite (S k) (length p_delim) in
        let file2 := file1 ++ take delim_written p_delim in
        if negb (length p_delim =? delim_written) then ((-1)%Z, file2)
        else write_loop fwrite (S (S k)) p_delim rest file2
  end.

(** [ustrvtofile]: the returned value and what the named file holds
    afterwards, [None] when the call has not touched it.  The stream
    is buffered: the bytes it has accepted reach the file when the
    buffer is flushed, at the latest in [fclose], and a flush can fail.
    [stored accepted] is what the file holds once [fclose] is over when
    the stream has accepted [accepted].  The result of [fclose] is not
    looked at, so the returned value comes from the [fwrite] counts
    alone. *)
Definition ustrvtofile (fopen_ok : bool) (fwrite : nat -> nat -> nat)
    (stored : list ascii -> list ascii)
    (pp_strv : option (list cstr)) (p_filename p_delim : option cstr)
  : Z * option (list ascii) :=
  match pp_strv, p_filename, p_delim with
  | Some strv, Some _, Some delim =>
      if negb fopen_ok then ((-1)%Z, None)
      else
        let r := write_loop fwrite 0 delim strv [] in
        (fst r, Some (stored (snd r)))
  | _, _, _ => ((-1)%Z, None)
  end.

(** ** The child side of [priv_usch_command] *)

(** What the child does to its standard descriptors before [execvp]:
    the descriptor it puts on stdin with [dup2] ([None] when stdin is
    left as inherited from the caller), and whether it puts the write
    end of the pipe of its own stage on stdout. *)
Record child_fds : Type := ChildFds {
  child_stdin : option Z;
  child_stdout_piped : bool
}.

(** The [if (pid == 0)] block of [priv_usch_command]; [capture] tells
    whether [pp_out] is non-NULL. *)
Definition child_wiring (input : Z) (first last capture : bool) : child_fds :=
  if first && negb last && (input =? 0)%Z
  then {| child_stdin := None; child_stdout_piped := true |}
  else if negb first && negb last && negb (input =? 0)%Z
  then {| child_stdin := Some input; child_stdout_piped := true |}
  else if capture
  then {| child_stdin := None; child_stdout_piped := true |}
  else {| child_stdin := Some input; child_stdout_piped := false |}.

(** The wiring of the children of a run, in spawn order. *)
Definition wirings (evs : list event) : list child_fds :=
  omap (fun e => match e with
                 | EvSpawn _ input first last capture =>
                     Some (child_wiring input first last capture)
                 | _ => None
                 end) evs.

(** ** Notions for pipelines *)

(** The argument sequence of a pipeline: a first stage and, for every
    further stage, the separator token in front of it. *)
Fixpoint pipeline_args (first : list cstr) (more : list (cstr * list cstr))
  : list cstr :=
  match more with
  | [] => first
  | (sep, stage) :: more' => first ++ sep :: pipeline_args stage more'
  end.

(** The stages laid out in the argument array, a NULL between
    neighbours. *)
Fixpoint seg_flat (stages : list (list cstr)) : list (option cstr) :=
  match stages with
  | [] => []
  | s :: rest =>
      match rest with
      | [] => map Some s
      | _ :: _ => map Some s ++ None :: seg_flat rest
      end
  end.

(** One spawn per stage, in order: the stage's own arguments, the read
    end of the pipe of the stage before it ([input] for the first of
    them), and the marks for the first and the last stage.  [k] counts
    the spawns made before. *)
Fixpoint spawn_events (os : os_model) (capture : bool) (k : nat) (input : Z)
    (first : bool) (stages : list (list cstr)) : list event :=
  match stages with
  | [] => []
  | s :: rest =>
      EvSpawn s input first (match rest with [] => true | _ => false end)
        capture
      :: spawn_events os capture (S k) (os_pipe_read os k) false rest
  end.

(** A stage and the separator in front of it are well formed. *)
Definition stage_ok (entry : cstr * list cstr) : Prop :=
  is_pipe_token (fst entry) = true /\ snd entry <> []
  /\ Forall (fun a => is_pipe_token a = false) (snd entry).

(** ** Reference functions for delimiter sets *)

(** Is the byte one of the delimiters? *)
Definition is_delim (ds : cstr) (c : ascii) : bool := existsb (Ascii.eqb c) ds.

(** The private copy once every byte of the set [ds] is overwritten. *)
Definition blank_set (ds : cstr) (s : cstr) : list ascii :=
  map (fun c => if is_delim ds c then NUL else c) s.

(** The offsets just behind each delimiter byte of [s], where [s]
    starts at offset [base]. *)
Fixpoint delim_offs_set (ds : cstr) (s : cstr) (base : nat) : list nat :=
  match s with
  | [] => []
  | c :: s' =>
      if is_delim ds c then S base :: delim_offs_set ds s' (S base)
      else delim_offs_set ds s' (S base)
  end.

(** Splitting at every byte of the set [ds], the textbook way: the
    pieces between consecutive delimiter bytes, empty pieces included. *)
Fixpoint split_at (ds : cstr) (s : cstr) : list cstr :=
  match s with
  | [] => [[]]
  | c :: s' =>
      if is_delim ds c then [] :: split_at ds s'
      else match split_at ds s' with
           | p :: ps => (c :: p) :: ps
           | [] => [[c]]
           end
  end.

(** The variables of the second pass of [ustrsplit] once the prefix
    [pre] has been scanned, for a delimiter set [ds] and a table of
    [N + 1] entries. *)
Definition scan_state_set (ds : cstr) (N : nat) (pre suf : cstr)
  : split_state :=
  {| p_out := blank_set ds pre ++ suf ++ [NUL];
     pp_out := map Some (0 :: delim_offs_set ds pre 0)
               ++ replicate (N - length (delim_offs_set ds pre 0)) None;
     out_pos := S (length (delim_offs_set ds pre 0)) |}.

(** The table and [vpos] of the second pass of [ufiletostrv] once the
    prefix [pre] has been scanned, for a table of [N + 1] entries. *)
Definition fill_state (ds : cstr) (N : nat) (pre : cstr)
  : list (option nat) * nat :=
  (map Some (0 :: delim_offs_set ds pre 0)
   ++ replicate (N - length (delim_offs_set ds pre 0)) None,
   S (length (delim_offs_set ds pre 0))).

(** The strings written one after the other, each followed by [d]. *)
Definition written (d : cstr) (strv : list cstr) : list ascii :=
  concat (map (fun x => x ++ d) strv).

(** ** Reference functions for the blob of [ustrexpv] *)

(** The strings laid out back to back, each closed by a NUL. *)
Definition packed (strs : list cstr) : list ascii :=
  concat (map (fun x => x ++ [NUL]) strs).

(** Where each string starts in that layout, the first one at [base]. *)
Fixpoint packed_offsets (strs : list cstr) (base : nat) : list nat :=
  match strs with
  | [] => []
  | x :: rest => base :: packed_offsets rest (base + (length x + 1))
  end.

(* ===================================================================== *)
(** * Part II: theorems                                                  *)
(* ===================================================================== *)

Section StashFacts.
Implicit Types (h : heap) (l : list addr) (a : addr).

Lemma stash_chain_functional h p l1 l2 :
  stash_chain h p l1 -> stash_chain h p l2 -> l1 = l2.
Proof.
  intros H1. revert l2.
  induction H1 as [|a it l Ha _ IH]; intros l2 H2; inversion H2; subst.
  - reflexivity.
  - f_equal. apply IH. congruence.
Qed.

Lemma stash_chain_from_member h p l a :
  stash_chain h p l -> a ∈ l ->
  exists l1 l2, l = l1 ++ a :: l2 /\ stash_chain h (Some a) (a :: l2).
Proof.
  induction 1 as [|b it l Hb Hl IH]; intros Hin.
  - inversion Hin.
  - destruct (decide (a = b)) as [->|Hne].
    + exists [], l. split; [reflexivity|]. econstructor; eauto.
    + apply elem_of_cons in Hin as [?|Hin]; [congruence|].
      destruct (IH Hin) as (l1 & l2 & -> & Hc).
      exists (b :: l1), l2. split; [reflexivity|exact Hc].
Qed.

Lemma stash_chain_NoDup h p l : stash_chain h p l -> NoDup l.
Proof.
  induction 1 as [|a it l Ha Hl IH]; constructor; [|exact IH].
  intros Hin.
  destruct (stash_chain_from_member _ _ _ _ Hl Hin) as (l1 & l2 & E & Hc).
  assert (Hc' : stash_chain h (Some a) (a :: l)) by (econstructor; eauto).
  pose proof (stash_chain_functional _ _ _ _ Hc Hc') as E'.
  injection E' as E'. subst l2.
  apply (f_equal length) in E. rewrite length_app in E. simpl in E. lia.
Qed.

Lemma stash_chain_delete h p l a :
  stash_chain h p l -> a ∉ l -> stash_chain (delete a h) p l.
Proof.
  induction 1 as [|b it l Hb Hl IH]; intros Hni.
  - constructor.
  - apply not_elem_of_cons in Hni as [Hne Hni].
    econstructor; [|apply IH; exact Hni].
    rewrite lookup_delete_ne; [exact Hb|congruence].
Qed.

Lemma stash_chain_size h p l : stash_chain h p l -> length l <= size h.
Proof.
  intros Hc. pose proof (stash_chain_NoDup _ _ _ Hc) as Hnd.
  revert Hnd. induction Hc as [|a it l Ha Hl IH] in |- *; intros Hnd.
  - simpl. lia.
  - inversion Hnd as [|? ? Hni Hnd']; subst.
    assert (Hsub : list_to_set (C := gset addr) (a :: l) ⊆ dom h).
    { clear -Ha Hl. intros x Hx. apply elem_of_list_to_set in Hx.
      apply elem_of_dom.
      assert (Hc : stash_chain h (Some a) (a :: l)) by (econstructor; eauto).
      destruct (stash_chain_from_member _ _ _ _ Hc Hx) as (? & ? & _ & Hx').
      inversion Hx'; subst. eauto. }
    apply subseteq_size in Hsub.
    rewrite size_list_to_set in Hsub by exact Hnd.
    rewrite size_dom in Hsub. exact Hsub.
Qed.

Lemma uclear_walk_chain l : forall h p fuel,
  stash_chain h p l -> length l < fuel ->
  uclear_walk fuel p h = Done (release l h).
Proof.
  induction l as [|a l IH]; intros h p fuel Hc Hf.
  - inversion Hc; subst. destruct fuel; reflexivity.
  - pose proof (stash_chain_NoDup _ _ _ Hc) as Hnd.
    inversion Hnd as [|? ? Hni _]; subst.
    inversion Hc as [|? it ? Ha Hl]; subst.
    destruct fuel as [|fuel]; [simpl in Hf; lia|].
    simpl in *. rewrite Ha. apply IH; [|lia].
    apply stash_chain_delete; assumption.
Qed.

Lemma lookup_release l : forall h a,
  release l h !! a = if decide (a ∈ l) then None else h !! a.
Proof.
  induction l as [|b l IH]; intros h a; simpl.
  - destruct (decide (a ∈ [])) as [H|_]; [inversion H|reflexivity].
  - rewrite IH. destruct (decide (a ∈ l)) as [Hin|Hni].
    + rewrite decide_True by (right; exact Hin). reflexivity.
    + destruct (decide (a = b)) as [->|Hne].
      * rewrite lookup_delete_eq, decide_True by left. reflexivity.
      * rewrite lookup_delete_ne by congruence.
        rewrite decide_False; [reflexivity|].
        intros [?|?]%elem_of_cons; [congruence|contradiction].
Qed.

Lemma uclear_chain h s l :
  stash_chain h (p_list s) l ->
  uclear (Some s) h = Done (Some {| p_list := None |}, release l h).
Proof.
  intros Hc. unfold uclear. destruct s as [[a|]]; cbn [p_list] in *.
  - rewrite (uclear_walk_chain l h (Some a) (S (size h)) Hc).
    + reflexivity.
    + pose proof (stash_chain_size _ _ _ Hc). lia.
  - inversion Hc; subst. reflexivity.
Qed.

(** The bound [uclear] gives its walk is never used up, whatever the
    heap looks like: the walk ends or hits a released block. *)
Lemma uclear_walk_fuel fuel : forall h p,
  size h < fuel -> uclear_walk fuel p h <> OutOfFuel.
Proof.
  induction fuel as [|fuel IH]; intros h p Hsz; [lia|].
  destruct p as [a|]; cbn [uclear_walk]; [|discriminate].
  destruct (h !! a) as [it|] eqn:Ha; [|discriminate].
  apply IH. rewrite (map_size_delete_Some a h) by eauto.
  assert (Hpos : size h <> 0).
  { intros Hz. apply map_size_empty_inv in Hz. subst h.
    rewrite lookup_empty in Ha. discriminate. }
  destruct (size h); [congruence|]. cbn [pred]. lia.
Qed.

Lemma uclear_total (p_ustash : option ustash) h :
  uclear p_ustash h <> OutOfFuel.
Proof.
  unfold uclear. destruct p_ustash as [[[a|]]|]; cbn [p_list]; try discriminate.
  pose proof (uclear_walk_fuel (S (size h)) h (Some a)) as H.
  destruct (uclear_walk (S (size h)) (Some a) h); cbn [run_bind];
    try discriminate.
  exfalso. apply H; [lia|reflexivity].
Qed.

(** C8: on every arena (a handle whose list is a chain of live
    blocks, possibly none), one call of [uclear] releases the blocks
    and leaves the list empty, and any number of consecutive calls
    each return normally and leave the very same empty arena. *)
Theorem uclear_idempotent_total h s l n :
  stash_chain h (p_list s) l ->
  uclear_times (S n) (Some s) h
  = Done (Some {| p_list := None |}, release l h).
Proof.
  intros Hc. cbn [uclear_times]. rewrite (uclear_chain _ _ _ Hc).
  cbn [run_bind]. generalize (release l h) as h'. intros h'.
  induction n as [|n IH]; [reflexivity|].
  cbn [uclear_times uclear p_list run_bind]. exact IH.
Qed.

Lemma uclear_idempotent_total_witness :
  let it1 := {| p_next := None; error := 0; str_vec := [];
                str_bytes := [NUL] |} in
  let it2 := {| p_next := Some 1%positive; error := 0; str_vec := [];
                str_bytes := [NUL] |} in
  let h : heap := <[2%positive := it2]> (<[1%positive := it1]> ∅) in
  stash_chain h (Some 2%positive) [2%positive; 1%positive] /\
  uclear_times 3 (Some {| p_list := Some 2%positive |}) h
  = Done (Some {| p_list := None |},
          release [2%positive; 1%positive] h).
Proof.
  intros it1 it2 h.
  assert (Hc : stash_chain h (Some 2%positive) [2%positive; 1%positive]).
  { apply (chain_cons h 2%positive it2); [reflexivity|].
    apply (chain_cons h 1%positive it1); [reflexivity|].
    apply chain_nil. }
  split; [exact Hc|].
  exact (uclear_idempotent_total h {| p_list := Some 2%positive |}
           [2%positive; 1%positive] 2 Hc).
Defined.

(** C10: [uclear(NULL)] returns at once; neither the (absent) handle
    nor the heap is touched. *)
Theorem uclear_null_noop h : uclear None h = Done (None, h).
Proof. reflexivity. Qed.

End StashFacts.

Section TokenizerFacts.
Implicit Types (s pre suf : cstr) (d c : ascii).

Lemma delim_offs_app d pre suf base :
  delim_offs d (pre ++ suf) base
  = delim_offs d pre base ++ delim_offs d suf (base + length pre).
Proof.
  revert base. induction pre as [|c pre IH]; intros base; simpl.
  - f_equal. lia.
  - rewrite IH. replace (S base + length pre) with (base + S (length pre)) by lia.
    destruct (Ascii.eqb c d); reflexivity.
Qed.

Lemma delim_offs_length d s b1 b2 :
  length (delim_offs d s b1) = length (delim_offs d s b2).
Proof.
  revert b1 b2. induction s as [|c s IH]; intros b1 b2; simpl; [reflexivity|].
  destruct (Ascii.eqb c d); simpl; auto.
Qed.

Lemma count_slots_fold d s : forall n b,
  foldl (count_matches [d]) n s = n + length (delim_offs d s b).
Proof.
  induction s as [|c s IH]; intros n b; cbn [foldl delim_offs length]; [lia|].
  rewrite (IH _ (S b)). unfold count_matches. cbn [foldl].
  destruct (Ascii.eqb c d); cbn [length]; lia.
Qed.

Lemma count_slots_single d s :
  count_slots s [d] = S (length (delim_offs d s 0)).
Proof. unfold count_slots. rewrite (count_slots_fold d s 1 0). reflexivity. Qed.

Lemma blank_length d s : length (blank d s) = length s.
Proof. unfold blank. apply length_map. Qed.

Lemma blank_app d pre suf : blank d (pre ++ suf) = blank d pre ++ blank d suf.
Proof. unfold blank. apply map_app. Qed.

Lemma delim_offs_snoc d pre c :
  delim_offs d (pre ++ [c]) 0
  = delim_offs d pre 0 ++ (if Ascii.eqb c d then [S (length pre)] else []).
Proof. rewrite delim_offs_app. simpl. destruct (Ascii.eqb c d); reflexivity. Qed.

Lemma blank_snoc d pre c :
  blank d (pre ++ [c]) = blank d pre ++ [if Ascii.eqb c d then NUL else c].
Proof. rewrite blank_app. reflexivity. Qed.

(** One iteration of the outer loop of the second pass. *)
Lemma split_step_single d N pre c suf :
  length (delim_offs d (pre ++ [c]) 0) < N ->
  split_step [d] (scan_state d N pre (c :: suf)) (length pre)
  = scan_state d N (pre ++ [c]) suf.
Proof.
  intros HN. rewrite delim_offs_snoc in HN.
  unfold split_step, scan_state. cbn [foldl]. unfold split_inner.
  cbn [p_out pp_out out_pos].
  change ((c :: suf) ++ [NUL]) with (c :: (suf ++ [NUL])).
  rewrite (list_lookup_middle (blank d pre) (suf ++ [NUL]) c (length pre))
    by (symmetry; apply blank_length).
  rewrite delim_offs_snoc, blank_snoc.
  destruct (Ascii.eqb c d) eqn:Ecd.
  - rewrite length_app in HN |- *. cbn [length] in HN |- *. f_equal.
    + rewrite <- (blank_length d pre) at 1.
      replace (length (blank d pre)) with (length (blank d pre) + 0) by lia.
      rewrite (insert_app_r (blank d pre) (c :: suf ++ [NUL]) 0 NUL).
      cbn [insert list_insert]. rewrite <- app_assoc. reflexivity.
    + set (offs := delim_offs d pre 0) in *.
      replace (N - length offs) with (S (N - (length offs + 1))) by lia.
      cbn [replicate].
      replace (S (length offs))
        with (length (map Some (0 :: offs)) + 0)
        by (rewrite length_map; cbn [length]; lia).
      rewrite insert_app_r. cbn [insert list_insert].
      rewrite !map_cons, map_app. cbn [map app].
      rewrite <- app_assoc. reflexivity.
    + lia.
  - rewrite !app_nil_r. rewrite <- app_assoc. reflexivity.
Qed.

(** The second pass, started after the prefix [pre] has been scanned. *)
Lemma split_scan_from d N : forall suf pre,
  length (delim_offs d (pre ++ suf) 0) < N ->
  foldl (split_step [d]) (scan_state d N pre suf)
    (seq (length pre) (length suf))
  = scan_state d N (pre ++ suf) [].
Proof.
  induction suf as [|c suf IH]; intros pre HN.
  - rewrite app_nil_r. reflexivity.
  - assert (E : pre ++ c :: suf = (pre ++ [c]) ++ suf)
      by (rewrite <- app_assoc; reflexivity).
    rewrite E in HN |- *. cbn [length seq foldl].
    rewrite split_step_single.
    + specialize (IH (pre ++ [c]) HN). rewrite length_app in IH.
      cbn [length] in IH.
      replace (length pre + 1) with (S (length pre)) in IH by lia.
      exact IH.
    + rewrite delim_offs_app in HN. rewrite length_app in HN. lia.
Qed.

Lemma split_scan_single d s :
  split_scan (length s) [d]
    {| p_out := s ++ [NUL];
       pp_out := <[0 := Some 0]> (replicate (count_slots s [d] + 1) None);
       out_pos := 1 |}
  = {| p_out := blank d s ++ [NUL];
       pp_out := map Some (0 :: delim_offs d s 0) ++ [None];
       out_pos := S (length (delim_offs d s 0)) |}.
Proof.
  unfold split_scan. rewrite count_slots_single.
  pose proof (split_scan_from d (S (length (delim_offs d s 0))) s []) as H.
  unfold scan_state in H.
  cbn [app length delim_offs blank map] in H.
  replace (S (length (delim_offs d s 0)) - 0)
    with (S (length (delim_offs d s 0))) in H by lia.
  replace (S (length (delim_offs d s 0)) - length (delim_offs d s 0))
    with 1 in H by lia.
  replace (S (length (delim_offs d s 0)) + 1)
    with (S (S (length (delim_offs d s 0)))) by lia.
  cbn [replicate insert list_insert]. cbn [replicate] in H.
  apply H. lia.
Qed.

Lemma count_matches_mono (delims : cstr) c : forall n,
  n <= count_matches delims n c.
Proof.
  unfold count_matches. induction delims as [|d ds IH]; intros n;
    cbn [foldl]; [lia|].
  destruct (Ascii.eqb c d); [specialize (IH (S n)); lia|apply IH].
Qed.

(** Once [p_out[i]] is overwritten, no further delimiter matches it. *)
Lemma split_inner_blanked i (ds : cstr) : forall st,
  NUL ∉ ds -> p_out st !! i = Some NUL -> foldl (split_inner i) st ds = st.
Proof.
  induction ds as [|d ds IH]; intros st Hn Hp; [reflexivity|].
  apply not_elem_of_cons in Hn as [Hd Hn]. cbn [foldl].
  assert (E : split_inner i st d = st).
  { unfold split_inner. rewrite Hp.
    assert (Hne : Ascii.eqb NUL d = false) by (apply Ascii.eqb_neq; exact Hd).
    rewrite Hne. reflexivity. }
  rewrite E. apply IH; assumption.
Qed.

(** One round of the inner loop stores at most once, and only where the
    counting pass counted at least once. *)
Lemma split_step_bound i (ds : cstr) : forall st c n,
  NUL ∉ ds -> p_out st !! i = Some c -> out_pos st <= n ->
  out_pos (split_step ds st i) <= count_matches ds n c
  /\ forall k, k <> i -> p_out (split_step ds st i) !! k = p_out st !! k.
Proof.
  unfold split_step, count_matches.
  induction ds as [|d ds IH]; intros st c n Hn Hp Hle; cbn [foldl].
  - split; [exact Hle|reflexivity].
  - apply not_elem_of_cons in Hn as [Hd Hn].
    assert (E : split_inner i st d
                = if Ascii.eqb c d
                  then {| p_out := <[i := NUL]> (p_out st);
                          pp_out := <[out_pos st := Some (S i)]> (pp_out st);
                          out_pos := S (out_pos st) |}
                  else st)
      by (unfold split_inner; rewrite Hp; reflexivity).
    rewrite E. clear E.
    destruct (Ascii.eqb c d).
    + rewrite split_inner_blanked; cbn [p_out out_pos].
      * split.
        -- pose proof (count_matches_mono ds c (S n)) as Hm.
           unfold count_matches in Hm. lia.
        -- intros k Hk. apply list_lookup_insert_ne. congruence.
      * exact Hn.
      * apply list_lookup_insert_eq. apply lookup_lt_Some in Hp. exact Hp.
    + apply IH; assumption.
Qed.

Lemma split_scan_bound (ds : cstr) : NUL ∉ ds -> forall suf pre st n,
  (forall k, k < length suf -> p_out st !! (length pre + k) = suf !! k) ->
  out_pos st <= n ->
  out_pos (foldl (split_step ds) st (seq (length pre) (length suf)))
  <= foldl (count_matches ds) n suf.
Proof.
  intros Hn. induction suf as [|c suf IH]; intros pre st n Hshape Hle.
  - exact Hle.
  - cbn [length seq foldl].
    assert (Hc : p_out st !! length pre = Some c).
    { specialize (Hshape 0). rewrite Nat.add_0_r in Hshape.
      apply Hshape. cbn [length]. lia. }
    destruct (split_step_bound (length pre) ds st c n Hn Hc Hle) as [Hb Hsame].
    replace (S (length pre)) with (length (pre ++ [c]))
      by (rewrite length_app; cbn [length]; lia).
    apply IH; [|exact Hb].
    intros k Hk. rewrite length_app. cbn [length].
    rewrite Hsame by lia.
    replace (length pre + 1 + k) with (length pre + S k) by lia.
    rewrite Hshape by (cbn [length]; lia). reflexivity.
Qed.

(** Every store of the second pass lands inside the pointer table: the
    table has [num_str + 1] entries and [out_pos] never passes
    [num_str], for whatever delimiter set. *)
Lemma ustrsplit_stores_in_table (text delims : cstr) :
  NUL ∉ delims ->
  out_pos (split_scan (length text) delims
             {| p_out := text ++ [NUL];
                pp_out := <[0 := Some 0]>
                            (replicate (count_slots text delims + 1) None);
                out_pos := 1 |})
  <= count_slots text delims.
Proof.
  intros Hn. unfold split_scan, count_slots.
  apply (split_scan_bound delims Hn text []); [|cbn [out_pos]; lia].
  intros k Hk. cbn [length Nat.add p_out]. apply lookup_app_l. exact Hk.
Qed.

Lemma delim_offs_shift d s b :
  delim_offs d s (S b) = map S (delim_offs d s b).
Proof.
  revert b. induction s as [|c s IH]; intros b; simpl; [reflexivity|].
  destruct (Ascii.eqb c d); simpl; rewrite IH; reflexivity.
Qed.

Lemma split_fun_nonempty d s : split_fun d s <> [].
Proof.
  destruct s as [|c s]; simpl; [discriminate|].
  destruct (Ascii.eqb c d); [discriminate|].
  destruct (split_fun d s); discriminate.
Qed.

(** Reading the slots out of the block gives the textbook split. *)
Lemma read_slots_single d s :
  NUL ∉ s -> d <> NUL ->
  map (cstr_at (blank d s ++ [NUL])) (0 :: delim_offs d s 0) = split_fun d s.
Proof.
  intros Hs Hd. induction s as [|c s IH]; [reflexivity|].
  apply not_elem_of_cons in Hs as [Hc Hs]. specialize (IH Hs).
  cbn [delim_offs split_fun blank map app] in *.
  rewrite delim_offs_shift.
  destruct (Ascii.eqb c d) eqn:Ecd.
  - cbn [map]. rewrite map_map. unfold cstr_at at 1. cbn.
    f_equal. exact IH.
  - rewrite map_map.
    assert (Hn : Ascii.eqb c NUL = false) by (apply Ascii.eqb_neq; congruence).
    unfold cstr_at at 1. cbn [drop strlen]. rewrite Hn. cbn [take].
    destruct (split_fun d s) as [|p ps] eqn:E.
    + exfalso. exact (split_fun_nonempty d s E).
    + cbn [map] in IH. injection IH as IH0 IH1.
      f_equal; [f_equal; exact IH0|exact IH1].
Qed.

(** Putting the delimiter back between the slots restores the text. *)
Lemma concat_interpose_split d s :
  concat (interpose [d] (split_fun d s)) = s.
Proof.
  induction s as [|c s IH]; [reflexivity|].
  cbn [split_fun]. destruct (Ascii.eqb c d) eqn:Ecd.
  - apply Ascii.eqb_eq in Ecd. subst c.
    destruct (split_fun d s) as [|p ps] eqn:E.
    + exfalso. exact (split_fun_nonempty d s E).
    + cbn [interpose concat app] in *. rewrite IH. reflexivity.
  - destruct (split_fun d s) as [|p ps] eqn:E.
    + exfalso. exact (split_fun_nonempty d s E).
    + destruct ps as [|q qs]; cbn [interpose concat app] in *;
        rewrite IH; reflexivity.
Qed.

Lemma strlen_nul_free s rest :
  NUL ∉ s -> strlen (s ++ NUL :: rest) = length s.
Proof.
  induction s as [|c s IH]; intros Hs; [reflexivity|].
  apply not_elem_of_cons in Hs as [Hc Hs]. cbn [app strlen length].
  assert (Hn : Ascii.eqb c NUL = false) by (apply Ascii.eqb_neq; congruence).
  rewrite Hn, IH by exact Hs. reflexivity.
Qed.

Lemma cstr_at_nul_free s rest :
  NUL ∉ s -> cstr_at (s ++ NUL :: rest) 0 = s.
Proof.
  intros Hs. unfold cstr_at. rewrite !drop_0, strlen_nul_free by exact Hs.
  apply take_app_length.
Qed.

(** The copy loop of [ustrjoinv] lays the strings out back to back. *)
Lemma join_copy_fold : forall (strs : list cstr) (done room : list ascii),
  length (concat strs) <= length room ->
  foldl join_copy (done ++ room, length done) strs
  = (done ++ concat strs ++ drop (length (concat strs)) room,
     length done + length (concat strs)).
Proof.
  induction strs as [|s strs IH]; intros done room Hlen.
  - cbn. rewrite Nat.add_0_r. reflexivity.
  - cbn [concat foldl] in *. rewrite length_app in Hlen.
    unfold join_copy at 2. cbn [fst snd].
    replace (length done) with (length done + 0) at 1 by lia.
    rewrite list_inserts_app_r.
    rewrite <- (take_drop (length s) room) at 1.
    rewrite list_inserts_0_r by (rewrite length_take; lia).
    rewrite <- length_app. rewrite (app_assoc done s).
    rewrite IH by (rewrite length_drop; lia).
    rewrite !length_app, drop_drop, <- !app_assoc.
    f_equal. lia.
Qed.

Lemma total_len_concat {A : Type} (strs : list (list A)) : forall n,
  foldl (fun n x => n + length x) n strs = n + length (concat strs).
Proof.
  induction strs as [|x strs IH]; intros n; cbn [foldl concat].
  - cbn. lia.
  - rewrite IH, length_app. lia.
Qed.

(** What a successful [ustrjoinv] hands back. *)
Lemma ustrjoinv_reads (st : ustash) (h : heap) (strs : list cstr) :
  NUL ∉ concat strs ->
  match ustrjoinv (Some st) h (Some strs) true with
  | (q, _, h2) => read_str h2 q = Some (concat strs)
  end.
Proof.
  intros Hn. unfold ustrjoinv. cbv zeta. cbn [negb priv_usch_stash Z.eqb].
  cbn [read_str]. rewrite lookup_alter_eq, lookup_insert_eq.
  cbn [fmap option_fmap option_map set_next str_bytes].
  rewrite (total_len_concat strs 0). cbn [Nat.add].
  pose proof (join_copy_fold strs [] (replicate (length (concat strs) + 1) NUL))
    as H.
  cbn [app length] in H. rewrite H by (rewrite length_replicate; lia).
  clear H. cbn [fst snd Nat.add].
  rewrite drop_replicate.
  replace (length (concat strs) + 1 - length (concat strs)) with 1 by lia.
  cbn [replicate].
  replace (length (concat strs)) with (length (concat strs) + 0) at 1 by lia.
  rewrite insert_app_r. cbn [insert list_insert].
  rewrite cstr_at_nul_free by exact Hn. reflexivity.
Qed.

(** C2: for every NUL-free text and every delimiter byte, splitting
    with [ustrsplit] on the one-byte delimiter set and joining the slots
    with that byte between them through [ustrjoinv] gives the text
    back.  (No condition on neighbouring delimiters is needed.) *)
Theorem split_join_roundtrip (st : ustash) (h : heap) (text : cstr) (d : ascii) :
  NUL ∉ text -> d <> NUL ->
  split_then_join (Some st) h text d = Some text.
Proof.
  intros Hs Hd. unfold split_then_join, ustrsplit.
  cbn [negb priv_usch_stash Z.eqb]. rewrite split_scan_single.
  cbn [p_out pp_out read_vec]. rewrite lookup_alter_eq, lookup_insert_eq.
  cbn [fmap option_fmap option_map set_next str_bytes str_vec].
  assert (Ev : vec_prefix (map Some (0 :: delim_offs d text 0) ++ [None])
               = 0 :: delim_offs d text 0).
  { generalize (0 :: delim_offs d text 0) as v.
    induction v as [|x v IH]; [reflexivity|]. cbn. rewrite IH. reflexivity. }
  rewrite Ev, (read_slots_single d text Hs Hd).
  match goal with
  | |- context [ustrjoinv (Some ?st') ?h' (Some ?strs) true] =>
      pose proof (ustrjoinv_reads st' h' strs) as Hj
  end.
  rewrite concat_interpose_split in Hj. specialize (Hj Hs).
  destruct (ustrjoinv _ _ _ _) as [[q p2] h2]. exact Hj.
Qed.

Lemma split_join_roundtrip_witness :
  (NUL ∉ lit "a,b,,c") /\ ","%char <> NUL /\
  split_then_join (Some {| p_list := None |}) ∅ (lit "a,b,,c") ","%char
  = Some (lit "a,b,,c").
Proof.
  assert (H1 : NUL ∉ lit "a,b,,c").
  { intros H. apply list_elem_of_In in H. cbn in H.
    repeat (destruct H as [H|H]; [discriminate H|]). exact H. }
  assert (H2 : ","%char <> NUL) by discriminate.
  split; [exact H1|]. split; [exact H2|].
  exact (split_join_roundtrip {| p_list := None |} ∅ (lit "a,b,,c") ","%char
           H1 H2).
Defined.

End TokenizerFacts.

Section ReaperFacts.

Lemma WEXITSTATUS_range (status : Z) : (0 <= WEXITSTATUS status <= 255)%Z.
Proof.
  unfold WEXITSTATUS. rewrite Z.shiftr_land.
  change (Z.shiftr 0xff00 8) with (Z.ones 8).
  rewrite Z.land_ones by lia.
  pose proof (Z.mod_pos_bound (Z.shiftr status 8) (2 ^ 8)) as H.
  change (2 ^ 8)%Z with 256%Z in *. lia.
Qed.

Lemma low7_of_low8 (status : Z) :
  Z.land status 0x7f = Z.land (Z.land status 0xff) 0x7f.
Proof. rewrite <- Z.land_assoc. reflexivity. Qed.

Lemma stopped_is_transitional (status : Z) :
  WIFSTOPPED status = true ->
  WIFEXITED status = false /\ WIFSIGNALED status = false.
Proof.
  unfold WIFSTOPPED, WIFEXITED, WIFSIGNALED, WTERMSIG. intros H.
  apply Z.eqb_eq in H. rewrite low7_of_low8, H. split; reflexivity.
Qed.

Lemma continued_is_transitional (status : Z) :
  WIFCONTINUED status = true ->
  WIFEXITED status = false /\ WIFSIGNALED status = false.
Proof.
  unfold WIFCONTINUED. intros H. apply Z.eqb_eq in H. subst status.
  split; reflexivity.
Qed.

Lemma waitforall_loop_skips (pre : list Z) (reports : list wait_ret) :
  Forall (fun s => WIFSTOPPED s = true \/ WIFCONTINUED s = true) pre ->
  waitforall_loop (map WaitReported pre ++ reports) = waitforall_loop reports.
Proof.
  induction 1 as [|s pre Hs _ IH]; [reflexivity|].
  cbn [map app waitforall_loop].
  assert (Ht : WIFEXITED s = false /\ WIFSIGNALED s = false).
  { destruct Hs as [Hs|Hs];
      [apply stopped_is_transitional|apply continued_is_transitional];
      exact Hs. }
  destruct Ht as [-> ->]. cbn [negb andb]. exact IH.
Qed.

(** While only stop and continue reports arrive, the call stays in its
    loop. *)
Lemma waitforall_keeps_waiting (kernel : Z -> list wait_ret) (pid : Z)
    (pre : list Z) :
  kernel pid = map WaitReported pre ->
  Forall (fun s => WIFSTOPPED s = true \/ WIFCONTINUED s = true) pre ->
  priv_usch_waitforall kernel pid = Blocked.
Proof.
  intros Hk Hpre. unfold priv_usch_waitforall. rewrite Hk.
  rewrite <- (app_nil_r (map WaitReported pre)).
  rewrite waitforall_loop_skips by exact Hpre. reflexivity.
Qed.

(** C3: whatever stop and continue reports [waitpid] delivers for the
    process first, [priv_usch_waitforall] goes on waiting; it returns
    the exit code, a value from 0 to 255, once the process has exited,
    and -1 once a signal has ended it; and when [waitpid] fails the host
    process exits with [EXIT_FAILURE] and nothing is returned. *)
Theorem waitforall_reaps (kernel : Z -> list wait_ret) (pid : Z)
    (pre : list Z) (final : wait_ret) (rest : list wait_ret) :
  kernel pid = map WaitReported pre ++ final :: rest ->
  Forall (fun s => WIFSTOPPED s = true \/ WIFCONTINUED s = true) pre ->
  match final with
  | WaitFailed => priv_usch_waitforall kernel pid = HostExit EXIT_FAILURE
  | WaitReported status =>
      (WIFEXITED status = true ->
       priv_usch_waitforall kernel pid = Returned (WEXITSTATUS status)
       /\ (0 <= WEXITSTATUS status <= 255)%Z)
      /\ (WIFEXITED status = false -> WIFSIGNALED status = true ->
          priv_usch_waitforall kernel pid = Returned (-1)%Z)
  end.
Proof.
  intros Hk Hpre. unfold priv_usch_waitforall. rewrite Hk.
  rewrite waitforall_loop_skips by exact Hpre.
  destruct final as [|status]; [reflexivity|].
  cbn [waitforall_loop]. split.
  - intros He. rewrite He. cbn [negb andb]. split; [reflexivity|].
    apply WEXITSTATUS_range.
  - intros He Hs. rewrite He, Hs. reflexivity.
Qed.

Lemma waitforall_reaps_witness :
  os_wait os_example 101
  = map WaitReported [0x137f; 0xffff]%Z ++ WaitReported 0x0300 :: []
  /\ Forall (fun s => WIFSTOPPED s = true \/ WIFCONTINUED s = true)
       [0x137f; 0xffff]%Z
  /\ priv_usch_waitforall (os_wait os_example) 101 = Returned 3%Z.
Proof.
  assert (Hk : os_wait os_example 101
               = map WaitReported [0x137f; 0xffff]%Z
                 ++ WaitReported 0x0300 :: []) by reflexivity.
  assert (Hpre : Forall (fun s => WIFSTOPPED s = true \/ WIFCONTINUED s = true)
                   [0x137f; 0xffff]%Z).
  { apply Forall_cons. split; [left; reflexivity|].
    apply Forall_cons. split; [right; reflexivity|]. apply Forall_nil_2. }
  split; [exact Hk|]. split; [exact Hpre|].
  destruct (waitforall_reaps (os_wait os_example) 101 [0x137f; 0xffff]%Z
              (WaitReported 0x0300) [] Hk Hpre) as [Hexit _].
  destruct (Hexit eq_refl) as [Hret _]. exact Hret.
Defined.

End ReaperFacts.

Section ExecutorFacts.

Lemma scan_vec_shape {A : Type} (v : list (option A)) (l : list A) :
  scan_vec v = Done l -> exists rest, v = map Some l ++ None :: rest.
Proof.
  revert l. induction v as [|[x|] v IH]; intros l H; cbn in H.
  - discriminate.
  - destruct (scan_vec v) as [l'| |] eqn:E; cbn in H; try discriminate.
    injection H as <-. destruct (IH l' eq_refl) as [rest ->].
    exists rest. reflexivity.
  - injection H as <-. exists v. reflexivity.
Qed.

Lemma drop_map_some_app {A : Type} (l : list A) (rest : list (option A)) :
  drop (length l) (map Some l ++ rest) = rest.
Proof.
  rewrite <- (length_map Some l). apply drop_app_length.
Qed.

(** C4: when the first token of the expanded sequence is literally
    [cd], the executor makes exactly one system call, [chdir], in the
    calling process (no child is spawned and none is waited for), on the
    second token, or on the value of [HOME] when no second token is
    given.  A second token that starts with ['|'] has been rewritten to
    a terminator before the builtin test, so none is given then. *)
Theorem cd_builtin_in_process (fs : matcher) (mem : alloc_oracle)
    (os : os_model) (capture : bool) (pp_orig_argv : list cstr)
    (buf : list (option cstr)) (items : list (list cstr)) (args : list cstr) :
  priv_usch_globexpand fs mem pp_orig_argv = Done (Some (buf, items)) ->
  scan_vec buf = Done args ->
  head args = Some (lit "cd") ->
  priv_usch_cmd_arr fs mem os capture pp_orig_argv
  = Done {| cmd_status := Returned 0%Z;
            cmd_events := [EvChdir (cd_target os args)];
            cmd_out := None |}.
Proof.
  intros Hexp Hscan Hcd. unfold priv_usch_cmd_arr.
  rewrite Hexp. cbn [run_bind]. rewrite Hscan. cbn [run_bind].
  destruct (scan_vec_shape _ _ Hscan) as [rest ->].
  destruct args as [|a0 args']; [discriminate|].
  cbn [head] in Hcd. injection Hcd as ->.
  unfold pipe_rewrite. rewrite drop_map_some_app.
  cbn [map app load lookup list_lookup run_bind].
  change (is_pipe_token (lit "cd")) with false. cbn iota.
  change (ustreq (Some (lit "cd")) (Some (lit "cd"))) with true. cbn iota.
  unfold cd_target.
  destruct args' as [|a1 args'']; cbn [map app lookup list_lookup run_bind].
  - reflexivity.
  - destruct (is_pipe_token a1); reflexivity.
Qed.

Lemma cd_builtin_in_process_witness :
  priv_usch_globexpand fs_empty mem_ok [lit "cd"; lit "/tmp"]
  = Done (Some ([Some (lit "cd"); Some (lit "/tmp"); None],
                [[lit "cd"]; [lit "/tmp"]]))
  /\ scan_vec [Some (lit "cd"); Some (lit "/tmp"); None]
     = Done [lit "cd"; lit "/tmp"]
  /\ head [lit "cd"; lit "/tmp"] = Some (lit "cd")
  /\ priv_usch_cmd_arr fs_empty mem_ok os_example false
       [lit "cd"; lit "/tmp"]
     = Done {| cmd_status := Returned 0%Z;
               cmd_events := [EvChdir (Some (lit "/tmp"))];
               cmd_out := None |}.
Proof.
  split; [reflexivity|]. split; [reflexivity|]. split; [reflexivity|].
  exact (cd_builtin_in_process fs_empty mem_ok os_example false
           [lit "cd"; lit "/tmp"]
           [Some (lit "cd"); Some (lit "/tmp"); None]
           [[lit "cd"]; [lit "/tmp"]]
           [lit "cd"; lit "/tmp"]
           eq_refl eq_refl eq_refl).
Defined.

(** A second token that starts with ['|'] is a pipe separator: it has
    become a terminator before the builtin test, no second token is
    given, and the directory is [HOME]. *)
Lemma cd_pipe_token_goes_home :
  exists r,
    priv_usch_cmd_arr fs_empty mem_ok os_example false [lit "cd"; lit "|x"]
    = Done r
    /\ cmd_events r = [EvChdir (os_home os_example)]
    /\ cmd_events r <> [EvChdir (Some (lit "|x"))].
Proof.
  eexists. split; [reflexivity|]. split; [reflexivity|]. discriminate.
Qed.

(** Any other first token is run as a child process. *)
Lemma other_command_is_spawned :
  priv_usch_cmd_arr fs_empty mem_ok os_example false [lit "ls"]
  = Done {| cmd_status := HostExit EXIT_FAILURE;
            cmd_events := [EvSpawn [lit "ls"] 0 true true false; EvWait 100];
            cmd_out := None |}.
Proof. reflexivity. Qed.

Lemma stage_at_empty_slot (pp_argv : list (option cstr)) (i : nat) :
  stage_at pp_argv i = [] -> slot pp_argv i = None.
Proof.
  unfold stage_at, slot. intros H.
  rewrite <- (Nat.add_0_r i), <- lookup_drop.
  destruct (drop i pp_argv) as [|[x|] rest]; cbn in *;
    [reflexivity|discriminate|reflexivity].
Qed.

(** Every round of the stage loop advances [i], so the bound [argc]
    that [priv_usch_cmd_arr] gives it is never used up. *)
Lemma pipeline_loop_fuel (os : os_model) (capture : bool)
    (pp_argv : list (option cstr)) (argc : nat) (fuel : nat) :
  forall i first st,
    argc - i <= fuel ->
    pipeline_loop fuel os capture pp_argv argc i first st <> OutOfFuel.
Proof.
  induction fuel as [|fuel IH]; intros i first st Hf.
  - cbn [pipeline_loop]. destruct (argc <=? i) eqn:E; [discriminate|].
    apply Nat.leb_gt in E. lia.
  - cbn [pipeline_loop]. destruct (argc <=? i) eqn:E; [discriminate|].
    apply Nat.leb_gt in E. cbv zeta. apply IH.
    destruct (stage_at pp_argv i) as [|a stage] eqn:Es.
    + rewrite Nat.add_0_r, Nat.min_r by lia.
      rewrite (stage_at_empty_slot _ _ Es). cbn [non_null negb andb].
      assert (Hne : (i =? argc) = false) by (apply Nat.eqb_neq; lia).
      rewrite Hne. cbn [negb]. lia.
    + cbn [length].
      destruct (negb (non_null (slot pp_argv (argc `min` (i + S (length stage)))))
                && negb (argc `min` (i + S (length stage)) =? argc)); lia.
Qed.

End ExecutorFacts.

Section ExpansionFacts.

(** C1 fails on the source: with the separator in front, the tail is
    stored at index [j + i = 0 + 1] instead of 0, so slot 0 stays NULL
    and the NULL-terminated sequence the caller reads is empty; the
    claim asks for the one-element sequence holding the tail. *)
Theorem globexpand_separator_first_loses_tail (fs : matcher) :
  priv_usch_globexpand fs mem_ok [lit "--"; lit "*"]
  = Done (Some ([None; Some (lit "*")], []))
  /\ expanded_sequence fs mem_ok [lit "--"; lit "*"] = Done (Some [])
  /\ expanded_sequence fs mem_ok [lit "--"; lit "*"]
     <> Done (Some [lit "*"]).
Proof. split; [reflexivity|]. split; [reflexivity|discriminate]. Qed.

(** With one argument in front of the separator the tail is stored one
    slot behind the end of the array. *)
Lemma globexpand_separator_second_overruns :
  priv_usch_globexpand fs_empty mem_ok [lit "echo"; lit "--"; lit "*"]
  = Fault.
Proof. reflexivity. Qed.

(** The separator works when the index happens to fit: two arguments
    in front of it, the first of which yields three paths. *)
Lemma globexpand_separator_fits_by_chance :
  priv_usch_globexpand
    (fun _ p => if strcmp_eq p (lit "a*")
                then Matches [lit "a1"; lit "a2"; lit "a3"] else Matches [])
    mem_ok [lit "a*"; lit "b"; lit "--"; lit "*"]
  = Done (Some ([Some (lit "a1"); Some (lit "a2"); Some (lit "a3");
                 Some (lit "b"); Some (lit "*"); None],
                [[lit "a1"; lit "a2"; lit "a3"]; [lit "b"]])).
Proof. reflexivity. Qed.

(** A pattern without a match comes back from glob(3) as itself. *)
Lemma glob_nomatch_literal (fs : matcher) (pattern : cstr) :
  fs usch_glob_flags pattern = Matches [] ->
  glob fs pattern usch_glob_flags = (0%Z, [pattern]).
Proof. intros H. unfold glob. rewrite H. reflexivity. Qed.

(** C7 fails on the source: [nomatch] matches nothing and is stored at
    slot 4, and the tail copy then stores [t] at index [j + i = 1 + 3],
    the same slot.  The returned sequence holds the four matches of
    [a*] and [t]; [nomatch] is not an element of it. *)
Theorem globexpand_nomatch_overwritten :
  fs_four usch_glob_flags (lit "nomatch") = Matches []
  /\ priv_usch_globexpand fs_four mem_ok
       [lit "a*"; lit "nomatch"; lit "--"; lit "t"]
     = Done (Some ([Some (lit "a1"); Some (lit "a2"); Some (lit "a3");
                    Some (lit "a4"); Some (lit "t"); None; None],
                   [[lit "a1"; lit "a2"; lit "a3"; lit "a4"];
                    [lit "nomatch"]]))
  /\ expanded_sequence fs_four mem_ok
       [lit "a*"; lit "nomatch"; lit "--"; lit "t"]
     = Done (Some [lit "a1"; lit "a2"; lit "a3"; lit "a4"; lit "t"])
  /\ lit "nomatch" ∉ [lit "a1"; lit "a2"; lit "a3"; lit "a4"; lit "t"].
Proof.
  split; [reflexivity|]. split; [reflexivity|]. split; [reflexivity|].
  intros H. apply list_elem_of_In in H. cbn in H.
  repeat (destruct H as [H|H]; [discriminate H|]). exact H.
Qed.

Lemma glob_ok_status (fs : matcher) (arg : cstr) :
  fs usch_glob_flags arg <> MatchError ->
  fst (glob fs arg usch_glob_flags) = 0%Z.
Proof.
  intros H. unfold glob. destruct (fs usch_glob_flags arg) as [[|p ps]|];
    [reflexivity|reflexivity|congruence].
Qed.

Lemma glob_loop_no_separator (fs : matcher) (argv : list cstr) : forall k,
  Forall (expandable fs) argv ->
  glob_loop fs mem_ok k argv = Some (expansions fs argv, length argv).
Proof.
  induction argv as [|arg argv IH]; intros k Hall; [reflexivity|].
  inversion Hall as [|? ? [Hsep Hok] Hall']; subst.
  cbn [glob_loop expansions map length]. rewrite Hsep. cbn [mem_ok negb].
  rewrite (glob_ok_status fs arg Hok). cbn [Z.eqb negb].
  rewrite (IH (S k) Hall'). reflexivity.
Qed.

Lemma copy_pathv_fill (pathv : list cstr) : forall (pre : list (option cstr)) m,
  copy_pathv pathv (length pre) (pre ++ replicate (length pathv + m) None)
  = Done (pre ++ map Some pathv ++ replicate m None,
          length pre + length pathv).
Proof.
  induction pathv as [|p pathv IH]; intros pre m.
  - cbn. rewrite Nat.add_0_r. reflexivity.
  - cbn [copy_pathv length Nat.add replicate map app]. unfold store.
    assert (Hlt : Nat.ltb (length pre)
                    (length (pre ++ None :: replicate (length pathv + m) None))
                  = true).
    { apply Nat.ltb_lt. rewrite length_app. cbn [length]. lia. }
    rewrite Hlt. cbn [run_bind].
    rewrite insert_app_r_alt by lia. rewrite Nat.sub_diag.
    cbn [insert list_insert].
    replace (pre ++ Some p :: replicate (length pathv + m) None)
      with ((pre ++ [Some p]) ++ replicate (length pathv + m) None)
      by (rewrite <- app_assoc; reflexivity).
    replace (S (length pre)) with (length (pre ++ [Some p]))
      by (rewrite length_app; cbn [length]; lia).
    rewrite IH. rewrite <- !app_assoc. cbn [app].
    rewrite length_app. cbn [length]. f_equal. f_equal. lia.
Qed.

Lemma copy_items_fill (items : list (list cstr)) :
  forall (pre : list (option cstr)) j m,
  exists j',
    copy_items items (length pre) j
      (pre ++ replicate (length (concat items) + m) None)
    = Done (pre ++ map Some (concat items) ++ replicate m None, j').
Proof.
  induction items as [|pathv items IH]; intros pre j m.
  - exists j. reflexivity.
  - cbn [copy_items concat]. rewrite length_app, <- Nat.add_assoc.
    rewrite copy_pathv_fill. cbn [run_bind fst snd].
    rewrite app_assoc.
    replace (length pre + length pathv)
      with (length (pre ++ map Some pathv))
      by (rewrite length_app, length_map; reflexivity).
    destruct (IH (pre ++ map Some pathv) (length pathv) m) as [j' ->].
    exists j'. rewrite map_app, <- !app_assoc. reflexivity.
Qed.

(** Without a separator, and when no match fails, the result lists the
    expansions of all arguments in argument order, closed by NULL. *)
Lemma globexpand_no_separator (fs : matcher) (argv : list cstr) :
  Forall (expandable fs) argv ->
  priv_usch_globexpand fs mem_ok argv
  = Done (Some (map Some (concat (expansions fs argv)) ++ [None],
                expansions fs argv)).
Proof.
  intros Hall. unfold priv_usch_globexpand.
  rewrite (glob_loop_no_separator fs argv 0 Hall). cbn [mem_ok].
  rewrite (total_len_concat (expansions fs argv) 0). cbn [Nat.add].
  replace (length (concat (expansions fs argv)) + length argv - length argv + 1)
    with (length (concat (expansions fs argv)) + 1) by lia.
  destruct (copy_items_fill (expansions fs argv) [] 0 1) as [j' Hfill].
  cbn [app length] in Hfill. rewrite Hfill. cbn [run_bind fst snd].
  rewrite drop_all. reflexivity.
Qed.

(** In such a call an argument that matches nothing is an element of
    the returned sequence, as it stands. *)
Lemma globexpand_nomatch_kept (fs : matcher) (pre post : list cstr)
    (pattern : cstr) :
  Forall (expandable fs) (pre ++ pattern :: post) ->
  fs usch_glob_flags pattern = Matches [] ->
  priv_usch_globexpand fs mem_ok (pre ++ pattern :: post)
  = Done (Some (map Some (concat (expansions fs pre) ++ pattern
                          :: concat (expansions fs post)) ++ [None],
                expansions fs (pre ++ pattern :: post))).
Proof.
  intros Hall Hno. rewrite (globexpand_no_separator fs _ Hall).
  unfold expansions. rewrite map_app, concat_app. cbn [map concat].
  rewrite (glob_nomatch_literal fs pattern Hno). reflexivity.
Qed.

End ExpansionFacts.

Section WhereisFacts.

Lemma last_slash_zeroed_fold (n : nat) : forall (a k : Z),
  foldl (fun st c =>
           ((if Ascii.eqb c "/" then snd st else fst st), (snd st + 1)%Z))
    (a, k) (replicate n NUL)
  = (a, (k + Z.of_nat n)%Z).
Proof.
  induction n as [|n IH]; intros a k.
  - cbn. f_equal. lia.
  - cbn [replicate foldl]. rewrite IH. cbn. f_equal. lia.
Qed.

(** In a zeroed block no ['/'] is found. *)
Lemma last_slash_zeroed (n : nat) : last_slash (replicate n NUL) = (-1)%Z.
Proof. unfold last_slash. rewrite last_slash_zeroed_fold. reflexivity. Qed.

(** The slip of the first branch: a name that starts with ['/'] or
    ['.'] is never resolved, whatever the file system holds. *)
Lemma whereis_rooted_never_resolves (fs_stat : cstr -> bool)
    (mem : alloc_oracle) (path : list cstr) (name : cstr) :
  starts_rooted name = true ->
  priv_usch_cached_whereis fs_stat mem path name = Done ((-1)%Z, None).
Proof.
  intros H. unfold priv_usch_cached_whereis.
  destruct name as [|c name]; [discriminate|]. cbn [starts_rooted] in H.
  rewrite H. rewrite last_slash_zeroed. cbn.
  destruct (mem 0), (mem 1); reflexivity.
Qed.

Lemma whereis_probe_find (fs_stat : cstr -> bool) (path : list cstr)
    (name : cstr) :
  whereis_probe fs_stat true path name
  = match find (fun dir => fs_stat (dir ++ lit "/" ++ name)) path with
    | Some dir => (1%Z, Some (map Some (dir ++ lit "/" ++ name) ++ [None]))
    | None => (0%Z, None)
    end.
Proof.
  induction path as [|dir path IH]; [reflexivity|].
  cbn [whereis_probe find].
  destruct (fs_stat (dir ++ lit "/" ++ name)); cbn [negb]; [reflexivity|].
  exact IH.
Qed.

(** C6, as the source has it: for a name that starts with neither ['/']
    nor ['.'] (it may hold a ['/'] further on) the directories are
    probed in order, and for the first one where [stat] succeeds on
    directory, ['/'], name the status is 1 and the block handed back
    starts with the bytes of that path; when there is none the status
    is 0 and nothing is handed back. *)
Theorem whereis_searches_path (fs_stat : cstr -> bool) (mem : alloc_oracle)
    (path : list cstr) (name : cstr) :
  starts_rooted name = false ->
  mem 0 = true ->
  priv_usch_cached_whereis fs_stat mem path name
  = Done (match find (fun dir => fs_stat (dir ++ lit "/" ++ name)) path with
          | Some dir =>
              (1%Z, Some (map Some (dir ++ lit "/" ++ name) ++ [None]))
          | None => (0%Z, None)
          end).
Proof.
  intros Hr Hm. unfold priv_usch_cached_whereis. rewrite Hm.
  destruct name as [|c name].
  - rewrite whereis_probe_find. reflexivity.
  - cbn [starts_rooted] in Hr. rewrite Hr, whereis_probe_find. reflexivity.
Qed.

Lemma whereis_searches_path_witness :
  starts_rooted (lit "ls") = false /\ mem_ok 0 = true /\
  priv_usch_cached_whereis stat_usr_bin_ls mem_ok
    [lit "/bin"; lit "/usr/bin"; lit "/usr"] (lit "ls")
  = Done (1%Z, Some (map Some (lit "/usr/bin/ls") ++ [None])).
Proof.
  split; [reflexivity|]. split; [reflexivity|].
  exact (whereis_searches_path stat_usr_bin_ls mem_ok
           [lit "/bin"; lit "/usr/bin"; lit "/usr"] (lit "ls")
           eq_refl eq_refl).
Defined.

(** The claim as worded fails on a name that holds a ['/'] behind its
    first byte: [bin/ls] is looked up through the search path (found
    under [/usr], not found with an empty path) and not relative to its
    own directory [bin]. *)
Lemma whereis_inner_separator_is_searched :
  existsb (Ascii.eqb "/") (lit "bin/ls") = true
  /\ priv_usch_cached_whereis stat_usr_bin_ls mem_ok [lit "/usr"] (lit "bin/ls")
     = Done (1%Z, Some (map Some (lit "/usr/bin/ls") ++ [None]))
  /\ priv_usch_cached_whereis stat_usr_bin_ls mem_ok [] (lit "bin/ls")
     = Done (0%Z, None)
  /\ priv_usch_cached_whereis stat_usr_bin_ls mem_ok [lit "/usr"] (lit "bin/ls")
     <> priv_usch_cached_whereis stat_usr_bin_ls mem_ok [] (lit "bin/ls").
Proof.
  split; [reflexivity|]. split; [reflexivity|]. split; [reflexivity|].
  discriminate.
Qed.

End WhereisFacts.

Section OwnershipFacts.
Implicit Types (h : heap) (l : list addr) (a : addr).

(** C5 fails on the source: with an absent arena, an absent input, an
    absent delimiter set, or a failed allocation, [ustrsplit] returns
    NULL (and leaves handle and heap alone), not the one-slot vector
    its header comment documents; NULL denotes no vector at all. *)
Theorem ustrsplit_failure_returns_null h (s : ustash) (text delims : cstr) :
  ustrsplit None h (Some text) (Some delims) true = (Null, None, h)
  /\ ustrsplit (Some s) h None (Some delims) true = (Null, Some s, h)
  /\ ustrsplit (Some s) h (Some text) None true = (Null, Some s, h)
  /\ ustrsplit (Some s) h (Some text) (Some delims) false = (Null, Some s, h)
  /\ read_vec h Null = None
  /\ read_vec h Null <> Some [[]].
Proof. repeat split; try reflexivity. discriminate. Qed.

Lemma calloc_addr_fresh h : h !! calloc_addr h = None.
Proof.
  apply not_elem_of_dom. unfold calloc_addr. apply is_fresh.
Qed.

Lemma stash_chain_live h p l a :
  stash_chain h p l -> a ∈ l -> is_Some (h !! a).
Proof.
  induction 1 as [|b it l Hb Hl IH]; intros Hin.
  - inversion Hin.
  - apply elem_of_cons in Hin as [->|Hin]; [eauto|auto].
Qed.

Lemma stash_chain_frame h h' p l :
  stash_chain h p l ->
  (forall b, b ∈ l -> h' !! b = h !! b) ->
  stash_chain h' p l.
Proof.
  induction 1 as [|b it l Hb Hl IH]; intros Hsame.
  - constructor.
  - econstructor.
    + rewrite Hsame by left. exact Hb.
    + apply IH. intros c Hc. apply Hsame. right. exact Hc.
Qed.

(** Pushing a freshly allocated block puts it on the arena's list. *)
Lemma push_fresh_block_owned (s : ustash) h (blk : priv_usch_stash_item) :
  arena_valid (Some s) h ->
  arena_owned (Some {| p_list := Some (calloc_addr h) |})
    (alter (set_next (p_list s)) (calloc_addr h) (<[calloc_addr h := blk]> h))
    (calloc_addr h).
Proof.
  intros [l Hl].
  exists {| p_list := Some (calloc_addr h) |}, (calloc_addr h :: l).
  split; [reflexivity|]. split; [|left].
  cbn [p_list]. econstructor.
  - rewrite lookup_alter_eq, lookup_insert_eq. reflexivity.
  - cbn [set_next p_next fmap option_fmap option_map].
    apply (stash_chain_frame h); [exact Hl|].
    intros b Hb.
    assert (Hne : calloc_addr h <> b).
    { intros <-. destruct (stash_chain_live _ _ _ _ Hl Hb) as [it Hit].
      rewrite calloc_addr_fresh in Hit. discriminate. }
    rewrite lookup_alter_ne, lookup_insert_ne by exact Hne. reflexivity.
Qed.

(** The common tail of the three entry points: allocate, fill, push,
    and hand back the block or the fallback pointer. *)
Lemma push_result_owned (p_ustash : option ustash) h
    (blk : priv_usch_stash_item) (fallback p : pointer)
    (p' : option ustash) h' :
  arena_valid p_ustash h ->
  match priv_usch_stash p_ustash (Some (calloc_addr h))
          (<[calloc_addr h := blk]> h) with
  | (status, p1, h1) =>
      if (status =? 0)%Z then (InBlock (calloc_addr h), p1, h1)
      else (fallback, p1, h1)
  end = (p, p', h') ->
  sentinel_or_owned fallback p p' h'.
Proof.
  intros Hv Hcall. destruct p_ustash as [s|];
    cbn [priv_usch_stash Z.eqb] in Hcall; injection Hcall as <- <- <-.
  - right. eexists. split; [reflexivity|].
    apply push_fresh_block_owned. exact Hv.
  - left. reflexivity.
Qed.

Lemma arena_owned_valid (p_ustash : option ustash) h a :
  arena_owned p_ustash h a -> arena_valid p_ustash h.
Proof. intros (s & l & -> & Hl & _). exists l. exact Hl. Qed.

(** The entry points keep the arena a chain of live blocks, so every
    arena a caller can build with them is one [uclear] handles. *)
Lemma push_result_valid (p_ustash : option ustash) h
    (blk : priv_usch_stash_item) (fallback p : pointer)
    (p' : option ustash) h' :
  arena_valid p_ustash h ->
  match priv_usch_stash p_ustash (Some (calloc_addr h))
          (<[calloc_addr h := blk]> h) with
  | (status, p1, h1) =>
      if (status =? 0)%Z then (InBlock (calloc_addr h), p1, h1)
      else (fallback, p1, h1)
  end = (p, p', h') ->
  arena_valid p' h'.
Proof.
  intros Hv Hcall. destruct p_ustash as [s|];
    cbn [priv_usch_stash Z.eqb] in Hcall; injection Hcall as <- <- <-.
  - apply (arena_owned_valid _ _ (calloc_addr h)).
    apply push_fresh_block_owned. exact Hv.
  - exact I.
Qed.

Lemma ustrjoinv_keeps_arena_valid (p_ustash : option ustash) h
    (pp_strings : option (list cstr)) (calloc_ok : bool)
    (p : pointer) (p' : option ustash) h' :
  arena_valid p_ustash h ->
  ustrjoinv p_ustash h pp_strings calloc_ok = (p, p', h') ->
  arena_valid p' h'.
Proof.
  intros Hv Hcall. unfold ustrjoinv in Hcall.
  destruct pp_strings as [strs|];
    [|injection Hcall as <- <- <-; exact Hv].
  destruct calloc_ok; cbn [negb] in Hcall;
    [|injection Hcall as <- <- <-; exact Hv].
  cbv zeta in Hcall.
  match type of Hcall with
  | context [<[calloc_addr h := ?blk]> h] =>
      apply (push_result_valid p_ustash h blk _ _ _ _ Hv Hcall)
  end.
Qed.

Lemma ustrsplit_keeps_arena_valid (p_ustash : option ustash) h
    (p_in p_delims : option cstr) (calloc_ok : bool)
    (p : pointer) (p' : option ustash) h' :
  arena_valid p_ustash h ->
  ustrsplit p_ustash h p_in p_delims calloc_ok = (p, p', h') ->
  arena_valid p' h'.
Proof.
  intros Hv Hcall. unfold ustrsplit in Hcall.
  destruct p_ustash as [s|]; [|injection Hcall as _ <- <-; exact Hv].
  destruct p_in as [text|]; [|injection Hcall as _ <- <-; exact Hv].
  destruct p_delims as [delims|]; [|injection Hcall as _ <- <-; exact Hv].
  destruct calloc_ok; cbn [negb] in Hcall;
    [|injection Hcall as _ <- <-; exact Hv].
  cbv zeta in Hcall. cbn [priv_usch_stash Z.eqb] in Hcall.
  injection Hcall as _ <- <-.
  apply (arena_owned_valid _ _ (calloc_addr h)).
  apply push_fresh_block_owned. exact Hv.
Qed.

(** C9: on a call that returns, [ustrexpv] hands back its static empty
    vector or a pointer into a block on the list of the caller's arena,
    and [ustrjoinv] its static empty string or such a pointer; a call of
    [ustrsplit] that does not fail (NULL) hands back such a pointer.
    The arena is any handle that is absent or heads a chain of live
    blocks. *)
Theorem entry_points_return_owned (p_ustash : option ustash) h :
  arena_valid p_ustash h ->
  (forall p_in p_delims calloc_ok p p' h',
      ustrsplit p_ustash h p_in p_delims calloc_ok = (p, p', h') ->
      p <> Null ->
      exists a, p = InBlock a /\ arena_owned p' h' a)
  /\ (forall fs mem calloc_ok pp_strings p p' h',
      ustrexpv fs mem calloc_ok p_ustash h pp_strings = Done (p, p', h') ->
      sentinel_or_owned (Static emptyarr) p p' h')
  /\ (forall pp_strings calloc_ok p p' h',
      ustrjoinv p_ustash h pp_strings calloc_ok = (p, p', h') ->
      sentinel_or_owned (Static emptystr) p p' h').
Proof.
  intros Hv. split; [|split].
  - intros p_in p_delims calloc_ok p p' h' Hcall Hnn.
    unfold ustrsplit in Hcall.
    destruct p_ustash as [s|]; [|injection Hcall as <- _ _; congruence].
    destruct p_in as [text|]; [|injection Hcall as <- _ _; congruence].
    destruct p_delims as [delims|]; [|injection Hcall as <- _ _; congruence].
    destruct calloc_ok; cbn [negb] in Hcall;
      [|injection Hcall as <- _ _; congruence].
    cbv zeta in Hcall. cbn [priv_usch_stash Z.eqb] in Hcall.
    injection Hcall as <- <- <-. eexists. split; [reflexivity|].
    apply push_fresh_block_owned. exact Hv.
  - intros fs mem calloc_ok pp_strings p p' h' Hcall.
    unfold ustrexpv in Hcall.
    destruct pp_strings as [strs|]; [|discriminate].
    destruct (priv_usch_globexpand fs mem strs) as [[[extmem items]|]| |];
      cbn [run_bind] in Hcall; try discriminate.
    + destruct (scan_vec extmem) as [ext| |];
        cbn [run_bind] in Hcall; try discriminate.
      destruct calloc_ok; cbn [negb] in Hcall.
      * cbv zeta in Hcall.
        match type of Hcall with
        | context [<[calloc_addr h := ?blk]> h] =>
            apply (push_result_owned p_ustash h blk); [exact Hv|]
        end.
        destruct (priv_usch_stash _ _ _) as [[status p1] h1].
        destruct (status =? 0)%Z; injection Hcall as <- <- <-; reflexivity.
      * injection Hcall as <- <- <-. left. reflexivity.
    + injection Hcall as <- <- <-. left. reflexivity.
  - intros pp_strings calloc_ok p p' h' Hcall.
    unfold ustrjoinv in Hcall.
    destruct pp_strings as [strs|];
      [|injection Hcall as <- <- <-; left; reflexivity].
    destruct calloc_ok; cbn [negb] in Hcall;
      [|injection Hcall as <- <- <-; left; reflexivity].
    cbv zeta in Hcall.
    match type of Hcall with
    | context [<[calloc_addr h := ?blk]> h] =>
        apply (push_result_owned p_ustash h blk); [exact Hv|]
    end.
    exact Hcall.
Qed.

Lemma entry_points_return_owned_witness :
  arena_valid (Some {| p_list := None |}) ∅
  /\ sentinel_or_owned (Static emptystr) (InBlock 1%positive)
       (Some {| p_list := Some 1%positive |})
       (snd (ustrjoinv (Some {| p_list := None |}) ∅
               (Some [lit "ab"; lit "c"]) true)).
Proof.
  assert (Hv : arena_valid (Some {| p_list := None |}) ∅).
  { exists []. apply chain_nil. }
  split; [exact Hv|].
  destruct (entry_points_return_owned (Some {| p_list := None |}) ∅ Hv)
    as (_ & _ & Hjoin).
  apply (Hjoin (Some [lit "ab"; lit "c"]) true). reflexivity.
Defined.

(** What [uclear] then does with such a block: it is released together
    with the rest of the list. *)
Lemma owned_block_released (s : ustash) h a :
  arena_owned (Some s) h a ->
  exists h', uclear (Some s) h = Done (Some {| p_list := None |}, h')
             /\ h' !! a = None.
Proof.
  intros (s' & l & Es & Hl & Ha). injection Es as <-.
  exists (release l h). split; [apply uclear_chain; exact Hl|].
  rewrite lookup_release. rewrite decide_True by exact Ha. reflexivity.
Qed.

End OwnershipFacts.

(* ===================================================================== *)
(** * Part III: further properties of the modelled code                  *)
(* ===================================================================== *)

Section ExpansionCoverage.

Lemma scan_vec_terminated {A : Type} (l : list A) (rest : list (option A)) :
  scan_vec (map Some l ++ None :: rest) = Done l.
Proof.
  induction l as [|x l IH]; [reflexivity|].
  cbn [map app scan_vec]. rewrite IH. reflexivity.
Qed.

(** X1: when no argument is the separator and no match fails, the
    sequence a caller reads off the result of [priv_usch_globexpand] is
    the glob results of all arguments, one argument after the other in
    argument order. *)
Theorem globexpand_keeps_argument_order (fs : matcher) (argv : list cstr) :
  Forall (expandable fs) argv ->
  expanded_sequence fs mem_ok argv = Done (Some (concat (expansions fs argv))).
Proof.
  intros Hall. unfold expanded_sequence.
  rewrite (globexpand_no_separator fs argv Hall). cbn [run_bind].
  rewrite scan_vec_terminated. reflexivity.
Qed.

Lemma globexpand_keeps_argument_order_witness :
  Forall (expandable fs_four) [lit "x"; lit "a*"; lit "y"]
  /\ expanded_sequence fs_four mem_ok [lit "x"; lit "a*"; lit "y"]
     = Done (Some [lit "x"; lit "a1"; lit "a2"; lit "a3"; lit "a4"; lit "y"]).
Proof.
  assert (H : Forall (expandable fs_four) [lit "x"; lit "a*"; lit "y"]).
  { repeat (apply Forall_cons; split;
            [split; [reflexivity|discriminate]|]).
    apply Forall_nil_2. }
  split; [exact H|].
  exact (globexpand_keeps_argument_order fs_four
           [lit "x"; lit "a*"; lit "y"] H).
Defined.

Lemma glob_loop_aborts (fs : matcher) (mem : alloc_oracle)
    (pre : list cstr) (bad : cstr) (post : list cstr) : forall k,
  Forall (fun arg => strcmp_eq arg (lit "--") = false) pre ->
  strcmp_eq bad (lit "--") = false ->
  mem (k + length pre) = false \/ fs usch_glob_flags bad = MatchError ->
  glob_loop fs mem k (pre ++ bad :: post) = None.
Proof.
  induction pre as [|arg pre IH]; intros k Hpre Hbad Hfail.
  - cbn [app glob_loop length] in *. rewrite Hbad.
    rewrite Nat.add_0_r in Hfail.
    destruct (mem k); cbn [negb]; [|reflexivity].
    destruct Hfail as [Hm|Hg]; [discriminate|].
    unfold glob. rewrite Hg. reflexivity.
  - inversion Hpre as [|? ? Harg Hpre']; subst.
    cbn [app glob_loop]. rewrite Harg.
    destruct (negb (mem k)); [reflexivity|].
    destruct (negb (fst (glob fs arg usch_glob_flags) =? 0)%Z);
      [reflexivity|].
    rewrite (IH (S k)); [reflexivity|exact Hpre'|exact Hbad|].
    cbn [length] in Hfail.
    replace (S k + length pre) with (k + S (length pre)) by lia.
    exact Hfail.
Qed.

Lemma glob_loop_lost_at (fs : matcher) (mem : alloc_oracle)
    (pre : list cstr) (bad : cstr) (post : list cstr) : forall k,
  Forall (expandable fs) pre ->
  (forall i, i < length pre -> mem (k + i) = true) ->
  strcmp_eq bad (lit "--") = false ->
  mem (k + length pre) = false \/ fs usch_glob_flags bad = MatchError ->
  glob_loop_lost fs mem k (pre ++ bad :: post)
  = k + length pre + (if mem (k + length pre) then 1 else 0).
Proof.
  induction pre as [|arg pre IH]; intros k Hpre Hmem Hbad Hfail.
  - cbn [app glob_loop_lost length] in *. rewrite Hbad.
    rewrite Nat.add_0_r in *.
    destruct (mem k); cbn [negb]; [|lia].
    destruct Hfail as [Hm|Hg]; [discriminate|].
    unfold glob. rewrite Hg. cbn. lia.
  - inversion Hpre as [|? ? [Hsep Hok] Hpre']; subst.
    cbn [app glob_loop_lost length]. rewrite Hsep.
    pose proof (Hmem 0 ltac:(cbn [length]; lia)) as Hk.
    rewrite Nat.add_0_r in Hk. rewrite Hk. cbn [negb].
    rewrite (glob_ok_status fs arg Hok). cbn [Z.eqb negb].
    rewrite (IH (S k)); [| exact Hpre' | | exact Hbad |].
    + replace (S k + length pre) with (k + S (length pre)) by lia. lia.
    + intros i Hi. replace (S k + i) with (k + S i) by lia.
      apply Hmem. cbn [length]. lia.
    + replace (S k + length pre) with (k + S (length pre)) by lia.
      exact Hfail.
Qed.

(** X2: when the arguments in front of an argument are expanded and
    that argument cannot get its list node allocated or its match
    fails in earnest, the whole expansion is given up:
    [priv_usch_globexpand] returns NULL, whatever the other arguments
    are.  The glob-list nodes built by then, one per argument in front
    and the one of the failing argument when it was allocated, are
    neither freed nor handed to the caller: they stay allocated for
    good.  [ustrexpv] then hands back its static empty vector; the
    arena, that is the stash and the blocks on it, is as before. *)
Theorem globexpand_failure_gives_nothing (fs : matcher) (mem : alloc_oracle)
    (pre : list cstr) (bad : cstr) (post : list cstr)
    (calloc_ok : bool) (p_ustash : option ustash) (h : heap) :
  Forall (expandable fs) pre ->
  (forall i, i < length pre -> mem i = true) ->
  strcmp_eq bad (lit "--") = false ->
  mem (length pre) = false \/ fs usch_glob_flags bad = MatchError ->
  priv_usch_globexpand fs mem (pre ++ bad :: post) = Done None
  /\ globexpand_lost_nodes fs mem (pre ++ bad :: post)
     = length pre + (if mem (length pre) then 1 else 0)
  /\ ustrexpv fs mem calloc_ok p_ustash h (Some (pre ++ bad :: post))
     = Done (Static emptyarr, p_ustash, h).
Proof.
  intros Hpre Hmem Hbad Hfail.
  assert (Hsep : Forall (fun arg => strcmp_eq arg (lit "--") = false) pre).
  { eapply Forall_impl; [exact Hpre|]. intros a [Ha _]. exact Ha. }
  assert (E : priv_usch_globexpand fs mem (pre ++ bad :: post) = Done None).
  { unfold priv_usch_globexpand.
    rewrite (glob_loop_aborts fs mem pre bad post 0 Hsep Hbad Hfail).
    reflexivity. }
  split; [exact E|]. split.
  - unfold globexpand_lost_nodes.
    exact (glob_loop_lost_at fs mem pre bad post 0 Hpre Hmem Hbad Hfail).
  - unfold ustrexpv. rewrite E. reflexivity.
Qed.

Lemma globexpand_failure_gives_nothing_witness :
  Forall (expandable fs_four) [lit "ls"; lit "a*"]
  /\ (forall i, i < length [lit "ls"; lit "a*"]
       -> (fun k => k <? 2) i = true)
  /\ strcmp_eq (lit "b*") (lit "--") = false
  /\ ((fun k => k <? 2) (length [lit "ls"; lit "a*"]) = false
      \/ fs_four usch_glob_flags (lit "b*") = MatchError)
  /\ priv_usch_globexpand fs_four (fun k => k <? 2)
       ([lit "ls"; lit "a*"] ++ lit "b*" :: [lit "--"; lit "t"]) = Done None
  /\ globexpand_lost_nodes fs_four (fun k => k <? 2)
       ([lit "ls"; lit "a*"] ++ lit "b*" :: [lit "--"; lit "t"]) = 2
  /\ ustrexpv fs_four (fun k => k <? 2) true (Some {| p_list := None |}) ∅
       (Some ([lit "ls"; lit "a*"] ++ lit "b*" :: [lit "--"; lit "t"]))
     = Done (Static emptyarr, Some {| p_list := None |}, ∅).
Proof.
  assert (H1 : Forall (expandable fs_four) [lit "ls"; lit "a*"]).
  { apply Forall_cons. split; [split; [reflexivity|discriminate]|].
    apply Forall_cons. split; [split; [reflexivity|discriminate]|].
    apply Forall_nil_2. }
  assert (H2 : forall i, i < length [lit "ls"; lit "a*"]
                         -> (fun k => k <? 2) i = true).
  { intros i Hi. apply Nat.ltb_lt. exact Hi. }
  split; [exact H1|]. split; [exact H2|]. split; [reflexivity|].
  split; [left; reflexivity|].
  exact (globexpand_failure_gives_nothing fs_four (fun k => k <? 2)
           [lit "ls"; lit "a*"] (lit "b*") [lit "--"; lit "t"] true
           (Some {| p_list := None |}) ∅
           H1 H2 eq_refl (or_introl eq_refl)).
Defined.

(** X3: in that case [priv_usch_cmd_arr] makes no system call at all
    (nothing is spawned, nothing is waited for) and returns status 0,
    the value that also stands for success. *)
Theorem cmd_arr_expansion_failure_is_silent (fs : matcher) (mem : alloc_oracle)
    (os : os_model) (capture : bool)
    (pre : list cstr) (bad : cstr) (post : list cstr) :
  Forall (fun arg => strcmp_eq arg (lit "--") = false) pre ->
  strcmp_eq bad (lit "--") = false ->
  mem (length pre) = false \/ fs usch_glob_flags bad = MatchError ->
  priv_usch_cmd_arr fs mem os capture (pre ++ bad :: post)
  = Done {| cmd_status := Returned 0%Z; cmd_events := []; cmd_out := None |}.
Proof.
  intros Hpre Hbad Hfail. unfold priv_usch_cmd_arr, priv_usch_globexpand.
  rewrite (glob_loop_aborts fs mem pre bad post 0 Hpre Hbad Hfail).
  reflexivity.
Qed.

Lemma cmd_arr_expansion_failure_is_silent_witness :
  Forall (fun arg => strcmp_eq arg (lit "--") = false) [lit "ls"]
  /\ strcmp_eq (lit "b*") (lit "--") = false
  /\ (mem_ok (length [lit "ls"]) = false
      \/ (fun _ _ => MatchError) usch_glob_flags (lit "b*") = MatchError)
  /\ priv_usch_cmd_arr (fun _ _ => MatchError) mem_ok os_example false
       ([lit "ls"] ++ lit "b*" :: [])
     = Done {| cmd_status := Returned 0%Z; cmd_events := [];
               cmd_out := None |}.
Proof.
  assert (H1 : Forall (fun arg => strcmp_eq arg (lit "--") = false) [lit "ls"]).
  { apply Forall_cons. split; [reflexivity|apply Forall_nil_2]. }
  split; [exact H1|]. split; [reflexivity|]. split; [right; reflexivity|].
  exact (cmd_arr_expansion_failure_is_silent (fun _ _ => MatchError) mem_ok
           os_example false [lit "ls"] (lit "b*") []
           H1 eq_refl (or_intror eq_refl)).
Defined.

End ExpansionCoverage.

Section LookupCoverage.

(** X4: a name that starts with ['/'] or ['.'] is never resolved by
    [priv_usch_cached_whereis]: whatever the search path holds, whether
    or not the file exists and whether or not memory is granted, the
    status is -1 and nothing is stored through [pp_dest]. *)
Theorem whereis_rooted_name_fails (fs_stat : cstr -> bool)
    (mem : alloc_oracle) (path : list cstr) (name : cstr) :
  starts_rooted name = true ->
  priv_usch_cached_whereis fs_stat mem path name = Done ((-1)%Z, None).
Proof.
  intros H. unfold priv_usch_cached_whereis.
  destruct name as [|c name]; [discriminate|]. cbn [starts_rooted] in H.
  rewrite H, last_slash_zeroed. cbn.
  destruct (mem 0), (mem 1); reflexivity.
Qed.

Lemma whereis_rooted_name_fails_witness :
  starts_rooted (lit "/usr/bin/ls") = true
  /\ stat_usr_bin_ls (lit "/usr/bin/ls") = true
  /\ priv_usch_cached_whereis stat_usr_bin_ls mem_ok [lit "/usr/bin"]
       (lit "/usr/bin/ls")
     = Done ((-1)%Z, None).
Proof.
  split; [reflexivity|]. split; [reflexivity|].
  exact (whereis_rooted_name_fails stat_usr_bin_ls mem_ok [lit "/usr/bin"]
           (lit "/usr/bin/ls") eq_refl).
Defined.

End LookupCoverage.

Section ReaperCoverage.

Lemma waitforall_loop_range (reports : list wait_ret) :
  match waitforall_loop reports with
  | Returned v => (-1 <= v <= 255)%Z
  | HostExit code => code = EXIT_FAILURE
  | Blocked => True
  end.
Proof.
  induction reports as [|[|status] reports IH]; cbn [waitforall_loop];
    [exact I|reflexivity|].
  destruct (WIFEXITED status) eqn:He; cbn [negb andb].
  - pose proof (WEXITSTATUS_range status). lia.
  - destruct (WIFSIGNALED status); cbn [negb]; [lia|exact IH].
Qed.

(** X8: whenever [priv_usch_waitforall] returns, its value is -1 or an
    exit code from 0 to 255, so the two cannot be confused; and the only
    code it ever ends the host process with is [EXIT_FAILURE]. *)
Theorem waitforall_result_range (kernel : Z -> list wait_ret) (pid : Z) :
  match priv_usch_waitforall kernel pid with
  | Returned v => (-1 <= v <= 255)%Z
  | HostExit code => code = EXIT_FAILURE
  | Blocked => True
  end.
Proof. apply waitforall_loop_range. Qed.

End ReaperCoverage.

Section StringTestCoverage.

Lemma strcmp_eq_iff (a b : cstr) : strcmp_eq a b = true <-> a = b.
Proof.
  revert b. induction a as [|x a IH]; intros [|y b]; cbn [strcmp_eq];
    try (split; [discriminate|discriminate]); [split; reflexivity|].
  rewrite andb_true_iff, Ascii.eqb_eq, IH. split.
  - intros [-> ->]. reflexivity.
  - intros E. injection E as -> ->. split; reflexivity.
Qed.

(** X9: [ustreq] answers 1 exactly when both pointers are non-NULL and
    the two strings are the same; a NULL on either side gives 0. *)
Theorem ustreq_iff_same_string (p_a p_b : option cstr) :
  ustreq p_a p_b = true <-> exists a, p_a = Some a /\ p_b = Some a.
Proof.
  destruct p_a as [a|], p_b as [b|]; cbn [ustreq].
  - rewrite strcmp_eq_iff. split.
    + intros ->. exists b. split; reflexivity.
    + intros (c & Ea & Eb). congruence.
  - split; [discriminate|]. intros (c & _ & Eb). discriminate.
  - split; [discriminate|]. intros (c & Ea & _). discriminate.
  - split; [discriminate|]. intros (c & Ea & _). discriminate.
Qed.

End StringTestCoverage.

Section StashCoverage.
Implicit Types (h : heap) (l : list addr) (a : addr).

Lemma push_fresh_chain (st : ustash) h (blk : priv_usch_stash_item) l :
  stash_chain h (p_list st) l ->
  stash_chain
    (alter (set_next (p_list st)) (calloc_addr h) (<[calloc_addr h := blk]> h))
    (Some (calloc_addr h)) (calloc_addr h :: l).
Proof.
  intros Hl. econstructor.
  - rewrite lookup_alter_eq, lookup_insert_eq. reflexivity.
  - cbn [set_next p_next fmap option_fmap option_map].
    apply (stash_chain_frame h); [exact Hl|].
    intros b Hb.
    assert (Hne : calloc_addr h <> b).
    { intros <-. destruct (stash_chain_live _ _ _ _ Hl Hb) as [it Hit].
      rewrite calloc_addr_fresh in Hit. discriminate. }
    rewrite lookup_alter_ne, lookup_insert_ne by exact Hne. reflexivity.
Qed.

Lemma release_pushed (st : ustash) h (blk : priv_usch_stash_item) l :
  stash_chain h (p_list st) l ->
  release (calloc_addr h :: l)
    (alter (set_next (p_list st)) (calloc_addr h) (<[calloc_addr h := blk]> h))
  = release l h.
Proof.
  intros Hl. apply map_eq. intros k. rewrite !lookup_release.
  destruct (decide (k = calloc_addr h)) as [->|Hne].
  - rewrite decide_True by left.
    destruct (decide (calloc_addr h ∈ l)); [reflexivity|].
    symmetry. apply calloc_addr_fresh.
  - rewrite lookup_alter_ne, lookup_insert_ne by congruence.
    destruct (decide (k ∈ l)) as [Hin|Hni].
    + rewrite decide_True by (right; exact Hin). reflexivity.
    + rewrite decide_False; [reflexivity|].
      intros [?|?]%elem_of_cons; [congruence|contradiction].
Qed.

(** The tail shared by the entry points, followed by [uclear]. *)
Lemma push_then_clear (st : ustash) h (blk : priv_usch_stash_item) l
    (fallback p : pointer) (p' : option ustash) h' :
  stash_chain h (p_list st) l ->
  match priv_usch_stash (Some st) (Some (calloc_addr h))
          (<[calloc_addr h := blk]> h) with
  | (status, p1, h1) =>
      if (status =? 0)%Z then (InBlock (calloc_addr h), p1, h1)
      else (fallback, p1, h1)
  end = (p, p', h') ->
  uclear p' h' = Done (Some {| p_list := None |}, release l h).
Proof.
  intros Hl Hcall. cbn [priv_usch_stash Z.eqb] in Hcall.
  injection Hcall as _ <- <-.
  rewrite (uclear_chain _ {| p_list := Some (calloc_addr h) |}
             (calloc_addr h :: l)).
  - rewrite (release_pushed st h blk l Hl). reflexivity.
  - cbn [p_list]. apply push_fresh_chain. exact Hl.
Qed.

(** X5: one [uclear] after a call of [ustrsplit], [ustrjoinv] or
    [ustrexpv] on a valid arena leaves exactly the heap that [uclear]
    before that call would have left: the block the call allocated is
    released with the rest of the list, so nothing the call allocated
    outlives the arena.  For [ustrexpv] this is about the calls whose
    expansion strands no glob-list node; an expansion given up midway
    leaves its nodes allocated, out of reach of [uclear]. *)
Theorem clear_after_entry_point_leaks_nothing (st : ustash) h l :
  stash_chain h (p_list st) l ->
  (forall p_in p_delims calloc_ok p p' h',
      ustrsplit (Some st) h p_in p_delims calloc_ok = (p, p', h') ->
      uclear p' h' = Done (Some {| p_list := None |}, release l h))
  /\ (forall pp_strings calloc_ok p p' h',
      ustrjoinv (Some st) h pp_strings calloc_ok = (p, p', h') ->
      uclear p' h' = Done (Some {| p_list := None |}, release l h))
  /\ (forall fs mem calloc_ok strs p p' h',
      globexpand_lost_nodes fs mem strs = 0 ->
      ustrexpv fs mem calloc_ok (Some st) h (Some strs) = Done (p, p', h') ->
      uclear p' h' = Done (Some {| p_list := None |}, release l h)).
Proof.
  intros Hl.
  assert (Hsame : uclear (Some st) h
                  = Done (Some {| p_list := None |}, release l h))
    by (apply uclear_chain; exact Hl).
  split; [|split].
  - intros p_in p_delims calloc_ok p p' h' Hcall. unfold ustrsplit in Hcall.
    destruct p_in as [text|]; [|injection Hcall as _ <- <-; exact Hsame].
    destruct p_delims as [delims|]; [|injection Hcall as _ <- <-; exact Hsame].
    destruct calloc_ok; cbn [negb] in Hcall;
      [|injection Hcall as _ <- <-; exact Hsame].
    cbv zeta in Hcall. cbn [priv_usch_stash Z.eqb] in Hcall.
    injection Hcall as _ <- <-.
    rewrite (uclear_chain _ {| p_list := Some (calloc_addr h) |}
               (calloc_addr h :: l)).
    + rewrite (release_pushed st h _ l Hl). reflexivity.
    + cbn [p_list]. apply push_fresh_chain. exact Hl.
  - intros pp_strings calloc_ok p p' h' Hcall. unfold ustrjoinv in Hcall.
    destruct pp_strings as [strs|];
      [|injection Hcall as _ <- <-; exact Hsame].
    destruct calloc_ok; cbn [negb] in Hcall;
      [|injection Hcall as _ <- <-; exact Hsame].
    cbv zeta in Hcall.
    match type of Hcall with
    | context [<[calloc_addr h := ?blk]> h] =>
        exact (push_then_clear st h blk l (Static emptystr) p p' h' Hl Hcall)
    end.
  - intros fs mem calloc_ok strs p p' h' _ Hcall.
    unfold ustrexpv in Hcall.
    destruct (priv_usch_globexpand fs mem strs) as [[[extmem items]|]| |];
      cbn [run_bind] in Hcall; try discriminate.
    + destruct (scan_vec extmem) as [ext| |];
        cbn [run_bind] in Hcall; try discriminate.
      destruct calloc_ok; cbn [negb] in Hcall.
      * cbv zeta in Hcall.
        match type of Hcall with
        | context [<[calloc_addr h := ?blk]> h] =>
            apply (push_then_clear st h blk l (Static emptyarr) p p' h' Hl)
        end.
        destruct (priv_usch_stash _ _ _) as [[status p1] h1].
        destruct (status =? 0)%Z; injection Hcall as <- <- <-; reflexivity.
      * injection Hcall as _ <- <-. exact Hsame.
    + injection Hcall as _ <- <-. exact Hsame.
Qed.

Lemma clear_after_entry_point_leaks_nothing_witness :
  stash_chain (∅ : heap) None []
  /\ uclear (snd (fst (ustrjoinv (Some {| p_list := None |}) ∅
                         (Some [lit "ab"; lit "c"]) true)))
       (snd (ustrjoinv (Some {| p_list := None |}) ∅
               (Some [lit "ab"; lit "c"]) true))
     = Done (Some {| p_list := None |}, release [] ∅).
Proof.
  split; [apply chain_nil|].
  destruct (clear_after_entry_point_leaks_nothing {| p_list := None |} ∅ []
              (chain_nil ∅)) as (_ & Hjoin & _).
  apply (Hjoin (Some [lit "ab"; lit "c"]) true
           (fst (fst (ustrjoinv (Some {| p_list := None |}) ∅
                        (Some [lit "ab"; lit "c"]) true)))).
  reflexivity.
Defined.

(** X6: on a present arena and with memory granted, [ustrjoinv] hands
    back a string equal to its argument strings put one after the
    other (the empty string for an empty vector). *)
Theorem ustrjoinv_is_concatenation (st : ustash) h (strs : list cstr) :
  NUL ∉ concat strs ->
  read_str (snd (ustrjoinv (Some st) h (Some strs) true))
    (fst (fst (ustrjoinv (Some st) h (Some strs) true)))
  = Some (concat strs).
Proof.
  intros Hn. pose proof (ustrjoinv_reads st h strs Hn) as H.
  destruct (ustrjoinv (Some st) h (Some strs) true) as [[q p'] h'].
  exact H.
Qed.

Lemma ustrjoinv_is_concatenation_witness :
  (NUL ∉ concat [lit "ab"; lit ""; lit "cd"])
  /\ read_str (snd (ustrjoinv (Some {| p_list := None |}) ∅
                      (Some [lit "ab"; lit ""; lit "cd"]) true))
       (fst (fst (ustrjoinv (Some {| p_list := None |}) ∅
                    (Some [lit "ab"; lit ""; lit "cd"]) true)))
     = Some (lit "abcd").
Proof.
  assert (H : NUL ∉ concat [lit "ab"; lit ""; lit "cd"]).
  { intros H. apply list_elem_of_In in H. cbn in H.
    repeat (destruct H as [H|H]; [discriminate H|]). exact H. }
  split; [exact H|].
  exact (ustrjoinv_is_concatenation {| p_list := None |} ∅
           [lit "ab"; lit ""; lit "cd"] H).
Defined.

(** X7: [ustrjoinv] never returns NULL: for a NULL vector, a refused
    allocation or a NULL stash it hands back its static empty string.
    In the first two cases nothing is allocated; with a NULL stash the
    block it filled stays allocated on no list, out of reach of every
    later [uclear]. *)
Theorem ustrjoinv_failure_gives_empty_string (p_ustash : option ustash) h
    (strs : list cstr) (calloc_ok : bool) :
  ustrjoinv p_ustash h None calloc_ok = (Static emptystr, p_ustash, h)
  /\ ustrjoinv p_ustash h (Some strs) false = (Static emptystr, p_ustash, h)
  /\ fst (ustrjoinv None h (Some strs) true) = (Static emptystr, None)
  /\ is_Some (snd (ustrjoinv None h (Some strs) true) !! calloc_addr h)
  /\ size (snd (ustrjoinv None h (Some strs) true)) = S (size h)
  /\ read_str h (Static emptystr) = Some [].
Proof.
  split; [reflexivity|]. split; [reflexivity|]. split; [reflexivity|].
  unfold ustrjoinv. cbn [negb priv_usch_stash Z.eqb snd]. split; [|split].
  - rewrite lookup_insert_eq. eauto.
  - apply map_size_insert_None. apply calloc_addr_fresh.
  - reflexivity.
Qed.

End StashCoverage.

Section TokenizerCoverage.
Implicit Types (ds text pre suf : cstr) (c : ascii).

Lemma delim_offs_set_app ds pre suf base :
  delim_offs_set ds (pre ++ suf) base
  = delim_offs_set ds pre base ++ delim_offs_set ds suf (base + length pre).
Proof.
  revert base. induction pre as [|c pre IH]; intros base; cbn [app delim_offs_set length].
  - f_equal. lia.
  - rewrite IH.
    replace (S base + length pre) with (base + S (length pre)) by lia.
    destruct (is_delim ds c); reflexivity.
Qed.

Lemma delim_offs_set_shift ds text b :
  delim_offs_set ds text (S b) = map S (delim_offs_set ds text b).
Proof.
  revert b. induction text as [|c text IH]; intros b; cbn [delim_offs_set map];
    [reflexivity|].
  destruct (is_delim ds c); cbn [map]; rewrite IH; reflexivity.
Qed.

Lemma delim_offs_set_snoc ds pre c :
  delim_offs_set ds (pre ++ [c]) 0
  = delim_offs_set ds pre 0 ++ (if is_delim ds c then [S (length pre)] else []).
Proof.
  rewrite delim_offs_set_app. cbn [delim_offs_set Nat.add].
  destruct (is_delim ds c); reflexivity.
Qed.

Lemma blank_set_length ds text : length (blank_set ds text) = length text.
Proof. unfold blank_set. apply length_map. Qed.

Lemma blank_set_snoc ds pre c :
  blank_set ds (pre ++ [c])
  = blank_set ds pre ++ [if is_delim ds c then NUL else c].
Proof. unfold blank_set. rewrite map_app. reflexivity. Qed.

Lemma count_matches_delim ds c n :
  n + (if is_delim ds c then 1 else 0) <= count_matches ds n c.
Proof.
  unfold count_matches, is_delim. revert n.
  induction ds as [|d ds IH]; intros n; cbn [foldl existsb]; [lia|].
  destruct (Ascii.eqb c d); cbn [orb].
  - pose proof (count_matches_mono ds c (S n)) as Hm.
    unfold count_matches in Hm. lia.
  - apply IH.
Qed.

Lemma count_slots_bound ds text : forall n b,
  n + length (delim_offs_set ds text b) <= foldl (count_matches ds) n text.
Proof.
  induction text as [|c text IH]; intros n b; cbn [foldl delim_offs_set length];
    [lia|].
  pose proof (count_matches_delim ds c n) as Hc.
  destruct (is_delim ds c); cbn [length];
    specialize (IH (count_matches ds n c) (S b)); lia.
Qed.

(** The inner loop at a byte [c]: one store if [c] is a delimiter,
    none otherwise, however often [c] occurs in the set. *)
Lemma split_step_set_one i ds : forall st c,
  NUL ∉ ds -> p_out st !! i = Some c ->
  split_step ds st i
  = if is_delim ds c
    then {| p_out := <[i := NUL]> (p_out st);
            pp_out := <[out_pos st := Some (S i)]> (pp_out st);
            out_pos := S (out_pos st) |}
    else st.
Proof.
  unfold split_step, is_delim.
  induction ds as [|d ds IH]; intros st c Hn Hp; cbn [foldl existsb];
    [reflexivity|].
  apply not_elem_of_cons in Hn as [Hd Hn].
  assert (E : split_inner i st d
              = if Ascii.eqb c d
                then {| p_out := <[i := NUL]> (p_out st);
                        pp_out := <[out_pos st := Some (S i)]> (pp_out st);
                        out_pos := S (out_pos st) |}
                else st)
    by (unfold split_inner; rewrite Hp; reflexivity).
  rewrite E. clear E. destruct (Ascii.eqb c d); cbn [orb].
  - apply split_inner_blanked; [exact Hn|]. cbn [p_out].
    apply list_lookup_insert_eq. apply lookup_lt_Some in Hp. exact Hp.
  - apply IH; assumption.
Qed.

Lemma split_step_set ds N pre c suf :
  NUL ∉ ds ->
  length (delim_offs_set ds (pre ++ [c]) 0) < N ->
  split_step ds (scan_state_set ds N pre (c :: suf)) (length pre)
  = scan_state_set ds N (pre ++ [c]) suf.
Proof.
  intros Hn HN. rewrite delim_offs_set_snoc in HN.
  rewrite (split_step_set_one (length pre) ds _ c Hn).
  2:{ unfold scan_state_set. cbn [p_out].
      change ((c :: suf) ++ [NUL]) with (c :: (suf ++ [NUL])).
      apply list_lookup_middle. symmetry. apply blank_set_length. }
  unfold scan_state_set. cbn [p_out pp_out out_pos].
  rewrite delim_offs_set_snoc, blank_set_snoc.
  change ((c :: suf) ++ [NUL]) with (c :: (suf ++ [NUL])).
  destruct (is_delim ds c) eqn:Ecd.
  - rewrite length_app in HN |- *. cbn [length] in HN |- *. f_equal.
    + rewrite insert_app_r_alt by (rewrite blank_set_length; lia).
      rewrite blank_set_length, Nat.sub_diag. cbn [insert list_insert].
      rewrite <- app_assoc. reflexivity.
    + set (offs := delim_offs_set ds pre 0) in *.
      replace (N - length offs) with (S (N - (length offs + 1))) by lia.
      cbn [replicate].
      rewrite insert_app_r_alt by (rewrite length_map; cbn [length]; lia).
      rewrite length_map. cbn [length]. rewrite Nat.sub_diag.
      cbn [insert list_insert].
      rewrite !map_cons, map_app. cbn [map app].
      rewrite <- app_assoc. reflexivity.
    + lia.
  - rewrite !app_nil_r. rewrite <- app_assoc. reflexivity.
Qed.

Lemma split_scan_set_from ds N : NUL ∉ ds -> forall suf pre,
  length (delim_offs_set ds (pre ++ suf) 0) < N ->
  foldl (split_step ds) (scan_state_set ds N pre suf)
    (seq (length pre) (length suf))
  = scan_state_set ds N (pre ++ suf) [].
Proof.
  intros Hn. induction suf as [|c suf IH]; intros pre HN.
  - rewrite app_nil_r. reflexivity.
  - assert (E : pre ++ c :: suf = (pre ++ [c]) ++ suf)
      by (rewrite <- app_assoc; reflexivity).
    rewrite E in HN |- *. cbn [length seq foldl].
    rewrite split_step_set; [|exact Hn|].
    + specialize (IH (pre ++ [c]) HN). rewrite length_app in IH.
      cbn [length] in IH.
      replace (length pre + 1) with (S (length pre)) in IH by lia.
      exact IH.
    + rewrite delim_offs_set_app in HN. rewrite length_app in HN. lia.
Qed.

Lemma vec_prefix_padded {A : Type} (l : list A) (k : nat) :
  vec_prefix (map Some l ++ replicate k None) = l.
Proof.
  induction l as [|x l IH]; cbn [map app vec_prefix].
  - destruct k; reflexivity.
  - rewrite IH. reflexivity.
Qed.

Lemma split_at_nonempty ds text : split_at ds text <> [].
Proof.
  destruct text as [|c text]; cbn [split_at]; [discriminate|].
  destruct (is_delim ds c); [discriminate|].
  destruct (split_at ds text); discriminate.
Qed.

Lemma read_slots_set ds text :
  NUL ∉ text ->
  map (cstr_at (blank_set ds text ++ [NUL])) (0 :: delim_offs_set ds text 0)
  = split_at ds text.
Proof.
  intros Hs. induction text as [|c text IH]; [reflexivity|].
  apply not_elem_of_cons in Hs as [Hc Hs]. specialize (IH Hs).
  cbn [delim_offs_set split_at blank_set map app] in *.
  rewrite delim_offs_set_shift.
  destruct (is_delim ds c) eqn:Ecd.
  - cbn [map]. rewrite map_map. unfold cstr_at at 1. cbn.
    f_equal. exact IH.
  - rewrite map_map.
    assert (Hn : Ascii.eqb c NUL = false) by (apply Ascii.eqb_neq; congruence).
    unfold cstr_at at 1. cbn [drop strlen]. rewrite Hn. cbn [take].
    destruct (split_at ds text) as [|p ps] eqn:E.
    + exfalso. exact (split_at_nonempty ds text E).
    + cbn [map] in IH. injection IH as IH0 IH1.
      f_equal; [f_equal; exact IH0|exact IH1].
Qed.

(** X10: for any delimiter set, repeated bytes in it included,
    [ustrsplit] hands back the pieces of the text between consecutive
    delimiter bytes, in order; an empty text gives one empty slot and
    neighbouring delimiters give empty slots. *)
Theorem ustrsplit_splits_at_every_delimiter (st : ustash) (h : heap)
    (text ds : cstr) :
  NUL ∉ text -> NUL ∉ ds ->
  read_vec (snd (ustrsplit (Some st) h (Some text) (Some ds) true))
    (fst (fst (ustrsplit (Some st) h (Some text) (Some ds) true)))
  = Some (split_at ds text).
Proof.
  intros Hs Hd. unfold ustrsplit. cbn [negb priv_usch_stash Z.eqb fst snd].
  assert (HN : length (delim_offs_set ds text 0) < count_slots text ds).
  { pose proof (count_slots_bound ds text 1 0). unfold count_slots. lia. }
  pose proof (split_scan_set_from ds (count_slots text ds) Hd text [] HN) as H.
  unfold scan_state_set in H at 1.
  cbn [app length delim_offs_set blank_set map] in H.
  rewrite Nat.sub_0_r in H. unfold split_scan.
  replace (count_slots text ds + 1) with (S (count_slots text ds)) by lia.
  cbn [replicate insert list_insert]. rewrite H. clear H.
  unfold scan_state_set. cbn [p_out pp_out read_vec].
  rewrite lookup_alter_eq, lookup_insert_eq.
  cbn [fmap option_fmap option_map set_next str_bytes str_vec].
  rewrite vec_prefix_padded, app_nil_l, (read_slots_set ds text Hs).
  reflexivity.
Qed.

Lemma ustrsplit_splits_at_every_delimiter_witness :
  (NUL ∉ lit "a,b;;c") /\ (NUL ∉ lit ",;,")
  /\ read_vec (snd (ustrsplit (Some {| p_list := None |}) ∅
                      (Some (lit "a,b;;c")) (Some (lit ",;,")) true))
       (fst (fst (ustrsplit (Some {| p_list := None |}) ∅
                    (Some (lit "a,b;;c")) (Some (lit ",;,")) true)))
     = Some [lit "a"; lit "b"; lit ""; lit "c"].
Proof.
  assert (H1 : NUL ∉ lit "a,b;;c").
  { intros H. apply list_elem_of_In in H. cbn in H.
    repeat (destruct H as [H|H]; [discriminate H|]). exact H. }
  assert (H2 : NUL ∉ lit ",;,").
  { intros H. apply list_elem_of_In in H. cbn in H.
    repeat (destruct H as [H|H]; [discriminate H|]). exact H. }
  split; [exact H1|]. split; [exact H2|].
  exact (ustrsplit_splits_at_every_delimiter {| p_list := None |} ∅
           (lit "a,b;;c") (lit ",;,") H1 H2).
Defined.

(** What the textbook split amounts to: one piece more than there are
    delimiter bytes, no delimiter byte inside a piece, and the pieces
    put together are the text without its delimiter bytes. *)
Lemma split_at_facts ds text :
  length (split_at ds text) = S (length (filter (fun c => is_delim ds c = true) text))
  /\ concat (split_at ds text) = filter (fun c => is_delim ds c <> true) text
  /\ Forall (Forall (fun c => is_delim ds c = false)) (split_at ds text).
Proof.
  induction text as [|c text (IHl & IHc & IHf)].
  - repeat split. repeat constructor.
  - cbn [split_at]. rewrite !filter_cons.
    destruct (is_delim ds c) eqn:E.
    + rewrite decide_True by reflexivity.
      rewrite decide_False by (intros H; apply H; reflexivity).
      cbn [length concat app]. repeat split; [lia|exact IHc|].
      constructor; [constructor|exact IHf].
    + rewrite decide_False by discriminate.
      rewrite decide_True by discriminate.
      destruct (split_at ds text) as [|p ps] eqn:Es.
      * exfalso. exact (split_at_nonempty ds text Es).
      * cbn [length concat app] in *. repeat split; [exact IHl|
          rewrite <- IHc; reflexivity|].
        inversion IHf; subst. constructor; [constructor; assumption|assumption].
Qed.

End TokenizerCoverage.

Section ExpvCoverage.

Lemma packed_total_len (ext : list cstr) : forall n,
  foldl (fun n x => n + (length x + 1)) n ext = n + length (packed ext).
Proof.
  unfold packed. induction ext as [|x ext IH]; intros n; cbn [foldl map concat].
  - cbn. lia.
  - rewrite IH, !length_app. cbn [length]. lia.
Qed.

Lemma expv_copy_fold (ext : list cstr) :
  forall (tbl : list (option nat)) (done : list ascii) (r : nat),
  length (packed ext) <= r ->
  foldl expv_copy (tbl, done ++ replicate r NUL, length done) ext
  = (tbl ++ map Some (packed_offsets ext (length done)),
     done ++ packed ext ++ replicate (r - length (packed ext)) NUL,
     length done + length (packed ext)).
Proof.
  induction ext as [|x ext IH]; intros tbl done r Hr.
  - cbn. rewrite app_nil_r, Nat.sub_0_r, Nat.add_0_r. reflexivity.
  - unfold packed in Hr |- *. cbn [map concat foldl packed_offsets] in Hr |- *.
    fold (packed ext) in Hr |- *.
    rewrite !length_app in Hr. cbn [length] in Hr.
    assert (E : expv_copy (tbl, done ++ replicate r NUL, length done) x
                = (tbl ++ [Some (length done)],
                   (done ++ x ++ [NUL]) ++ replicate (r - (length x + 1)) NUL,
                   length (done ++ x ++ [NUL]))).
    { unfold expv_copy. cbn [fst snd]. f_equal; [f_equal|].
      - pose proof (list_inserts_app_r x done (replicate r NUL) 0) as Hi.
        rewrite Nat.add_0_r in Hi. rewrite Hi. clear Hi.
        replace (replicate r NUL)
          with (replicate (length x) NUL ++ replicate (r - length x) NUL)
          by (rewrite <- replicate_add; f_equal; lia).
        rewrite list_inserts_0_r by (rewrite length_replicate; reflexivity).
        replace (r - length x) with (S (r - (length x + 1))) by lia.
        cbn [replicate]. rewrite <- !app_assoc. reflexivity.
      - rewrite !length_app. cbn [length]. lia. }
    rewrite E. clear E. rewrite IH by lia.
    rewrite !length_app. cbn [length map].
    rewrite <- !app_assoc. cbn [app].
    replace (r - (length x + 1) - length (packed ext))
      with (r - (length x + 1 + length (packed ext))) by lia.
    replace (length done + (length x + 1) + length (packed ext))
      with (length done + (length x + 1 + length (packed ext))) by lia.
    reflexivity.
Qed.

Lemma cstr_at_packed_head (pre x rest : list ascii) :
  NUL ∉ x -> cstr_at (pre ++ x ++ NUL :: rest) (length pre) = x.
Proof.
  intros Hx. unfold cstr_at. rewrite drop_app_length.
  rewrite strlen_nul_free by exact Hx. apply take_app_length.
Qed.

Lemma read_packed (ext : list cstr) : forall (done rest : list ascii),
  Forall (fun x => NUL ∉ x) ext ->
  map (cstr_at (done ++ packed ext ++ rest)) (packed_offsets ext (length done))
  = ext.
Proof.
  induction ext as [|x ext IH]; intros done rest Hall; [reflexivity|].
  inversion Hall as [|? ? Hx Hall']; subst.
  unfold packed. cbn [map concat packed_offsets]. fold (packed ext).
  f_equal.
  - rewrite <- !app_assoc. cbn [app]. apply cstr_at_packed_head. exact Hx.
  - replace (done ++ ((x ++ [NUL]) ++ packed ext) ++ rest)
      with ((done ++ x ++ [NUL]) ++ packed ext ++ rest)
      by (rewrite <- !app_assoc; reflexivity).
    replace (length done + (length x + 1)) with (length (done ++ x ++ [NUL]))
      by (rewrite !length_app; cbn [length]; lia).
    apply IH. exact Hall'.
Qed.

(** X11: on a present arena and with memory granted, the vector
    [ustrexpv] hands back holds the very strings its caller would have
    read off the result of [priv_usch_globexpand], copied into the one
    block it pushes on the arena. *)
Theorem ustrexpv_copies_expansion (fs : matcher) (mem : alloc_oracle)
    (st : ustash) (h : heap) (strs ext : list cstr) :
  expanded_sequence fs mem strs = Done (Some ext) ->
  Forall (fun x => NUL ∉ x) ext ->
  exists a p' h',
    ustrexpv fs mem true (Some st) h (Some strs) = Done (InBlock a, p', h')
    /\ read_vec h' (InBlock a) = Some ext.
Proof.
  intros Hexp Hall. unfold expanded_sequence in Hexp. unfold ustrexpv.
  destruct (priv_usch_globexpand fs mem strs) as [[[extmem items]|]| |];
    cbn [run_bind] in *; try discriminate.
  destruct (scan_vec extmem) as [ext'| |]; cbn [run_bind] in *;
    try discriminate.
  injection Hexp as ->. cbn [negb priv_usch_stash Z.eqb].
  eexists _, _, _. split; [reflexivity|].
  cbn [read_vec]. rewrite lookup_alter_eq, lookup_insert_eq.
  cbn [fmap option_fmap option_map set_next str_bytes str_vec].
  rewrite (packed_total_len ext 0). cbn [Nat.add].
  pose proof (expv_copy_fold ext [] [] (length (packed ext)) (Nat.le_refl _))
    as H.
  cbn [app length] in H. rewrite H. clear H. cbn [fst snd].
  change [None] with (replicate 1 (@None nat)).
  rewrite vec_prefix_padded.
  pose proof (read_packed ext [] (replicate (length (packed ext) - length (packed ext)) NUL) Hall)
    as Hr.
  cbn [app length] in Hr. rewrite Hr. reflexivity.
Qed.

Lemma ustrexpv_copies_expansion_witness :
  expanded_sequence fs_four mem_ok [lit "x"; lit "a*"]
  = Done (Some [lit "x"; lit "a1"; lit "a2"; lit "a3"; lit "a4"])
  /\ Forall (fun x => NUL ∉ x) [lit "x"; lit "a1"; lit "a2"; lit "a3"; lit "a4"]
  /\ exists a p' h',
       ustrexpv fs_four mem_ok true (Some {| p_list := None |}) ∅
         (Some [lit "x"; lit "a*"]) = Done (InBlock a, p', h')
       /\ read_vec h' (InBlock a)
          = Some [lit "x"; lit "a1"; lit "a2"; lit "a3"; lit "a4"].
Proof.
  assert (H : Forall (fun x => NUL ∉ x)
                [lit "x"; lit "a1"; lit "a2"; lit "a3"; lit "a4"]).
  { repeat (apply Forall_cons; split;
            [intros H; apply list_elem_of_In in H; cbn in H;
             repeat (destruct H as [H|H]; [discriminate H|]); exact H|]).
    apply Forall_nil_2. }
  split; [reflexivity|]. split; [exact H|].
  exact (ustrexpv_copies_expansion fs_four mem_ok {| p_list := None |} ∅
           [lit "x"; lit "a*"]
           [lit "x"; lit "a1"; lit "a2"; lit "a3"; lit "a4"] eq_refl H).
Defined.

End ExpvCoverage.

Section PrefixTestCoverage.

Lemma ustrneq_loop (a b : cstr) : forall n k (e : bool),
  k + n <= length a -> k + n <= length b ->
  foldl (fun equal i =>
           if negb (Ascii.eqb (nth i a NUL) (nth i b NUL))
           then false else equal) e (seq k n) = true
  <-> e = true /\ take n (drop k a) = take n (drop k b).
Proof.
  induction n as [|n IH]; intros k e Ha Hb.
  - cbn [seq foldl take]. split; [intros ->; split; reflexivity|intros [-> _]; reflexivity].
  - cbn [seq foldl]. rewrite (IH (S k)) by lia.
    destruct (lookup_lt_is_Some_2 a k) as [x Hx]; [lia|].
    destruct (lookup_lt_is_Some_2 b k) as [y Hy]; [lia|].
    rewrite (nth_lookup_Some a k NUL x Hx), (nth_lookup_Some b k NUL y Hy).
    rewrite (drop_S a x k Hx), (drop_S b y k Hy). cbn [take].
    destruct (Ascii.eqb x y) eqn:E; cbn [negb].
    + apply Ascii.eqb_eq in E. subst y. split.
      * intros [-> ->]. split; reflexivity.
      * intros [-> Et]. injection Et as Et. split; [reflexivity|exact Et].
    + apply Ascii.eqb_neq in E. split.
      * intros [? _]. discriminate.
      * intros [_ Et]. injection Et as Ex _. contradiction.
Qed.

(** X12: [ustrneq] answers 1 exactly when both pointers are non-NULL,
    [len] is not 0, both strings hold at least [len] bytes, and their
    first [len] bytes agree. *)
Theorem ustrneq_iff_common_prefix (p_a p_b : option cstr) (len : nat) :
  ustrneq p_a p_b len = true
  <-> exists a b, p_a = Some a /\ p_b = Some b /\ 0 < len
                  /\ len <= length a /\ len <= length b
                  /\ take len a = take len b.
Proof.
  destruct p_a as [a|], p_b as [b|]; cbn [ustrneq];
    try (split; [discriminate|intros (? & ? & ? & ? & _); discriminate]).
  destruct (len =? 0) eqn:E0.
  { apply Nat.eqb_eq in E0. split; [discriminate|].
    intros (? & ? & _ & _ & Hl & _). lia. }
  apply Nat.eqb_neq in E0.
  destruct (length a <? len) eqn:Ea; cbn [orb].
  { apply Nat.ltb_lt in Ea. split; [discriminate|].
    intros (a' & ? & Ea' & _ & _ & Hl & _). injection Ea' as <-. lia. }
  destruct (length b <? len) eqn:Eb.
  { apply Nat.ltb_lt in Eb. split; [discriminate|].
    intros (? & b' & _ & Eb' & _ & _ & Hl & _). injection Eb' as <-. lia. }
  apply Nat.ltb_ge in Ea, Eb.
  rewrite (ustrneq_loop a b len 0 true) by lia. rewrite !drop_0. split.
  - intros [_ Et]. exists a, b. repeat split; try assumption; lia.
  - intros (a' & b' & Ea' & Eb' & _ & _ & _ & Et).
    injection Ea' as <-. injection Eb' as <-. split; [reflexivity|exact Et].
Qed.

End PrefixTestCoverage.

Section FrontEndCoverage.

Lemma shift_loop (x : option cstr) (l : list (option cstr)) : forall k,
  k <= length l ->
  foldl (fun args i => <[i := slot args (S i)]> args) (x :: l) (seq 0 k)
  = take k l ++ drop k (x :: l).
Proof.
  induction k as [|k IH]; intros Hk; [reflexivity|].
  rewrite seq_S, foldl_app, IH by lia. cbn [Nat.add foldl].
  destruct (lookup_lt_is_Some_2 l k) as [y Hy]; [lia|].
  assert (Hlen : length (take k l) = k) by (rewrite length_take; lia).
  assert (Hs : slot (take k l ++ drop k (x :: l)) (S k) = y).
  { unfold slot. rewrite lookup_app_r by lia.
    rewrite Hlen, lookup_drop.
    replace (k + (S k - k)) with (S k) by lia.
    change ((x :: l) !! S k) with (l !! k).
    rewrite Hy. reflexivity. }
  rewrite Hs.
  rewrite insert_app_r_alt by lia.
  rewrite Hlen, Nat.sub_diag.
  assert (Hd : exists z, drop k (x :: l) = z :: drop k l).
  { destruct k as [|k']; [exists x; reflexivity|].
    destruct (lookup_lt_is_Some_2 l k') as [z Hz]; [lia|].
    exists z. cbn [drop]. apply drop_S. exact Hz. }
  destruct Hd as [z ->]. cbn [insert list_insert].
  rewrite (take_S_r l k y Hy), <- app_assoc. reflexivity.
Qed.

Lemma shift_args_drops_first (x : option cstr) (l : list (option cstr)) :
  shift_args (x :: l) = Done (l ++ [None]).
Proof.
  unfold shift_args. cbn [length]. rewrite shift_loop by lia.
  rewrite take_ge by lia.
  assert (Hd : exists z, drop (length l) (x :: l) = [z]).
  { clear. revert x. induction l as [|y l IH]; intros x; [exists x; reflexivity|].
    cbn [length drop]. apply IH. }
  destruct Hd as [z ->].
  rewrite insert_app_r_alt by lia. rewrite Nat.sub_diag. reflexivity.
Qed.

Lemma vec_prefix_terminated {A : Type} (l : list A) :
  vec_prefix (map Some l ++ [None]) = l.
Proof. change [None] with (replicate 1 (@None A)). apply vec_prefix_padded. Qed.

Lemma strings_of_some (l : list cstr) : strings_of (map Some l) = Done l.
Proof.
  induction l as [|x l IH]; [reflexivity|].
  cbn [map strings_of]. rewrite IH. reflexivity.
Qed.

(** X13: the variadic front ends drop the leading NULL the macros put
    in front of the arguments and hand the arguments, in order, to the
    array functions: [ustrjoin], [ustrexp] and [ucmd] on the arguments
    behave as [ustrjoinv], [ustrexpv] and [priv_usch_cmd_arr] on the
    vector of those arguments. *)
Theorem front_ends_pass_arguments_on (strs : list cstr) :
  (forall p_stash h calloc_ok,
      priv_ustrjoin_impl p_stash h (None :: map Some strs) calloc_ok
      = Done (ustrjoinv p_stash h (Some strs) calloc_ok))
  /\ (forall fs mem calloc_ok p_stash h,
      priv_ustrexp_impl fs mem calloc_ok p_stash h (None :: map Some strs)
      = ustrexpv fs mem calloc_ok p_stash h (Some strs))
  /\ (forall fs mem os,
      priv_ucmd_impl fs mem os (None :: map Some strs)
      = priv_usch_cmd_arr fs mem os false strs).
Proof.
  split; [|split].
  - intros. unfold priv_ustrjoin_impl.
    rewrite shift_args_drops_first. cbn [run_bind].
    rewrite vec_prefix_terminated. reflexivity.
  - intros. unfold priv_ustrexp_impl.
    rewrite shift_args_drops_first. cbn [run_bind].
    rewrite vec_prefix_terminated. reflexivity.
  - intros. unfold priv_ucmd_impl.
    rewrite shift_args_drops_first. cbn [run_bind length].
    replace (S (length (map Some strs)) - 1) with (length (map Some strs))
      by lia.
    rewrite take_app_length, strings_of_some. reflexivity.
Qed.

End FrontEndCoverage.

Section DirnameCoverage.

Lemma last_slash_fold_plain (l : list ascii) : forall (a k : Z),
  "/"%char ∉ l ->
  foldl (fun st c =>
           ((if Ascii.eqb c "/" then snd st else fst st), (snd st + 1)%Z))
    (a, k) l
  = (a, (k + Z.of_nat (length l))%Z).
Proof.
  induction l as [|c l IH]; intros a k Hn.
  - cbn. f_equal. lia.
  - apply not_elem_of_cons in Hn as [Hc Hn]. cbn [foldl fst snd].
    assert (E : Ascii.eqb c "/" = false) by (apply Ascii.eqb_neq; congruence).
    rewrite E, IH by exact Hn. cbn [length]. f_equal. lia.
Qed.

Lemma last_slash_fold_index (l : list ascii) : forall (a k : Z),
  snd (foldl (fun st c =>
                ((if Ascii.eqb c "/" then snd st else fst st), (snd st + 1)%Z))
         (a, k) l)
  = (k + Z.of_nat (length l))%Z.
Proof.
  induction l as [|c l IH]; intros a k.
  - cbn. lia.
  - cbn [foldl fst snd]. rewrite IH. cbn [length]. lia.
Qed.

Lemma last_slash_none (s : list ascii) :
  "/"%char ∉ s -> last_slash s = (-1)%Z.
Proof.
  intros Hn. unfold last_slash. rewrite last_slash_fold_plain by exact Hn.
  reflexivity.
Qed.

Lemma last_slash_split (d b : list ascii) :
  "/"%char ∉ b -> last_slash (d ++ "/"%char :: b) = Z.of_nat (length d).
Proof.
  intros Hn. unfold last_slash. rewrite foldl_app.
  pose proof (last_slash_fold_index d (-1) 0) as Hi.
  destruct (foldl _ ((-1)%Z, 0%Z) d) as [a k]. cbn [snd] in Hi. subst k.
  cbn [foldl fst snd]. change (Ascii.eqb "/" "/") with true.
  cbn iota. rewrite last_slash_fold_plain by exact Hn. cbn [fst]. lia.
Qed.

Lemma helper_push_present (fallback : helper_static) (free : bool)
    (st : ustash) (h : heap) (bytes : list ascii) :
  helper_push fallback free (Some st) h bytes
  = (HBlock (calloc_addr h), Some {| p_list := Some (calloc_addr h) |},
     alter (set_next (p_list st)) (calloc_addr h)
       (<[calloc_addr h := {| p_next := None; error := 0; str_vec := [];
                              str_bytes := bytes |}]> h)).
Proof. reflexivity. Qed.

Lemma read_helper_pushed (st : ustash) (h : heap) (s rest : list ascii) :
  NUL ∉ s ->
  read_helper
    (alter (set_next (p_list st)) (calloc_addr h)
       (<[calloc_addr h := {| p_next := None; error := 0; str_vec := [];
                              str_bytes := s ++ NUL :: rest |}]> h))
    (HBlock (calloc_addr h))
  = Some s.
Proof.
  intros Hs. cbn [read_helper]. rewrite lookup_alter_eq, lookup_insert_eq.
  cbn [fmap option_fmap option_map set_next str_bytes].
  rewrite cstr_at_nul_free by exact Hs. reflexivity.
Qed.

(** X14: for a path [d/b] whose last ['/'] stands behind [d],
    [udirname] hands back [d] itself, in a block it pushes on the arena
    ([a/b/c] gives [a/b], and so does [a/b/]); when that ['/'] is the
    first byte it hands back ["/"].  This needs at least one byte of
    slack behind the bytes asked for, which the struct layout gives. *)
Theorem udirname_cuts_at_last_slash (slack : nat) (st : ustash) (h : heap)
    (d b : cstr) :
  1 <= slack -> NUL ∉ d -> "/"%char ∉ b ->
  exists a h',
    udirname slack true (Some st) h (Some (d ++ "/"%char :: b))
    = Done (HBlock a, Some {| p_list := Some a |}, h')
    /\ read_helper h' (HBlock a)
       = Some (match d with [] => lit "/" | _ => d end).
Proof.
  intros Hslack Hd Hb. unfold udirname.
  pose proof (last_slash_split d b Hb) as Hls.
  destruct d as [|x d'].
  - cbn [app] in *. rewrite Hls. cbn [length Z.of_nat Z.eqb negb].
    unfold store. cbn [replicate length Nat.add Nat.ltb Nat.leb].
    cbn [run_bind insert list_insert length Nat.ltb Nat.leb].
    rewrite helper_push_present. eexists _, _. split; [reflexivity|].
    apply (read_helper_pushed st h (lit "/") (replicate slack NUL)).
    intros H. apply list_elem_of_In in H. cbn in H.
    destruct H as [H|H]; [discriminate H|exact H].
  - remember (x :: d') as dd eqn:Edd.
    assert (Hlen : 0 < length dd) by (subst dd; cbn [length]; lia).
    replace (match dd with [] => lit "/" | _ :: _ => dd end) with dd
      by (subst dd; reflexivity).
    assert (Hs : exists y s', dd ++ "/"%char :: b = y :: s')
      by (subst dd; eexists _, _; reflexivity).
    destruct Hs as (y & s' & Es). rewrite Es. rewrite <- Es.
    rewrite Hls.
    assert (E0 : (Z.of_nat (length dd) =? 0)%Z = false)
      by (apply Z.eqb_neq; lia).
    assert (E1 : (0 <? Z.of_nat (length dd))%Z = true)
      by (apply Z.ltb_lt; lia).
    rewrite E0, E1. cbn [negb]. rewrite Nat2Z.id, take_app_length.
    replace (replicate (length dd + slack) NUL)
      with (replicate (length dd) NUL ++ replicate slack NUL)
      by (rewrite <- replicate_add; reflexivity).
    rewrite list_inserts_0_r by (rewrite length_replicate; reflexivity).
    unfold store.
    assert (Hlt : Nat.ltb (length dd) (length (dd ++ replicate slack NUL)) = true)
      by (apply Nat.ltb_lt; rewrite length_app, length_replicate; lia).
    rewrite Hlt. cbn [run_bind].
    rewrite insert_app_r_alt by lia. rewrite Nat.sub_diag, insert_replicate.
    rewrite helper_push_present. eexists _, _. split; [reflexivity|].
    destruct slack as [|k]; [lia|]. cbn [replicate].
    apply read_helper_pushed. exact Hd.
Qed.

Lemma udirname_cuts_at_last_slash_witness :
  1 <= 7 /\ (NUL ∉ lit "usr/lib") /\ ("/"%char ∉ lit "x.so")
  /\ exists a h',
       udirname 7 true (Some {| p_list := None |}) ∅
         (Some (lit "usr/lib" ++ "/"%char :: lit "x.so"))
       = Done (HBlock a, Some {| p_list := Some a |}, h')
       /\ read_helper h' (HBlock a) = Some (lit "usr/lib").
Proof.
  assert (H1 : NUL ∉ lit "usr/lib").
  { intros H. apply list_elem_of_In in H. cbn in H.
    repeat (destruct H as [H|H]; [discriminate H|]). exact H. }
  assert (H2 : "/"%char ∉ lit "x.so").
  { intros H. apply list_elem_of_In in H. cbn in H.
    repeat (destruct H as [H|H]; [discriminate H|]). exact H. }
  split; [lia|]. split; [exact H1|]. split; [exact H2|].
  exact (udirname_cuts_at_last_slash 7 {| p_list := None |} ∅
           (lit "usr/lib") (lit "x.so") (le_S_n _ _ (le_n_S _ _ (Nat.le_add_l 1 6))) H1 H2).
Defined.

(** X15: [udirname] allocates nothing and hands back a static string
    for NULL and for the empty string (the empty string) and for a path
    without ['/'] (the string ["."]); and with a NULL stash it frees the
    block it filled and hands back the empty string, leaving the heap as
    it was. *)
Theorem udirname_static_results (slack : nat) (calloc_ok : bool)
    (p_ustash : option ustash) (h : heap) :
  udirname slack calloc_ok p_ustash h None
  = Done (HStatic dir_emptystr, p_ustash, h)
  /\ udirname slack calloc_ok p_ustash h (Some [])
     = Done (HStatic dir_emptystr, p_ustash, h)
  /\ (forall s, s <> [] -> "/"%char ∉ s ->
      udirname slack calloc_ok p_ustash h (Some s)
      = Done (HStatic dir_dotstr, p_ustash, h))
  /\ (forall d b, 1 <= slack -> "/"%char ∉ b ->
      udirname slack true None h (Some (d ++ "/"%char :: b))
      = Done (HStatic dir_emptystr, None, h))
  /\ read_helper h (HStatic dir_emptystr) = Some []
  /\ read_helper h (HStatic dir_dotstr) = Some (lit ".").
Proof.
  split; [reflexivity|]. split; [reflexivity|]. split; [|split].
  - intros s Hne Hn. unfold udirname. destruct s as [|c s]; [congruence|].
    rewrite (last_slash_none _ Hn). reflexivity.
  - intros d b Hslack Hb. unfold udirname.
    pose proof (last_slash_split d b Hb) as Hls.
    assert (Hfree : forall bytes,
               helper_push dir_emptystr true None h bytes
               = (HStatic dir_emptystr, None, h)).
    { intros bytes. unfold helper_push. cbn [priv_usch_stash Z.eqb].
      rewrite delete_insert_eq, delete_id by apply calloc_addr_fresh.
      reflexivity. }
    destruct d as [|x d'].
    + cbn [app] in *. rewrite Hls. cbn [length Z.of_nat Z.eqb negb].
      unfold store. cbn [replicate length Nat.add Nat.ltb Nat.leb].
      cbn [run_bind insert list_insert length Nat.ltb Nat.leb].
      rewrite Hfree. reflexivity.
    + remember (x :: d') as dd eqn:Edd.
      assert (Hlen : 0 < length dd) by (subst dd; cbn [length]; lia).
      assert (Hs : exists y s', dd ++ "/"%char :: b = y :: s')
        by (subst dd; eexists _, _; reflexivity).
      destruct Hs as (y & s' & Es). rewrite Es. rewrite <- Es.
      rewrite Hls.
      assert (E0 : (Z.of_nat (length dd) =? 0)%Z = false)
        by (apply Z.eqb_neq; lia).
      assert (E1 : (0 <? Z.of_nat (length dd))%Z = true)
        by (apply Z.ltb_lt; lia).
      rewrite E0, E1. cbn [negb]. rewrite Nat2Z.id.
      unfold store. rewrite length_inserts, length_replicate.
      assert (Hlt : Nat.ltb (length dd) (length dd + slack) = true)
        by (apply Nat.ltb_lt; lia).
      rewrite Hlt. cbn [run_bind]. rewrite Hfree. reflexivity.
  - split; reflexivity.
Qed.

End DirnameCoverage.

Section TrimCoverage.

Lemma leading_spaces_le (s : cstr) : leading_spaces s <= length s.
Proof.
  induction s as [|c s IH]; cbn [leading_spaces length]; [lia|].
  destruct (Ascii.eqb c " "); lia.
Qed.

Lemma leading_spaces_padded (a : nat) (core : cstr) :
  head core <> Some " "%char -> core <> [] ->
  forall rest, leading_spaces (replicate a " "%char ++ core ++ rest) = a.
Proof.
  intros Hh Hne rest. induction a as [|a IH].
  - destruct core as [|c core]; [congruence|]. cbn [replicate app leading_spaces].
    assert (E : Ascii.eqb c " " = false).
    { apply Ascii.eqb_neq. intros ->. apply Hh. reflexivity. }
    rewrite E. reflexivity.
  - cbn [replicate app leading_spaces]. change (Ascii.eqb " " " ") with true.
    cbn iota. rewrite IH. reflexivity.
Qed.

(** The backward loop stops on the last byte that is not a space. *)
Lemma trim_back_stops (P : cstr) (y : ascii) (b start : nat) :
  y <> " "%char -> start <= length P ->
  forall j, j <= b ->
    trim_back (P ++ [y] ++ replicate b " "%char) start (length P + j)
    = length P.
Proof.
  intros Hy Hstart. induction j as [|j IH]; intros Hj.
  - rewrite Nat.add_0_r. destruct (length P) as [|p] eqn:Ep; [reflexivity|].
    cbn [trim_back].
    rewrite (nth_lookup_Some _ (S p) NUL y)
      by (rewrite <- Ep; apply list_lookup_middle; reflexivity).
    assert (E : Ascii.eqb y " " = false) by (apply Ascii.eqb_neq; exact Hy).
    rewrite E. reflexivity.
  - replace (length P + S j) with (S (length P + j)) by lia.
    cbn [trim_back].
    rewrite (nth_lookup_Some _ (S (length P + j)) NUL " "%char).
    + change (Ascii.eqb " " " ") with true.
      assert (E : Nat.ltb start (S (length P + j)) = true)
        by (apply Nat.ltb_lt; lia).
      rewrite E. cbn [andb]. apply IH. lia.
    + rewrite lookup_app_r by lia.
      replace (S (length P + j) - length P) with (S j) by lia.
      cbn [app lookup list_lookup].
      change ((y :: replicate b " "%char) !! S j)
        with (replicate b " "%char !! j).
      apply lookup_replicate_2. lia.
Qed.

Lemma trim_back_lower (s : cstr) (start : nat) : forall i,
  Nat.min i start <= trim_back s start i.
Proof.
  induction i as [|i IH]; cbn [trim_back]; [lia|].
  destruct (Ascii.eqb (nth (S i) s NUL) " "); cbn [andb]; [|lia].
  destruct (start <? S i) eqn:E; [|lia].
  apply Nat.ltb_lt in E. lia.
Qed.

(** X16: for a string made of at most [slack] spaces, a core that
    neither starts nor ends with a space, and any number of spaces after
    it, [ustrtrim] hands back the core, in a block it pushes on the
    arena; spaces inside the core stay. *)
Theorem ustrtrim_strips_spaces (slack : nat) (st : ustash) (h : heap)
    (a b : nat) (core : cstr) (y : ascii) :
  a <= slack -> NUL ∉ core ->
  head core <> Some " "%char -> last core = Some y -> y <> " "%char ->
  exists blk h',
    ustrtrim slack true (Some st) h
      (Some (replicate a " "%char ++ core ++ replicate b " "%char))
    = Done (HBlock blk, Some {| p_list := Some blk |}, h')
    /\ read_helper h' (HBlock blk) = Some core.
Proof.
  intros Ha Hn Hh Hl Hy. unfold ustrtrim.
  apply last_Some in Hl as [cpre Ec].
  assert (Hne : core <> []) by (subst core; destruct cpre; discriminate).
  rewrite (leading_spaces_padded a core Hh Hne).
  set (s := replicate a " "%char ++ core ++ replicate b " "%char).
  assert (Es : s = (replicate a " "%char ++ cpre) ++ [y] ++ replicate b " "%char).
  { unfold s. subst core. rewrite <- !app_assoc. reflexivity. }
  assert (HP : length (replicate a " "%char ++ cpre) = a + length cpre)
    by (rewrite length_app, length_replicate; reflexivity).
  assert (Hlen : length s = S (a + length cpre + b)).
  { rewrite Es, !length_app, !length_replicate. cbn [length]. lia. }
  rewrite Hlen.
  assert (Htb : trim_back s a (a + length cpre + b) = a + length cpre).
  { rewrite Es, <- HP.
    apply (trim_back_stops (replicate a " "%char ++ cpre) y b a Hy); lia. }
  rewrite Htb. cbn [negb].
  assert (Hcl : length core = S (length cpre))
    by (subst core; rewrite length_app; cbn [length]; lia).
  replace (S (a + length cpre) - a) with (length core) by lia.
  assert (Htake : take (length core) (drop a s) = core).
  { unfold s. rewrite <- (length_replicate a " "%char) at 1.
    rewrite drop_app_length. apply take_app_length. }
  rewrite Htake.
  replace (replicate (length core + 1 + slack) NUL)
    with (replicate (length core) NUL ++ replicate (S slack) NUL)
    by (rewrite <- replicate_add; f_equal; lia).
  rewrite list_inserts_0_r by (rewrite length_replicate; reflexivity).
  unfold store.
  assert (Hlt : Nat.ltb (S (a + length cpre))
                  (length (core ++ replicate (S slack) NUL)) = true)
    by (apply Nat.ltb_lt; rewrite length_app, length_replicate; lia).
  rewrite Hlt. cbn [run_bind].
  rewrite insert_app_r_alt by lia. rewrite insert_replicate.
  rewrite helper_push_present. eexists _, _. split; [reflexivity|].
  cbn [replicate]. apply read_helper_pushed. exact Hn.
Qed.

Lemma ustrtrim_strips_spaces_witness :
  2 <= 7 /\ (NUL ∉ lit "ab c")
  /\ head (lit "ab c") <> Some " "%char
  /\ last (lit "ab c") = Some "c"%char /\ "c"%char <> " "%char
  /\ exists blk h',
       ustrtrim 7 true (Some {| p_list := None |}) ∅
         (Some (replicate 2 " "%char ++ lit "ab c" ++ replicate 3 " "%char))
       = Done (HBlock blk, Some {| p_list := Some blk |}, h')
       /\ read_helper h' (HBlock blk) = Some (lit "ab c").
Proof.
  assert (H1 : NUL ∉ lit "ab c").
  { intros H. apply list_elem_of_In in H. cbn in H.
    repeat (destruct H as [H|H]; [discriminate H|]). exact H. }
  assert (H2 : head (lit "ab c") <> Some " "%char) by discriminate.
  assert (H3 : "c"%char <> " "%char) by discriminate.
  assert (H0 : 2 <= 7) by lia.
  split; [exact H0|]. split; [exact H1|]. split; [exact H2|].
  split; [reflexivity|]. split; [exact H3|].
  exact (ustrtrim_strips_spaces 7 {| p_list := None |} ∅ 2 3 (lit "ab c")
           "c"%char H0 H1 H2 eq_refl H3).
Defined.

(** X17: [ustrtrim] leaves its buffers in two cases.  On the empty
    string it reads the byte in front of the string.  On a string with
    more leading spaces than the block has slack bytes it stores the
    terminator at index [end] of a block that has only
    [end - start + 1 + slack] bytes for the string, whatever follows the
    spaces. *)
Theorem ustrtrim_out_of_bounds (slack : nat) (calloc_ok : bool)
    (p_ustash : option ustash) (h : heap) (s : cstr) :
  slack < leading_spaces s ->
  ustrtrim slack calloc_ok p_ustash h (Some s) = Fault
  /\ ustrtrim slack calloc_ok p_ustash h (Some []) = Fault.
Proof.
  intros Hs. split; [|reflexivity]. unfold ustrtrim.
  pose proof (leading_spaces_le s) as Hle.
  destruct (length s) as [|m] eqn:Em; [reflexivity|].
  destruct calloc_ok; cbn [negb]; [|reflexivity].
  pose proof (trim_back_lower s (leading_spaces s) m) as Hlow.
  unfold store. rewrite length_inserts, length_replicate.
  assert (E : Nat.ltb (S (trim_back s (leading_spaces s) m))
                (S (trim_back s (leading_spaces s) m) - leading_spaces s
                 + 1 + slack) = false)
    by (apply Nat.ltb_ge; lia).
  rewrite E. reflexivity.
Qed.

Lemma ustrtrim_out_of_bounds_witness :
  7 < leading_spaces (replicate 8 " "%char ++ lit "x")
  /\ ustrtrim 7 true (Some {| p_list := None |}) ∅
       (Some (replicate 8 " "%char ++ lit "x")) = Fault.
Proof.
  assert (H : 7 < leading_spaces (replicate 8 " "%char ++ lit "x"))
    by (cbn; lia).
  split; [exact H|].
  exact (proj1 (ustrtrim_out_of_bounds 7 true (Some {| p_list := None |}) ∅
                  (replicate 8 " "%char ++ lit "x") H)).
Defined.

End TrimCoverage.

Section PipelineCoverage.

Lemma vec_prefix_stops {A : Type} (l : list A) (rest : list (option A)) :
  vec_prefix (map Some l ++ None :: rest) = l.
Proof.
  induction l as [|x l IH]; [reflexivity|].
  cbn [map app vec_prefix]. rewrite IH. reflexivity.
Qed.

Lemma forallb_non_null_some {A : Type} (l : list A) :
  forallb non_null (map Some l) = true.
Proof. induction l as [|x l IH]; [reflexivity|exact IH]. Qed.

Lemma forallb_non_null_gap {A : Type} (l : list A) (rest : list (option A)) :
  forallb non_null (map Some l ++ None :: rest) = false.
Proof. induction l as [|x l IH]; [reflexivity|exact IH]. Qed.

Lemma seg_flat_cons (x : list cstr) (rest : list (list cstr)) :
  rest <> [] -> seg_flat (x :: rest) = map Some x ++ None :: seg_flat rest.
Proof. destruct rest; [congruence|reflexivity]. Qed.

Lemma seg_flat_length_pos (stages : list (list cstr)) :
  stages <> [] -> Forall (fun x => x <> []) stages ->
  length stages <= length (seg_flat stages).
Proof.
  induction stages as [|x rest IH]; intros Hne Hall; [congruence|].
  inversion Hall as [|? ? Hx Hall']; subst.
  assert (Hlx : 0 < length x) by (destruct x; [congruence|cbn; lia]).
  destruct rest as [|y rest'].
  - cbn [seg_flat length]. rewrite length_map. lia.
  - rewrite seg_flat_cons by discriminate.
    rewrite length_app, length_map. cbn [length] in *.
    specialize (IH ltac:(discriminate) Hall'). lia.
Qed.

(** One call of [priv_usch_run] on a stage with arguments, when the
    capture buffer, if one is asked for, is granted. *)
Lemma priv_usch_run_stage (os : os_model) (x : list cstr) (first last
    capture : bool) (st : exec_state) :
  x <> [] ->
  (capture && last = true -> os_calloc os (ex_num_calls st) = true) ->
  priv_usch_run os x (ex_input st) first last capture st
  = (os_pipe_read os (ex_num_calls st),
     {| ex_input := ex_input st;
        ex_child_pid := os_fork os (ex_num_calls st);
        ex_num_calls := S (ex_num_calls st);
        ex_out := if capture
                  then (if last
                        then Some (strip_newline
                                     (os_child_out os (ex_num_calls st)))
                        else None)
                  else ex_out st;
        ex_events := ex_events st
                     ++ [EvSpawn x (ex_input st) first last capture] |}).
Proof.
  intros Hx Hmem. unfold priv_usch_run. destruct x as [|x0 x']; [congruence|].
  unfold priv_usch_command.
  cbn [ex_num_calls ex_events ex_input ex_child_pid ex_out].
  replace (S (ex_num_calls st) - 1) with (ex_num_calls st) by lia.
  destruct (capture && last) eqn:E.
  - rewrite (Hmem eq_refl). reflexivity.
  - reflexivity.
Qed.

(** The stage loop: one round per stage. *)
Lemma pipeline_loop_stages (os : os_model) (capture : bool)
    (junk : list (option cstr)) (stages : list (list cstr)) :
  forall (pre : list (option cstr)) (first : bool) (st : exec_state)
         (fuel : nat),
    stages <> [] -> Forall (fun x => x <> []) stages ->
    length stages <= fuel ->
    (capture = true ->
     os_calloc os (ex_num_calls st + length stages - 1) = true) ->
    exists st',
      pipeline_loop fuel os capture (pre ++ seg_flat stages ++ None :: junk)
        (length pre + length (seg_flat stages)) (length pre) first st
      = Done (length pre + length (seg_flat stages), false, st')
      /\ ex_events st'
         = ex_events st
           ++ spawn_events os capture (ex_num_calls st) (ex_input st) first
                stages
      /\ ex_child_pid st' = os_fork os (ex_num_calls st + length stages - 1)
      /\ ex_out st'
         = if capture
           then Some (strip_newline
                        (os_child_out os
                           (ex_num_calls st + length stages - 1)))
           else ex_out st.
Proof.
  induction stages as [|x rest IH];
    intros pre first st fuel Hne Hall Hfuel Hmem; [congruence|].
  inversion Hall as [|? ? Hx Hall']; subst.
  assert (Hlx : 0 < length x) by (destruct x; [congruence|cbn; lia]).
  destruct fuel as [|fuel]; [cbn [length] in Hfuel; lia|].
  cbn [pipeline_loop].
  set (argc := length pre + length (seg_flat (x :: rest))).
  set (pp_argv := pre ++ seg_flat (x :: rest) ++ None :: junk).
  assert (Hargc : length pre + length x <= argc).
  { unfold argc. destruct rest.
    - cbn [seg_flat]. rewrite length_map. lia.
    - rewrite seg_flat_cons by discriminate.
      rewrite length_app, length_map. lia. }
  assert (E0 : (argc <=? length pre) = false) by (apply Nat.leb_gt; lia).
  rewrite E0.
  assert (Hdrop : drop (length pre) pp_argv
                  = seg_flat (x :: rest) ++ None :: junk)
    by (unfold pp_argv; apply drop_app_length).
  assert (Hstage : stage_at pp_argv (length pre) = x).
  { unfold stage_at. rewrite Hdrop. destruct rest.
    - cbn [seg_flat]. apply vec_prefix_stops.
    - rewrite seg_flat_cons by discriminate. rewrite <- app_assoc.
      apply vec_prefix_stops. }
  assert (Hlast : forallb non_null (take (argc - length pre)
                                      (drop (length pre) pp_argv))
                  = match rest with [] => true | _ => false end).
  { rewrite Hdrop. unfold argc.
    replace (length pre + length (seg_flat (x :: rest)) - length pre)
      with (length (seg_flat (x :: rest))) by lia.
    rewrite take_app_length. destruct rest.
    - cbn [seg_flat]. apply forallb_non_null_some.
    - rewrite seg_flat_cons by discriminate. apply forallb_non_null_gap. }
  cbv zeta. rewrite Hstage, Hlast.
  rewrite Nat.min_r by lia.
  assert (Hslot : slot pp_argv (length pre + length x) = None).
  { unfold slot, pp_argv. rewrite lookup_app_r by lia.
    replace (length pre + length x - length pre) with (length x) by lia.
    destruct rest.
    - cbn [seg_flat]. rewrite <- (length_map Some x).
      rewrite list_lookup_middle by reflexivity. reflexivity.
    - rewrite seg_flat_cons by discriminate. rewrite <- app_assoc.
      rewrite <- (length_map Some x). cbn [app].
      rewrite list_lookup_middle by reflexivity. reflexivity. }
  rewrite Hslot. cbn [non_null negb andb].
  destruct rest as [|y rest'].
  - (* the last stage: the loop ends *)
    cbn [length] in Hmem.
    replace (ex_num_calls st + 1 - 1) with (ex_num_calls st) in Hmem by lia.
    rewrite (priv_usch_run_stage os x first true capture st Hx)
      by (intros Hc; apply Hmem; destruct capture; [reflexivity|discriminate]).
    cbn [fst snd ex_child_pid ex_num_calls ex_out ex_events].
    assert (E1 : (length pre + length x =? argc) = true).
    { apply Nat.eqb_eq. unfold argc. cbn [seg_flat]. rewrite length_map.
      reflexivity. }
    rewrite E1. cbn [negb].
    assert (Hend : forall f os' c pv fl s0,
               pipeline_loop f os' c pv argc (length pre + length x) fl s0
               = Done (length pre + length x, fl, s0)).
    { intros f os' c pv fl s0. apply Nat.eqb_eq in E1.
      destruct f; cbn [pipeline_loop]; rewrite <- E1, Nat.leb_refl;
        reflexivity. }
    rewrite Hend. apply Nat.eqb_eq in E1. rewrite E1.
    eexists. split; [reflexivity|].
    cbn [ex_events ex_child_pid ex_out spawn_events length].
    replace (ex_num_calls st + 1 - 1) with (ex_num_calls st) by lia.
    split; [reflexivity|]. split; reflexivity.
  - (* a separator follows: skip it and go on *)
    rewrite (priv_usch_run_stage os x first false capture st Hx)
      by (rewrite andb_false_r; discriminate).
    cbn [fst snd ex_child_pid ex_num_calls ex_out ex_events].
    assert (E1 : (length pre + length x =? argc) = false).
    { apply Nat.eqb_neq. unfold argc. rewrite seg_flat_cons by discriminate.
      rewrite length_app, length_map. cbn [length]. lia. }
    rewrite E1. cbn [negb].
    set (st1 := {| ex_input := os_pipe_read os (ex_num_calls st);
                   ex_child_pid := os_fork os (ex_num_calls st);
                   ex_num_calls := S (ex_num_calls st);
                   ex_out := if capture then None else ex_out st;
                   ex_events := ex_events st
                     ++ [EvSpawn x (ex_input st) first false capture] |}).
    assert (Hfuel' : length (y :: rest') <= fuel)
      by (cbn [length] in *; lia).
    assert (Hne' : y :: rest' <> []) by discriminate.
    assert (Hidx : ex_num_calls st1 + length (y :: rest') - 1
                   = ex_num_calls st + length (x :: y :: rest') - 1)
      by (cbn [st1 ex_num_calls length]; lia).
    assert (Hmem' : capture = true ->
                    os_calloc os (ex_num_calls st1 + length (y :: rest') - 1)
                    = true)
      by (rewrite Hidx; exact Hmem).
    destruct (IH (pre ++ map Some x ++ [None]) false st1 fuel Hne' Hall'
                Hfuel' Hmem')
      as (st' & Hloop & Hev & Hpid & Hout).
    assert (Epp : pp_argv
                  = (pre ++ map Some x ++ [None])
                    ++ seg_flat (y :: rest') ++ None :: junk).
    { unfold pp_argv. rewrite seg_flat_cons by discriminate.
      rewrite <- !app_assoc. reflexivity. }
    assert (Eargc : argc = length (pre ++ map Some x ++ [None])
                           + length (seg_flat (y :: rest'))).
    { unfold argc. rewrite seg_flat_cons by discriminate.
      rewrite !length_app, length_map. cbn [length]. lia. }
    assert (Ei : S (length pre + length x)
                 = length (pre ++ map Some x ++ [None])).
    { rewrite !length_app, length_map. cbn [length]. lia. }
    rewrite Epp, Eargc, Ei, Hloop.
    exists st'. split; [reflexivity|].
    rewrite Hev, Hpid, Hout, Hidx.
    split; [|split; [reflexivity|]].
    + cbn [st1 ex_events ex_num_calls ex_input spawn_events].
      rewrite <- app_assoc. reflexivity.
    + destruct capture; reflexivity.
Qed.

Lemma pipe_rewrite_stages (first : list cstr) (more : list (cstr * list cstr)) :
  forall (Hf : Forall (fun a => is_pipe_token a = false) first),
    Forall stage_ok more ->
    map (fun a => if is_pipe_token a then None else Some a)
      (pipeline_args first more)
    = seg_flat (first :: map snd more).
Proof.
  revert first. induction more as [|[sep stage] more IH]; intros first Hf Hm.
  - cbn [pipeline_args map seg_flat]. apply map_ext_Forall.
    eapply Forall_impl; [exact Hf|]. intros a Ha. cbn beta in *.
    rewrite Ha. reflexivity.
  - inversion Hm as [|? ? (Hsep & Hne & Hst) Hm']; subst. cbn [fst snd] in *.
    cbn [pipeline_args map]. rewrite seg_flat_cons by discriminate.
    rewrite map_app. cbn [map]. rewrite Hsep.
    rewrite (IH stage Hst Hm'). f_equal.
    apply map_ext_Forall.
    eapply Forall_impl; [exact Hf|]. intros a Ha. cbn beta in *.
    rewrite Ha. reflexivity.
Qed.

(** [priv_usch_cmd_arr] on a well-formed pipeline, with or without
    capture. *)
Lemma cmd_arr_pipeline (fs : matcher) (mem : alloc_oracle)
    (os : os_model) (capture : bool) (pp_orig_argv : list cstr)
    (buf : list (option cstr)) (items : list (list cstr))
    (first : list cstr) (more : list (cstr * list cstr)) :
  priv_usch_globexpand fs mem pp_orig_argv = Done (Some (buf, items)) ->
  scan_vec buf = Done (pipeline_args first more) ->
  first <> [] ->
  ustreq (head first) (Some (lit "cd")) = false ->
  Forall (fun a => is_pipe_token a = false) first ->
  Forall stage_ok more ->
  (capture = true -> os_calloc os (length more) = true) ->
  priv_usch_cmd_arr fs mem os capture pp_orig_argv
  = Done {| cmd_status := priv_usch_waitforall (os_wait os)
                            (os_fork os (length more));
            cmd_events := spawn_events os capture 0 0 true
                            (first :: map snd more)
                          ++ [EvWait (os_fork os (length more))];
            cmd_out := if capture
                       then Some (strip_newline
                                    (os_child_out os (length more)))
                       else None |}.
Proof.
  intros Hexp Hscan Hne Hcd Hfirst Hmore Hmem. unfold priv_usch_cmd_arr.
  rewrite Hexp. cbn [run_bind]. rewrite Hscan. cbn [run_bind].
  destruct (scan_vec_shape _ _ Hscan) as [junk ->].
  unfold pipe_rewrite. rewrite drop_map_some_app.
  rewrite (pipe_rewrite_stages first more Hfirst Hmore).
  set (stages := first :: map snd more).
  assert (Hlen : length (pipeline_args first more) = length (seg_flat stages)).
  { unfold stages. rewrite <- (pipe_rewrite_stages first more Hfirst Hmore).
    rewrite length_map. reflexivity. }
  rewrite Hlen.
  assert (Hall : Forall (fun x => x <> []) stages).
  { apply Forall_cons. split; [exact Hne|].
    apply Forall_map. eapply Forall_impl; [exact Hmore|].
    intros [sep stage] (_ & H & _). exact H. }
  assert (Hst : stages <> []) by discriminate.
  assert (Hhead : load 0 (seg_flat stages ++ None :: junk) = Done (head first)).
  { unfold stages. destruct first as [|a0 first']; [congruence|].
    destruct (map snd more); reflexivity. }
  rewrite Hhead. cbn [run_bind]. rewrite Hcd.
  assert (Hn : length stages - 1 = length more).
  { unfold stages. cbn [length]. rewrite length_map. lia. }
  pose proof (pipeline_loop_stages os capture junk stages [] true
                {| ex_input := 0; ex_child_pid := 0; ex_num_calls := 0;
                   ex_out := None; ex_events := [] |}
                (length (seg_flat stages)) Hst Hall
                (seg_flat_length_pos stages Hst Hall)) as Hrun.
  cbn [app length Nat.add ex_events ex_num_calls ex_input ex_out] in Hrun.
  rewrite Hn in Hrun.
  destruct (Hrun Hmem) as (st' & Hloop & Hev & Hpid & Hout).
  rewrite Hloop. cbn [run_bind].
  assert (Hslot : slot (seg_flat stages ++ None :: junk)
                    (length (seg_flat stages)) = None).
  { unfold slot. rewrite list_lookup_middle by reflexivity. reflexivity. }
  rewrite Hslot. cbn [non_null negb andb].
  assert (Hat : stage_at (seg_flat stages ++ None :: junk)
                  (length (seg_flat stages)) = []).
  { unfold stage_at. rewrite drop_app_length. reflexivity. }
  rewrite Hat. cbn [priv_usch_run snd].
  assert (Hsame : (if negb capture then st' else st') = st')
    by (destruct capture; reflexivity).
  rewrite Hsame, Hev, Hpid, Hout. reflexivity.
Qed.

Lemma strip_newline_one (text : list ascii) :
  strip_newline (text ++ ["010"%char]) = text.
Proof.
  unfold strip_newline. rewrite reverse_app. cbn [reverse rev_append app].
  change (reverse ["010"%char]) with ["010"%char]. cbn [app].
  change (Ascii.eqb "010" "010") with true. cbn iota.
  apply reverse_involutive.
Qed.

(** X18: a command line without capture whose first word is not [cd]
    and whose stages are separated by tokens starting with ['|'] gives
    one spawn per stage, in the order written: each stage gets exactly
    its own words, the first alone is marked first, the last alone is
    marked last, and every later stage reads from the pipe of the stage
    before it.  Then the process forked last, and only that one, is
    waited for, and its outcome is the status. *)
Theorem cmd_arr_spawns_stages_in_order (fs : matcher) (mem : alloc_oracle)
    (os : os_model) (pp_orig_argv : list cstr)
    (buf : list (option cstr)) (items : list (list cstr))
    (first : list cstr) (more : list (cstr * list cstr)) :
  priv_usch_globexpand fs mem pp_orig_argv = Done (Some (buf, items)) ->
  scan_vec buf = Done (pipeline_args first more) ->
  first <> [] ->
  ustreq (head first) (Some (lit "cd")) = false ->
  Forall (fun a => is_pipe_token a = false) first ->
  Forall stage_ok more ->
  priv_usch_cmd_arr fs mem os false pp_orig_argv
  = Done {| cmd_status := priv_usch_waitforall (os_wait os)
                            (os_fork os (length more));
            cmd_events := spawn_events os false 0 0 true
                            (first :: map snd more)
                          ++ [EvWait (os_fork os (length more))];
            cmd_out := None |}.
Proof.
  intros Hexp Hscan Hne Hcd Hfirst Hmore.
  apply (cmd_arr_pipeline fs mem os false pp_orig_argv buf items first more
           Hexp Hscan Hne Hcd Hfirst Hmore).
  discriminate.
Qed.

Lemma cmd_arr_spawns_stages_in_order_witness :
  priv_usch_globexpand fs_empty mem_ok
    [lit "echo"; lit "hi"; lit "|"; lit "wc"]
  = Done (Some ([Some (lit "echo"); Some (lit "hi"); Some (lit "|");
                 Some (lit "wc"); None],
                [[lit "echo"]; [lit "hi"]; [lit "|"]; [lit "wc"]]))
  /\ scan_vec [Some (lit "echo"); Some (lit "hi"); Some (lit "|");
               Some (lit "wc"); None]
     = Done (pipeline_args [lit "echo"; lit "hi"] [(lit "|", [lit "wc"])])
  /\ [lit "echo"; lit "hi"] <> []
  /\ ustreq (head [lit "echo"; lit "hi"]) (Some (lit "cd")) = false
  /\ Forall (fun a => is_pipe_token a = false) [lit "echo"; lit "hi"]
  /\ Forall stage_ok [(lit "|", [lit "wc"])]
  /\ priv_usch_cmd_arr fs_empty mem_ok os_example false
       [lit "echo"; lit "hi"; lit "|"; lit "wc"]
     = Done {| cmd_status := Returned 3%Z;
               cmd_events := [EvSpawn [lit "echo"; lit "hi"] 0 true false false;
                              EvSpawn [lit "wc"] 3 false true false;
                              EvWait 101];
               cmd_out := None |}.
Proof.
  assert (H1 : Forall (fun a => is_pipe_token a = false)
                 [lit "echo"; lit "hi"]).
  { apply Forall_cons. split; [reflexivity|].
    apply Forall_cons. split; [reflexivity|apply Forall_nil_2]. }
  assert (H2 : Forall stage_ok [(lit "|", [lit "wc"])]).
  { apply Forall_cons. split; [|apply Forall_nil_2].
    split; [reflexivity|]. split; [discriminate|].
    apply Forall_cons. split; [reflexivity|apply Forall_nil_2]. }
  assert (H0 : [lit "echo"; lit "hi"] <> []) by discriminate.
  split; [reflexivity|]. split; [reflexivity|]. split; [exact H0|].
  split; [reflexivity|]. split; [exact H1|]. split; [exact H2|].
  exact (cmd_arr_spawns_stages_in_order fs_empty mem_ok os_example
           [lit "echo"; lit "hi"; lit "|"; lit "wc"]
           [Some (lit "echo"); Some (lit "hi"); Some (lit "|");
            Some (lit "wc"); None]
           [[lit "echo"]; [lit "hi"]; [lit "|"]; [lit "wc"]]
           [lit "echo"; lit "hi"] [(lit "|", [lit "wc"])]
           eq_refl eq_refl H0 eq_refl H1 H2).
Defined.

Lemma last_wiring_capture (os : os_model) (stages : list (list cstr)) :
  forall (k : nat) (input : Z) (first : bool),
    stages <> [] ->
    last (wirings (spawn_events os true k input first stages))
    = Some {| child_stdin := None; child_stdout_piped := true |}.
Proof.
  induction stages as [|x rest IH]; intros k input first Hne; [congruence|].
  destruct rest as [|y rest'].
  - cbn [spawn_events wirings omap]. unfold child_wiring.
    destruct first; reflexivity.
  - specialize (IH (S k) (os_pipe_read os k) false ltac:(discriminate)).
    cbn [spawn_events] in IH |- *. unfold wirings in *.
    cbn [omap option_bind mbind] in IH |- *.
    exact IH.
Qed.

(** X19: with capture there is one spawn per stage, each with its own
    words, in the order written, and the text handed back is what
    arrives on the pipe of the last stage with exactly one final
    newline removed, provided the capture buffer is granted.  The child
    of the last stage puts that pipe on its stdout and nothing on its
    stdin: in a command line of several stages the last stage does not
    read what the stage before it writes. *)
Theorem cmd_arr_captures_last_stage_output (fs : matcher)
    (mem : alloc_oracle) (os : os_model) (pp_orig_argv : list cstr)
    (buf : list (option cstr)) (items : list (list cstr))
    (first : list cstr) (more : list (cstr * list cstr))
    (text : list ascii) :
  priv_usch_globexpand fs mem pp_orig_argv = Done (Some (buf, items)) ->
  scan_vec buf = Done (pipeline_args first more) ->
  first <> [] ->
  ustreq (head first) (Some (lit "cd")) = false ->
  Forall (fun a => is_pipe_token a = false) first ->
  Forall stage_ok more ->
  os_calloc os (length more) = true ->
  os_child_out os (length more) = text ++ ["010"%char] ->
  priv_usch_cmd_arr fs mem os true pp_orig_argv
  = Done {| cmd_status := priv_usch_waitforall (os_wait os)
                            (os_fork os (length more));
            cmd_events := spawn_events os true 0 0 true
                            (first :: map snd more)
                          ++ [EvWait (os_fork os (length more))];
            cmd_out := Some text |}
  /\ last (wirings (spawn_events os true 0 0 true (first :: map snd more)
                    ++ [EvWait (os_fork os (length more))]))
     = Some {| child_stdin := None; child_stdout_piped := true |}.
Proof.
  intros Hexp Hscan Hne Hcd Hfirst Hmore Hmem Hout. split.
  - rewrite (cmd_arr_pipeline fs mem os true pp_orig_argv buf items first more
               Hexp Hscan Hne Hcd Hfirst Hmore (fun _ => Hmem)).
    rewrite Hout, strip_newline_one. reflexivity.
  - unfold wirings. rewrite omap_app. cbn [omap app]. rewrite app_nil_r.
    apply (last_wiring_capture os (first :: map snd more) 0 0%Z true).
    discriminate.
Qed.

Lemma cmd_arr_captures_last_stage_output_witness :
  priv_usch_globexpand fs_empty mem_ok
    [lit "echo"; lit "hi"; lit "|"; lit "wc"]
  = Done (Some ([Some (lit "echo"); Some (lit "hi"); Some (lit "|");
                 Some (lit "wc"); None],
                [[lit "echo"]; [lit "hi"]; [lit "|"]; [lit "wc"]]))
  /\ scan_vec [Some (lit "echo"); Some (lit "hi"); Some (lit "|");
               Some (lit "wc"); None]
     = Done (pipeline_args [lit "echo"; lit "hi"] [(lit "|", [lit "wc"])])
  /\ [lit "echo"; lit "hi"] <> []
  /\ ustreq (head [lit "echo"; lit "hi"]) (Some (lit "cd")) = false
  /\ Forall (fun a => is_pipe_token a = false) [lit "echo"; lit "hi"]
  /\ Forall stage_ok [(lit "|", [lit "wc"])]
  /\ os_calloc os_pipeline (length [(lit "|", [lit "wc"])]) = true
  /\ os_child_out os_pipeline (length [(lit "|", [lit "wc"])])
     = lit "1" ++ ["010"%char]
  /\ priv_usch_cmd_arr fs_empty mem_ok os_pipeline true
       [lit "echo"; lit "hi"; lit "|"; lit "wc"]
     = Done {| cmd_status := Returned 0%Z;
               cmd_events := [EvSpawn [lit "echo"; lit "hi"] 0 true false true;
                              EvSpawn [lit "wc"] 3 false true true;
                              EvWait 101];
               cmd_out := Some (lit "1") |}
  /\ last (wirings [EvSpawn [lit "echo"; lit "hi"] 0 true false true;
                    EvSpawn [lit "wc"] 3 false true true;
                    EvWait 101])
     = Some {| child_stdin := None; child_stdout_piped := true |}.
Proof.
  assert (H1 : Forall (fun a => is_pipe_token a = false)
                 [lit "echo"; lit "hi"]).
  { apply Forall_cons. split; [reflexivity|].
    apply Forall_cons. split; [reflexivity|apply Forall_nil_2]. }
  assert (H2 : Forall stage_ok [(lit "|", [lit "wc"])]).
  { apply Forall_cons. split; [|apply Forall_nil_2].
    split; [reflexivity|]. split; [discriminate|].
    apply Forall_cons. split; [reflexivity|apply Forall_nil_2]. }
  assert (H0 : [lit "echo"; lit "hi"] <> []) by discriminate.
  split; [reflexivity|]. split; [reflexivity|]. split; [exact H0|].
  split; [reflexivity|]. split; [exact H1|]. split; [exact H2|].
  split; [reflexivity|]. split; [reflexivity|].
  exact (cmd_arr_captures_last_stage_output fs_empty mem_ok os_pipeline
           [lit "echo"; lit "hi"; lit "|"; lit "wc"]
           [Some (lit "echo"); Some (lit "hi"); Some (lit "|");
            Some (lit "wc"); None]
           [[lit "echo"]; [lit "hi"]; [lit "|"]; [lit "wc"]]
           [lit "echo"; lit "hi"] [(lit "|", [lit "wc"])] (lit "1")
           eq_refl eq_refl H0 eq_refl H1 H2 eq_refl eq_refl).
Defined.

End PipelineCoverage.

Section CaptureCoverage.

Lemma ustrout_passes_arguments_on (fs : matcher) (mem : alloc_oracle)
    (os : os_model) (p_ustash : option ustash) (h : heap) (argv : list cstr) :
  priv_ustrout_impl fs mem os p_ustash h (None :: map Some argv)
  = run_bind (priv_usch_cmd_arr fs mem os true argv) (fun r =>
    match cmd_status r with
    | HostExit code => Done (HostExit code, cmd_events r)
    | Blocked => Done (Blocked, cmd_events r)
    | Returned _ =>
        match cmd_out r with
        | None => Fault
        | Some text =>
            let a := calloc_addr h in
            let h1 := <[a := {| p_next := None; error := 0; str_vec := [];
                                str_bytes := text ++ [NUL] |}]> h in
            match priv_usch_stash p_ustash (Some a) h1 with
            | (_, p', h2) => Done (Returned (InBlock a, p', h2), cmd_events r)
            end
        end
    end).
Proof.
  unfold priv_ustrout_impl.
  rewrite shift_args_drops_first. cbn [run_bind length].
  replace (S (length (map Some argv)) - 1) with (length (map Some argv))
    by lia.
  rewrite take_app_length, strings_of_some. reflexivity.
Qed.

(** X20: when the command comes back with a captured text, [ustrout]
    returns a string of the arena that reads as that text, and one
    [uclear] afterwards releases it with the rest of the list. *)
Theorem ustrout_result_is_stashed (fs : matcher) (mem : alloc_oracle)
    (os : os_model) (st : ustash) (h : heap) (l : list addr)
    (argv : list cstr) (z : Z) (ev : list event) (text : list ascii) :
  priv_usch_cmd_arr fs mem os true argv
  = Done {| cmd_status := Returned z; cmd_events := ev;
            cmd_out := Some text |} ->
  NUL ∉ text ->
  stash_chain h (p_list st) l ->
  exists a h',
    priv_ustrout_impl fs mem os (Some st) h (None :: map Some argv)
    = Done (Returned (InBlock a, Some {| p_list := Some a |}, h'), ev)
    /\ read_str h' (InBlock a) = Some text
    /\ uclear (Some {| p_list := Some a |}) h'
       = Done (Some {| p_list := None |}, release l h).
Proof.
  intros Hcmd Hnul Hl. rewrite ustrout_passes_arguments_on, Hcmd.
  cbn [run_bind cmd_status cmd_out cmd_events priv_usch_stash].
  eexists _, _. split; [reflexivity|]. split.
  - cbn [read_str]. rewrite lookup_alter_eq, lookup_insert_eq.
    cbn [fmap option_fmap option_map set_next str_bytes].
    rewrite (cstr_at_nul_free text []) by exact Hnul. reflexivity.
  - rewrite (uclear_chain _ {| p_list := Some (calloc_addr h) |}
               (calloc_addr h :: l)).
    + rewrite (release_pushed st h _ l Hl). reflexivity.
    + cbn [p_list]. apply push_fresh_chain. exact Hl.
Qed.

Lemma ustrout_result_is_stashed_witness :
  priv_usch_cmd_arr fs_empty mem_ok os_capture true [lit "echo"; lit "hi"]
  = Done {| cmd_status := Returned 0%Z;
            cmd_events := [EvSpawn [lit "echo"; lit "hi"] 0 true true true;
                           EvWait 100];
            cmd_out := Some (lit "hi") |}
  /\ (NUL ∉ lit "hi")
  /\ stash_chain (∅ : heap) (p_list {| p_list := None |}) []
  /\ exists a h',
      priv_ustrout_impl fs_empty mem_ok os_capture
        (Some {| p_list := None |}) ∅
        (None :: map Some [lit "echo"; lit "hi"])
      = Done (Returned (InBlock a, Some {| p_list := Some a |}, h'),
              [EvSpawn [lit "echo"; lit "hi"] 0 true true true; EvWait 100])
      /\ read_str h' (InBlock a) = Some (lit "hi")
      /\ uclear (Some {| p_list := Some a |}) h'
         = Done (Some {| p_list := None |}, release [] ∅).
Proof.
  assert (Hn : NUL ∉ lit "hi").
  { intros H. apply elem_of_cons in H as [H|H]; [discriminate|].
    apply elem_of_cons in H as [H|H]; [discriminate|].
    apply elem_of_nil in H. exact H. }
  split; [reflexivity|]. split; [exact Hn|]. split; [constructor|].
  exact (ustrout_result_is_stashed fs_empty mem_ok os_capture
           {| p_list := None |} ∅ [] [lit "echo"; lit "hi"] 0%Z
           [EvSpawn [lit "echo"; lit "hi"] 0 true true true; EvWait 100]
           (lit "hi") eq_refl Hn (chain_nil ∅)).
Defined.

(** X21: [ustrout] on a command line whose first word is [cd] changes
    the directory and then reads [p_out->str] through the NULL [p_out]
    that no stage has set: a fault, whatever the arena. *)
Theorem ustrout_cd_faults (fs : matcher) (mem : alloc_oracle)
    (os : os_model) (p_ustash : option ustash) (h : heap)
    (argv : list cstr) (buf : list (option cstr))
    (items : list (list cstr)) (args : list cstr) :
  priv_usch_globexpand fs mem argv = Done (Some (buf, items)) ->
  scan_vec buf = Done args ->
  head args = Some (lit "cd") ->
  priv_ustrout_impl fs mem os p_ustash h (None :: map Some argv) = Fault.
Proof.
  intros Hexp Hscan Hcd. rewrite ustrout_passes_arguments_on.
  unfold priv_usch_cmd_arr.
  rewrite Hexp. cbn [run_bind]. rewrite Hscan. cbn [run_bind].
  destruct (scan_vec_shape _ _ Hscan) as [rest ->].
  destruct args as [|a0 args']; [discriminate|].
  cbn [head] in Hcd. injection Hcd as ->.
  unfold pipe_rewrite. rewrite drop_map_some_app.
  cbn [map app load lookup list_lookup run_bind].
  change (is_pipe_token (lit "cd")) with false. cbn iota.
  change (ustreq (Some (lit "cd")) (Some (lit "cd"))) with true. cbn iota.
  destruct args' as [|a1 args'']; cbn [map app lookup list_lookup run_bind];
    reflexivity.
Qed.

Lemma ustrout_cd_faults_witness :
  priv_usch_globexpand fs_empty mem_ok [lit "cd"; lit "/tmp"]
  = Done (Some ([Some (lit "cd"); Some (lit "/tmp"); None],
                [[lit "cd"]; [lit "/tmp"]]))
  /\ scan_vec [Some (lit "cd"); Some (lit "/tmp"); None]
     = Done [lit "cd"; lit "/tmp"]
  /\ head [lit "cd"; lit "/tmp"] = Some (lit "cd")
  /\ priv_ustrout_impl fs_empty mem_ok os_example
       (Some {| p_list := None |}) ∅
       (None :: map Some [lit "cd"; lit "/tmp"])
     = Fault.
Proof.
  split; [reflexivity|]. split; [reflexivity|]. split; [reflexivity|].
  exact (ustrout_cd_faults fs_empty mem_ok os_example
           (Some {| p_list := None |}) ∅
           [lit "cd"; lit "/tmp"]
           [Some (lit "cd"); Some (lit "/tmp"); None]
           [[lit "cd"]; [lit "/tmp"]]
           [lit "cd"; lit "/tmp"]
           eq_refl eq_refl eq_refl).
Defined.

(** X22: the same fault follows when the expansion of the arguments
    fails (an allocation is refused or a match ends in an error):
    [priv_usch_cmd_arr] comes back without having set [p_out]. *)
Theorem ustrout_expansion_failure_faults (fs : matcher) (mem : alloc_oracle)
    (os : os_model) (p_ustash : option ustash) (h : heap)
    (pre : list cstr) (bad : cstr) (post : list cstr) :
  Forall (fun arg => strcmp_eq arg (lit "--") = false) pre ->
  strcmp_eq bad (lit "--") = false ->
  mem (length pre) = false \/ fs usch_glob_flags bad = MatchError ->
  priv_ustrout_impl fs mem os p_ustash h
    (None :: map Some (pre ++ bad :: post))
  = Fault.
Proof.
  intros Hpre Hbad Hfail. rewrite ustrout_passes_arguments_on.
  unfold priv_usch_cmd_arr, priv_usch_globexpand.
  rewrite (glob_loop_aborts fs mem pre bad post 0 Hpre Hbad Hfail).
  reflexivity.
Qed.

Lemma ustrout_expansion_failure_faults_witness :
  Forall (fun arg => strcmp_eq arg (lit "--") = false) [lit "ls"]
  /\ strcmp_eq (lit "b*") (lit "--") = false
  /\ (mem_ok (length [lit "ls"]) = false
      \/ (fun _ _ => MatchError) usch_glob_flags (lit "b*") = MatchError)
  /\ priv_ustrout_impl (fun _ _ => MatchError) mem_ok os_example
       (Some {| p_list := None |}) ∅
       (None :: map Some ([lit "ls"] ++ lit "b*" :: []))
     = Fault.
Proof.
  assert (H1 : Forall (fun arg => strcmp_eq arg (lit "--") = false) [lit "ls"]).
  { apply Forall_cons. split; [reflexivity|apply Forall_nil_2]. }
  split; [exact H1|]. split; [reflexivity|]. split; [right; reflexivity|].
  exact (ustrout_expansion_failure_faults (fun _ _ => MatchError) mem_ok
           os_example (Some {| p_list := None |}) ∅
           [lit "ls"] (lit "b*") []
           H1 eq_refl (or_intror eq_refl)).
Defined.

End CaptureCoverage.

Section FileCoverage.
Implicit Types (ds text pre suf body : cstr) (c : ascii).

Lemma blank_inner_blanked i ds : forall (st : list ascii * nat),
  NUL ∉ ds -> fst st !! i = Some NUL -> foldl (blank_inner i) st ds = st.
Proof.
  induction ds as [|d ds IH]; intros st Hn Hp; [reflexivity|].
  apply not_elem_of_cons in Hn as [Hd Hn]. cbn [foldl].
  assert (E : blank_inner i st d = st).
  { unfold blank_inner. rewrite Hp.
    assert (Hne : Ascii.eqb NUL d = false) by (apply Ascii.eqb_neq; exact Hd).
    rewrite Hne. reflexivity. }
  rewrite E. apply IH; assumption.
Qed.

Lemma blank_inner_set i ds : forall (st : list ascii * nat) c,
  NUL ∉ ds -> fst st !! i = Some c ->
  foldl (blank_inner i) st ds
  = if is_delim ds c then (<[i := NUL]> (fst st), S (snd st)) else st.
Proof.
  unfold is_delim.
  induction ds as [|d ds IH]; intros st c Hn Hp; cbn [foldl existsb];
    [reflexivity|].
  apply not_elem_of_cons in Hn as [Hd Hn].
  assert (E : blank_inner i st d
              = if Ascii.eqb c d
                then (<[i := NUL]> (fst st), S (snd st)) else st)
    by (unfold blank_inner; rewrite Hp; reflexivity).
  rewrite E. clear E. destruct (Ascii.eqb c d); cbn [orb].
  - apply blank_inner_blanked; [exact Hn|]. cbn [fst].
    apply list_lookup_insert_eq. apply lookup_lt_Some in Hp. exact Hp.
  - apply IH; assumption.
Qed.

Lemma blank_pass_from ds : NUL ∉ ds -> forall suf pre,
  foldl (fun st i => foldl (blank_inner i) st ds)
    (blank_set ds pre ++ suf, length (delim_offs_set ds pre 0))
    (seq (length pre) (length suf))
  = (blank_set ds (pre ++ suf), length (delim_offs_set ds (pre ++ suf) 0)).
Proof.
  intros Hn. induction suf as [|c suf IH]; intros pre.
  - rewrite !app_nil_r. reflexivity.
  - cbn [length seq foldl].
    rewrite (blank_inner_set (length pre) ds _ c Hn).
    2:{ cbn [fst]. apply list_lookup_middle. symmetry.
        apply blank_set_length. }
    cbn [fst snd].
    assert (E : pre ++ c :: suf = (pre ++ [c]) ++ suf)
      by (rewrite <- app_assoc; reflexivity).
    rewrite E. rewrite <- IH.
    rewrite length_app. cbn [length].
    replace (length pre + 1) with (S (length pre)) by lia.
    rewrite delim_offs_set_snoc, blank_set_snoc.
    destruct (is_delim ds c).
    + rewrite insert_app_r_alt by (rewrite blank_set_length; lia).
      rewrite blank_set_length, Nat.sub_diag. cbn [insert list_insert].
      rewrite length_app. cbn [length].
      replace (length (delim_offs_set ds pre 0) + 1)
        with (S (length (delim_offs_set ds pre 0))) by lia.
      rewrite <- app_assoc. reflexivity.
    + rewrite app_nil_r, <- app_assoc. reflexivity.
Qed.

Lemma blank_pass_all ds text :
  NUL ∉ ds ->
  blank_pass (length text) ds (text, 0)
  = (blank_set ds text, length (delim_offs_set ds text 0)).
Proof.
  intros Hn. unfold blank_pass.
  exact (blank_pass_from ds Hn text []).
Qed.

(** The second pass over the bytes in front of the last one. *)
Lemma fill_pass_from ds N len body (tail : list ascii) :
  NUL ∉ body -> length body < len ->
  length (delim_offs_set ds body 0) <= N ->
  forall suf pre, body = pre ++ suf ->
    foldl (fill_step (blank_set ds body ++ tail) len)
      (Done (fill_state ds N pre)) (seq (length pre) (length suf))
    = Done (fill_state ds N body).
Proof.
  intros Hnul Hlen HN. induction suf as [|c suf IH]; intros pre Hb.
  - rewrite app_nil_r in Hb. subst pre. reflexivity.
  - cbn [length seq foldl].
    assert (E : pre ++ c :: suf = (pre ++ [c]) ++ suf)
      by (rewrite <- app_assoc; reflexivity).
    assert (Hc : c <> NUL).
    { intros ->. apply Hnul. rewrite Hb. apply elem_of_app. right. left. }
    assert (Hcount : length (delim_offs_set ds (pre ++ [c]) 0) <= N).
    { rewrite Hb, E, delim_offs_set_app, length_app in HN. lia. }
    assert (Hstep : fill_step (blank_set ds body ++ tail) len
                      (Done (fill_state ds N pre)) (length pre)
                    = Done (fill_state ds N (pre ++ [c]))).
    { unfold fill_step. cbn [run_bind].
      assert (Hload : load (length pre) (blank_set ds body ++ tail)
                      = Done (if is_delim ds c then NUL else c)).
      { unfold load. rewrite Hb. unfold blank_set. rewrite map_app.
        cbn [map]. rewrite <- app_assoc. cbn [app].
        rewrite list_lookup_middle by (rewrite length_map; reflexivity).
        reflexivity. }
      rewrite Hload. cbn [run_bind].
      assert (Hi : (length pre + 1 =? len) = false).
      { apply Nat.eqb_neq. rewrite Hb, length_app in Hlen.
        cbn [length] in Hlen. lia. }
      rewrite Hi. cbn [negb]. rewrite andb_true_r.
      rewrite delim_offs_set_snoc in Hcount.
      unfold fill_state. rewrite delim_offs_set_snoc.
      destruct (is_delim ds c) eqn:Ecd.
      - change (Ascii.eqb NUL NUL) with true. cbn iota. cbn [fst snd].
        rewrite length_app in Hcount |- *. cbn [length] in Hcount |- *.
        set (offs := delim_offs_set ds pre 0) in *.
        unfold store.
        assert (Hin : (S (length offs)
                       <? length (map Some (0 :: offs)
                                  ++ replicate (N - length offs) None))
                      = true).
        { apply Nat.ltb_lt. rewrite length_app, length_map, length_replicate.
          cbn [length]. lia. }
        rewrite Hin. cbn [run_bind].
        replace (N - length offs) with (S (N - (length offs + 1))) by lia.
        cbn [replicate].
        rewrite insert_app_r_alt by (rewrite length_map; cbn [length]; lia).
        rewrite length_map. cbn [length]. rewrite Nat.sub_diag.
        cbn [insert list_insert].
        rewrite !map_cons, map_app. cbn [map app].
        rewrite <- app_assoc. cbn [app].
        replace (length pre + 1) with (S (length pre)) by lia.
        replace (length offs + 1) with (S (length offs)) by lia.
        reflexivity.
      - assert (Hne : Ascii.eqb c NUL = false)
          by (apply Ascii.eqb_neq; exact Hc).
        rewrite Hne. cbn iota. rewrite !app_nil_r. reflexivity. }
    rewrite Hstep.
    specialize (IH (pre ++ [c])). rewrite length_app in IH.
    cbn [length] in IH.
    replace (length pre + 1) with (S (length pre)) in IH by lia.
    apply IH. rewrite Hb. exact E.
Qed.

(** [ufiletostrv] on a file of at least one byte without a NUL in
    front of the last byte: the table fits exactly when the last byte
    is a delimiter. *)
Lemma ufiletostrv_scan (fs_read : cstr -> option (list ascii)) (st : ustash)
    (name ds body : cstr) (e : ascii) :
  NUL ∉ ds -> NUL ∉ body ->
  fs_read name = Some (body ++ [e]) ->
  ufiletostrv fs_read true true (Some st) (Some name) (Some ds)
  = if is_delim ds e
    then Done (FvBlocks (map Some (0 :: delim_offs_set ds body 0) ++ [None])
                 (blank_set ds body ++ [NUL]))
    else Fault.
Proof.
  intros Hds Hbody Hfile. unfold ufiletostrv. rewrite Hfile.
  cbn [negb]. cbv zeta.
  rewrite (blank_pass_all ds (body ++ [e]) Hds). cbn [fst snd].
  rewrite delim_offs_set_snoc, blank_set_snoc.
  set (offs := delim_offs_set ds body 0).
  set (n := length (offs ++ (if is_delim ds e then [S (length body)] else []))).
  assert (Hn : length offs <= n)
    by (unfold n; rewrite length_app; lia).
  replace (n + 1) with (S n) by lia.
  cbn [replicate].
  assert (Hs0 : store 0 (Some 0) (None :: replicate n (@None nat))
                = Done (Some 0 :: replicate n None)) by reflexivity.
  rewrite Hs0. clear Hs0. cbn [run_bind].
  assert (Hst0 : (Some 0 :: replicate n (@None nat), 1)
                 = fill_state ds n []).
  { unfold fill_state. cbn [delim_offs_set length map app].
    rewrite Nat.sub_0_r. reflexivity. }
  rewrite Hst0. clear Hst0.
  rewrite length_app. cbn [length].
  replace (length body + 1) with (S (length body)) by lia.
  rewrite seq_S, foldl_app. cbn [Nat.add].
  pose proof (fill_pass_from ds n (S (length body)) body
                [if is_delim ds e then NUL else e] Hbody
                ltac:(lia) Hn body [] eq_refl) as Hpass.
  cbn [length] in Hpass. rewrite Hpass. clear Hpass.
  cbn [foldl]. unfold fill_step at 1. cbn [run_bind].
  assert (Hload : load (length body)
                    (blank_set ds body ++ [if is_delim ds e then NUL else e])
                  = Done (if is_delim ds e then NUL else e)).
  { unfold load.
    rewrite list_lookup_middle by (rewrite blank_set_length; reflexivity).
    reflexivity. }
  rewrite Hload. cbn [run_bind].
  assert (Hi : (length body + 1 =? S (length body)) = true)
    by (apply Nat.eqb_eq; lia).
  rewrite Hi. cbn [negb]. rewrite andb_false_r.
  unfold fill_state. fold offs. cbn [run_bind fst snd].
  unfold store. rewrite length_app, length_map, length_replicate.
  cbn [length]. unfold n. rewrite length_app.
  destruct (is_delim ds e).
  - cbn [length].
    assert (Hin : (S (length offs)
                   <? S (length offs) + (length offs + 1 - length offs))
                  = true) by (apply Nat.ltb_lt; lia).
    rewrite Hin. cbn [run_bind].
    replace (length offs + 1 - length offs) with 1 by lia.
    cbn [replicate].
    rewrite insert_app_r_alt by (rewrite length_map; cbn [length]; lia).
    rewrite length_map. cbn [length]. rewrite Nat.sub_diag.
    reflexivity.
  - cbn [length].
    assert (Hout : (S (length offs)
                    <? S (length offs) + (length offs + 0 - length offs))
                   = false) by (apply Nat.ltb_ge; lia).
    rewrite Hout. reflexivity.
Qed.

Lemma split_at_plain ds text :
  Forall (fun c => is_delim ds c = false) text -> split_at ds text = [text].
Proof.
  induction text as [|c text IH]; intros Hall; [reflexivity|].
  inversion Hall as [|? ? Hc Hall']; subst.
  cbn [split_at]. rewrite Hc, (IH Hall'). reflexivity.
Qed.

Lemma split_at_sep ds text e rest :
  Forall (fun c => is_delim ds c = false) text -> is_delim ds e = true ->
  split_at ds (text ++ e :: rest) = text :: split_at ds rest.
Proof.
  intros Hall He. induction text as [|c text IH].
  - cbn [app split_at]. rewrite He. reflexivity.
  - inversion Hall as [|? ? Hc Hall']; subst.
    cbn [app split_at]. rewrite Hc, (IH Hall'). reflexivity.
Qed.

Lemma write_loop_complete (fwrite : nat -> nat -> nat) (delim : cstr) :
  (forall k n, fwrite k n = n) ->
  forall (strv : list cstr) (k : nat) (file : list ascii),
    write_loop fwrite k delim strv file = (0%Z, file ++ written delim strv).
Proof.
  intros Hw. induction strv as [|x strv IH]; intros k file.
  - cbn [write_loop written map concat]. rewrite app_nil_r. reflexivity.
  - cbn [write_loop]. rewrite !Hw, !Nat.eqb_refl. cbn [negb].
    rewrite !take_ge by lia. rewrite IH.
    unfold written. cbn [map concat]. rewrite <- !app_assoc. reflexivity.
Qed.

Lemma write_loop_success (fwrite : nat -> nat -> nat) (delim : cstr) :
  forall (strv : list cstr) (k : nat) (file out : list ascii),
    write_loop fwrite k delim strv file = (0%Z, out) ->
    out = file ++ written delim strv.
Proof.
  induction strv as [|x strv IH]; intros k file out H.
  - cbn [write_loop] in H. injection H as <-.
    cbn [written map concat]. rewrite app_nil_r. reflexivity.
  - cbn [write_loop] in H.
    destruct (length x =? fwrite k (length x)) eqn:E1; cbn [negb] in H;
      [|discriminate].
    destruct (length delim =? fwrite (S k) (length delim)) eqn:E2;
      cbn [negb] in H; [|discriminate].
    apply Nat.eqb_eq in E1, E2. rewrite <- E1, <- E2 in H.
    rewrite !take_ge in H by lia.
    rewrite (IH _ _ _ H). unfold written. cbn [map concat].
    rewrite <- !app_assoc. reflexivity.
Qed.

Lemma written_body (d : ascii) (strv : list cstr) :
  d <> NUL ->
  strv <> [] -> Forall (fun x => (NUL ∉ x) /\ (d ∉ x)) strv ->
  exists body, written [d] strv = body ++ [d] /\ (NUL ∉ body)
               /\ split_at [d] body = strv.
Proof.
  intros Hnd.
  assert (Hfree : forall x : cstr, d ∉ x ->
            Forall (fun c => is_delim [d] c = false) x).
  { intros x Hx. apply Forall_forall. intros c Hc. unfold is_delim.
    cbn [existsb]. rewrite orb_false_r. apply Ascii.eqb_neq.
    intros ->. exact (Hx Hc). }
  assert (Hd : is_delim [d] d = true).
  { unfold is_delim. cbn [existsb]. rewrite Ascii.eqb_refl. reflexivity. }
  induction strv as [|x strv IH]; intros Hne Hall; [congruence|].
  inversion Hall as [|? ? [Hx Hdx] Hall']; subst.
  destruct strv as [|y strv'].
  - exists x. unfold written. cbn [map concat]. rewrite app_nil_r.
    split; [reflexivity|]. split; [exact Hx|].
    apply split_at_plain, Hfree, Hdx.
  - destruct (IH ltac:(discriminate) Hall') as (body & Hw & Hn & Hs).
    exists (x ++ d :: body). split; [|split].
    + unfold written in *. cbn [map concat] in *. rewrite Hw.
      rewrite <- !app_assoc. reflexivity.
    + intros H. apply elem_of_app in H as [H|H]; [exact (Hx H)|].
      apply elem_of_cons in H as [H|H]; [|exact (Hn H)].
      apply Hnd. symmetry. exact H.
    + rewrite (split_at_sep [d] x d body (Hfree x Hdx) Hd), Hs. reflexivity.
Qed.

(** X23: a file without NUL bytes whose last byte is a delimiter is
    handed back as the pieces of the text in front of that last byte,
    cut at every delimiter byte, empty pieces included. *)
Theorem ufiletostrv_splits_terminated_file
    (fs_read : cstr -> option (list ascii)) (st : ustash)
    (name ds body : cstr) (e : ascii) :
  NUL ∉ ds -> NUL ∉ body -> is_delim ds e = true ->
  fs_read name = Some (body ++ [e]) ->
  exists table bytes,
    ufiletostrv fs_read true true (Some st) (Some name) (Some ds)
    = Done (FvBlocks table bytes)
    /\ read_file_vec (FvBlocks table bytes) = split_at ds body.
Proof.
  intros Hds Hbody He Hfile.
  rewrite (ufiletostrv_scan fs_read st name ds body e Hds Hbody Hfile), He.
  eexists _, _. split; [reflexivity|].
  cbn [read_file_vec]. rewrite vec_prefix_terminated.
  apply read_slots_set. exact Hbody.
Qed.

Lemma ufiletostrv_splits_terminated_file_witness :
  (NUL ∉ lit ",;") /\ (NUL ∉ lit "a,,b;c")
  /\ is_delim (lit ",;") ","%char = true
  /\ (fun _ : cstr => Some (lit "a,,b;c,")) (lit "f")
     = Some (lit "a,,b;c" ++ [","%char])
  /\ exists table bytes,
      ufiletostrv (fun _ => Some (lit "a,,b;c,")) true true
        (Some {| p_list := None |}) (Some (lit "f")) (Some (lit ",;"))
      = Done (FvBlocks table bytes)
      /\ read_file_vec (FvBlocks table bytes)
         = [lit "a"; lit ""; lit "b"; lit "c"].
Proof.
  assert (H1 : NUL ∉ lit ",;").
  { intros H. apply list_elem_of_In in H. cbn in H.
    repeat (destruct H as [H|H]; [discriminate H|]). exact H. }
  assert (H2 : NUL ∉ lit "a,,b;c").
  { intros H. apply list_elem_of_In in H. cbn in H.
    repeat (destruct H as [H|H]; [discriminate H|]). exact H. }
  split; [exact H1|]. split; [exact H2|]. split; [reflexivity|].
  split; [reflexivity|].
  exact (ufiletostrv_splits_terminated_file
           (fun _ => Some (lit "a,,b;c,")) {| p_list := None |}
           (lit "f") (lit ",;") (lit "a,,b;c") ","%char
           H1 H2 eq_refl eq_refl).
Defined.

(** X24: on a file without NUL bytes that is empty or whose last byte
    is no delimiter, the table is one slot too short: the store of the
    terminating NULL lands behind its end. *)
Theorem ufiletostrv_unterminated_file_overruns
    (fs_read : cstr -> option (list ascii)) (st : ustash)
    (name ds content : cstr) :
  NUL ∉ ds -> NUL ∉ content ->
  fs_read name = Some content ->
  from_option (is_delim ds) false (last content) = false ->
  ufiletostrv fs_read true true (Some st) (Some name) (Some ds) = Fault.
Proof.
  intros Hds Hc Hfile Hlast.
  induction content as [|e body _] using rev_ind.
  - unfold ufiletostrv. rewrite Hfile. reflexivity.
  - rewrite last_snoc in Hlast. cbn [from_option] in Hlast.
    assert (Hbody : NUL ∉ body).
    { intros H. apply Hc. apply elem_of_app. left. exact H. }
    rewrite (ufiletostrv_scan fs_read st name ds body e Hds Hbody Hfile).
    rewrite Hlast. reflexivity.
Qed.

Lemma ufiletostrv_unterminated_file_overruns_witness :
  (NUL ∉ lit ",") /\ (NUL ∉ lit "a,b")
  /\ (fun _ : cstr => Some (lit "a,b")) (lit "f") = Some (lit "a,b")
  /\ from_option (is_delim (lit ",")) false (last (lit "a,b")) = false
  /\ ufiletostrv (fun _ => Some (lit "a,b")) true true
       (Some {| p_list := None |}) (Some (lit "f")) (Some (lit ","))
     = Fault.
Proof.
  assert (H1 : NUL ∉ lit ",").
  { intros H. apply list_elem_of_In in H. cbn in H.
    repeat (destruct H as [H|H]; [discriminate H|]). exact H. }
  assert (H2 : NUL ∉ lit "a,b").
  { intros H. apply list_elem_of_In in H. cbn in H.
    repeat (destruct H as [H|H]; [discriminate H|]). exact H. }
  split; [exact H1|]. split; [exact H2|]. split; [reflexivity|].
  split; [reflexivity|].
  exact (ufiletostrv_unterminated_file_overruns
           (fun _ => Some (lit "a,b")) {| p_list := None |}
           (lit "f") (lit ",") (lit "a,b") H1 H2 eq_refl eq_refl).
Defined.

(** X25: round trip through a file.  A non-empty vector of strings
    free of the delimiter byte, written by [ustrvtofile] with that one
    byte as delimiter and read back by [ufiletostrv] with the same
    delimiter, comes back unchanged, provided every [fwrite] is
    complete and the flush of the stream, which [ustrvtofile] does not
    check, has put every accepted byte into the file. *)
Theorem strv_file_round_trip (fs_read : cstr -> option (list ascii))
    (fwrite : nat -> nat -> nat) (stored : list ascii -> list ascii)
    (st : ustash) (name : cstr) (d : ascii) (strv : list cstr) :
  strv <> [] -> d <> NUL ->
  Forall (fun x => (NUL ∉ x) /\ (d ∉ x)) strv ->
  (forall k n, fwrite k n = n) ->
  stored (written [d] strv) = written [d] strv ->
  fs_read name
  = snd (ustrvtofile true fwrite stored (Some strv) (Some name) (Some [d])) ->
  fst (ustrvtofile true fwrite stored (Some strv) (Some name) (Some [d]))
  = 0%Z
  /\ exists r,
      ufiletostrv fs_read true true (Some st) (Some name) (Some [d]) = Done r
      /\ read_file_vec r = strv.
Proof.
  intros Hne Hd Hall Hw Hflush Hfile. unfold ustrvtofile in *.
  cbn [negb] in *. cbv zeta in *.
  rewrite (write_loop_complete fwrite [d] Hw strv 0 []) in *.
  cbn [fst snd app] in *. split; [reflexivity|].
  rewrite Hflush in Hfile.
  destruct (written_body d strv Hd Hne Hall) as (body & Hbody & Hnul & Hsplit).
  rewrite Hbody in Hfile.
  assert (Hds : NUL ∉ [d]).
  { intros H. apply elem_of_cons in H as [H|H]; [congruence|].
    apply elem_of_nil in H. exact H. }
  rewrite (ufiletostrv_scan fs_read st name [d] body d Hds Hnul Hfile).
  assert (Hdd : is_delim [d] d = true).
  { unfold is_delim. cbn [existsb]. rewrite Ascii.eqb_refl. reflexivity. }
  rewrite Hdd. eexists. split; [reflexivity|].
  cbn [read_file_vec]. rewrite vec_prefix_terminated.
  rewrite (read_slots_set [d] body Hnul). exact Hsplit.
Qed.

Lemma strv_file_round_trip_witness :
  [lit "a"; lit "b"] <> [] /\ ","%char <> NUL
  /\ Forall (fun x => (NUL ∉ x) /\ (","%char ∉ x)) [lit "a"; lit "b"]
  /\ (forall k n : nat, (fun _ m : nat => m) k n = n)
  /\ (fun x : list ascii => x) (written [","%char] [lit "a"; lit "b"])
     = written [","%char] [lit "a"; lit "b"]
  /\ (fun _ : cstr => Some (lit "a,b,")) (lit "f")
     = snd (ustrvtofile true (fun _ m => m) (fun x => x)
              (Some [lit "a"; lit "b"]) (Some (lit "f")) (Some [","%char]))
  /\ fst (ustrvtofile true (fun _ m => m) (fun x => x)
            (Some [lit "a"; lit "b"]) (Some (lit "f")) (Some [","%char]))
     = 0%Z
  /\ exists r,
      ufiletostrv (fun _ => Some (lit "a,b,")) true true
        (Some {| p_list := None |}) (Some (lit "f")) (Some [","%char])
      = Done r
      /\ read_file_vec r = [lit "a"; lit "b"].
Proof.
  assert (H0 : [lit "a"; lit "b"] <> []) by discriminate.
  assert (H1 : ","%char <> NUL) by discriminate.
  assert (Hfree : forall x y : ascii, x <> y -> x ∉ [y]).
  { intros x y Hxy H. apply elem_of_cons in H as [H|H]; [exact (Hxy H)|].
    apply elem_of_nil in H. exact H. }
  assert (H2 : Forall (fun x => (NUL ∉ x) /\ (","%char ∉ x))
                 [lit "a"; lit "b"]).
  { apply Forall_cons. split.
    - split; apply Hfree; discriminate.
    - apply Forall_cons. split; [|apply Forall_nil_2].
      split; apply Hfree; discriminate. }
  assert (H3 : forall k n : nat, (fun _ m : nat => m) k n = n)
    by (intros; reflexivity).
  split; [exact H0|]. split; [exact H1|]. split; [exact H2|].
  split; [exact H3|]. split; [reflexivity|]. split; [reflexivity|].
  exact (strv_file_round_trip (fun _ => Some (lit "a,b,")) (fun _ m => m)
           (fun x => x) {| p_list := None |} (lit "f") ","%char
           [lit "a"; lit "b"] H0 H1 H2 H3 eq_refl eq_refl).
Defined.

(** X26: status 0 from [ustrvtofile] says that the stream has accepted
    every string of the vector, each followed by the whole delimiter
    string, and nothing else; it says nothing about the file.  The file
    holds what the flush has left of those bytes, and the status is 0
    as well whatever the flush leaves, an empty file included. *)
Theorem ustrvtofile_status_ignores_close (fopen_ok : bool)
    (fwrite : nat -> nat -> nat) (stored : list ascii -> list ascii)
    (pp_strv : option (list cstr))
    (p_filename p_delim : option cstr) (file : option (list ascii)) :
  ustrvtofile fopen_ok fwrite stored pp_strv p_filename p_delim
  = (0%Z, file) ->
  exists strv delim,
    pp_strv = Some strv /\ p_delim = Some delim
    /\ file = Some (stored (written delim strv))
    /\ forall stored' : list ascii -> list ascii,
         ustrvtofile fopen_ok fwrite stored' pp_strv p_filename p_delim
         = (0%Z, Some (stored' (written delim strv))).
Proof.
  intros H. unfold ustrvtofile in H |- *.
  destruct pp_strv as [strv|]; [|discriminate].
  destruct p_filename as [name|]; [|discriminate].
  destruct p_delim as [delim|]; [|discriminate].
  destruct fopen_ok; cbn [negb] in H |- *; [|discriminate].
  cbv zeta in H |- *.
  destruct (write_loop fwrite 0 delim strv []) as [res out] eqn:E.
  cbn [fst snd] in H |- *. injection H as -> <-.
  exists strv, delim. split; [reflexivity|]. split; [reflexivity|].
  rewrite (write_loop_success fwrite delim strv 0 [] out E).
  split; reflexivity.
Qed.

Lemma ustrvtofile_status_ignores_close_witness :
  ustrvtofile true (fun _ m => m) (fun _ => []) (Some [lit "a"; lit "b"])
    (Some (lit "f")) (Some (lit ", "))
  = (0%Z, Some [])
  /\ exists strv delim,
      Some [lit "a"; lit "b"] = Some strv /\ Some (lit ", ") = Some delim
      /\ Some [] = Some ((fun _ : list ascii => @nil ascii)
                           (written delim strv))
      /\ forall stored' : list ascii -> list ascii,
           ustrvtofile true (fun _ m => m) stored' (Some [lit "a"; lit "b"])
             (Some (lit "f")) (Some (lit ", "))
           = (0%Z, Some (stored' (written delim strv))).
Proof.
  split; [reflexivity|].
  exact (ustrvtofile_status_ignores_close true (fun _ m => m) (fun _ => [])
           (Some [lit "a"; lit "b"]) (Some (lit "f")) (Some (lit ", "))
           (Some []) eq_refl).
Defined.

End FileCoverage.
